(** * QUIT: the DESPOT1 estimator (qdespot1.cpp) and the signal tool (qsignal.cpp)

    A shallow embedding of [DESPOT1::apply], of its [T1Functor], of the
    per-voxel body of [SignalsFilter::ThreadedGenerateData] and of
    [parseInput], with the properties of the specification stated over it.

    Numbers.  A C++ [double] is a real number or [Special].  Between real
    numbers the arithmetic of the source is read as exact arithmetic, so
    rounding and overflow are outside the model.  An operation outside its
    domain (a division by zero, the logarithm of a number that is not
    positive) gives [Special], which stands for the IEEE infinities and
    NaN and for every value computed from one of them: the model does not
    follow the arithmetic of special values.  The data, the flip angles,
    TR and B1 that a call receives are real numbers.  [size_t] values are
    integers with the 64-bit wrap-around written out.

    Eigen.  [VectorXd]/[ArrayXd] are lists, an n-by-2 matrix is its pair of
    columns, a coefficient-wise operation of two arrays checks that they
    have the same size as Eigen's assertion does, and
    [partialPivLu().solve()] on the 2-by-2 normal equations is elimination
    with row pivoting followed by the two triangular substitutions.  The
    assertions of Eigen and the [assert] of the source are taken as
    compiled in; memory exhaustion is outside the model. *)

From Stdlib Require Import String Ascii Bool ZArith Reals Lra Lia List Permutation.
Import ListNotations.

Set Implicit Arguments.

(* ================================================================== *)
(** * How a call completes: it returns, throws, or fails an assertion *)

Inductive completion (A : Type) : Type :=
| Returns (a : A)
| Throws (what : string)
| Aborts (assertion : string).

Arguments Returns {A} a.
Arguments Throws {A} what.
Arguments Aborts {A} assertion.

Definition bind {A B} (c : completion A) (k : A -> completion B) : completion B :=
  match c with
  | Returns a => k a
  | Throws w => Throws w
  | Aborts a => Aborts a
  end.

Notation "x <- c ;; k" := (bind c (fun x => k))
  (at level 61, c at next level, right associativity).

(* ================================================================== *)
(** * size_t *)

Module SizeT.
Local Open Scope Z_scope.

Definition modulus : Z := 2 ^ 64.

Definition wrap (z : Z) : Z := z mod modulus.

Definition add (a b : Z) : Z := wrap (a + b).
Definition mul (a b : Z) : Z := wrap (a * b).

Definition in_range (z : Z) : Prop := 0 <= z < modulus.
End SizeT.

Open Scope R_scope.

(* ================================================================== *)
(** * double *)

Module Dbl.

Inductive t : Type :=
| Finite (r : R)
| Special.

Definition lift1 (f : R -> R) (a : t) : t :=
  match a with
  | Finite x => Finite (f x)
  | Special => Special
  end.

Definition lift2 (f : R -> R -> R) (a b : t) : t :=
  match a, b with
  | Finite x, Finite y => Finite (f x y)
  | _, _ => Special
  end.

Definition add : t -> t -> t := lift2 Rplus.
Definition sub : t -> t -> t := lift2 Rminus.
Definition mul : t -> t -> t := lift2 Rmult.
Definition neg : t -> t := lift1 Ropp.
Definition abs : t -> t := lift1 Rabs.
Definition sin : t -> t := lift1 Rtrigo_def.sin.
Definition cos : t -> t := lift1 Rtrigo_def.cos.
Definition exp : t -> t := lift1 Rtrigo_def.exp.

(** [.square()]. *)
Definition square (a : t) : t := mul a a.

(** A division by zero gives an infinity or a NaN. *)
Definition div (a b : t) : t :=
  match a, b with
  | Finite x, Finite y => if Req_dec_T y 0 then Special else Finite (x / y)
  | _, _ => Special
  end.

(** [log]: minus infinity at 0, a NaN below. *)
Definition ln (a : t) : t :=
  match a with
  | Finite x => if Rlt_dec 0 x then Finite (Rpower.ln x) else Special
  | Special => Special
  end.

(** The tangent, where the cosine is not zero. *)
Definition tan (a : t) : t :=
  match a with
  | Finite x =>
      if Req_dec_T (Rtrigo_def.cos x) 0 then Special else Finite (Rtrigo1.tan x)
  | Special => Special
  end.

(** [sqrt]: a NaN below zero. *)
Definition sqrt (a : t) : t :=
  match a with
  | Finite x => if Rlt_dec x 0 then Special else Finite (R_sqrt.sqrt x)
  | Special => Special
  end.

Definition of_reals (xs : list R) : list t := map Finite xs.

End Dbl.

(* ================================================================== *)
(** * The part of Eigen the estimator uses *)

Module Eigen.

(** A coefficient-wise binary operation of two arrays; the constructor of
    the expression asserts that the operands have the same size. *)
Definition cwise {A B C} (f : A -> B -> C) (xs : list A) (ys : list B)
  : completion (list C) :=
  if Nat.eqb (length xs) (length ys)
  then Returns (map (fun p => f (fst p) (snd p)) (combine xs ys))
  else Aborts "aLhs.rows() == aRhs.rows() && aLhs.cols() == aRhs.cols()".

Definition sum (xs : list Dbl.t) : Dbl.t :=
  fold_right Dbl.add (Dbl.Finite 0) xs.

(** [a.transpose() * b] for two columns of the same matrix. *)
Definition dot (a b : list Dbl.t) : Dbl.t :=
  sum (map (fun p => Dbl.mul (fst p) (snd p)) (combine a b)).

(** [a.transpose() * w.asDiagonal() * b]. *)
Definition wdot (a w b : list Dbl.t) : Dbl.t :=
  dot (map (fun p => Dbl.mul (fst p) (snd p)) (combine a w)) b.

(** [VectorXd::Ones(n)] and [col.setOnes()]. *)
Definition Ones (n : nat) : list Dbl.t := repeat (Dbl.Finite 1) n.

(** Complex numbers, [abs] being the modulus. *)
Definition Cplx : Type := (Dbl.t * Dbl.t)%type.
Definition Cabs (z : Cplx) : Dbl.t :=
  Dbl.sqrt (Dbl.add (Dbl.mul (fst z) (fst z)) (Dbl.mul (snd z) (snd z))).
Definition of_real (x : Dbl.t) : Cplx := (x, Dbl.Finite 0).

(** A 2-by-2 matrix, by rows, and a 2-vector. *)
Record Matrix2 : Type := mkM2 { m00 : Dbl.t; m01 : Dbl.t; m10 : Dbl.t; m11 : Dbl.t }.
Record Vector2 : Type := mkV2 { v0 : Dbl.t; v1 : Dbl.t }.

(** [M.partialPivLu().solve(rhs)] for a 2-by-2 matrix.  In column 0 the
    row with the largest absolute value becomes the pivot row (the first
    one on a tie); when that value is not zero the entry below the pivot
    is divided by it; the trailing entry is updated; the right-hand side
    is permuted, and the unit lower and the upper triangular systems are
    solved in turn, the last pivot and then the first dividing whatever
    they are.  With a special value in column 0 the choice of the pivot
    row is not followed: the result is special. *)
Definition partialPivLu_solve (M : Matrix2) (rhs : Vector2) : Vector2 :=
  match m00 M, m10 M with
  | Dbl.Finite p0, Dbl.Finite p1 =>
      let swap := if Rlt_dec (Rabs p0) (Rabs p1) then true else false in
      let pivot := if swap then p1 else p0 in
      let a := Dbl.Finite pivot in
      let b := if swap then m11 M else m01 M in
      let c := Dbl.Finite (if swap then p0 else p1) in
      let d := if swap then m01 M else m11 M in
      let u := if swap then v1 rhs else v0 rhs in
      let v := if swap then v0 rhs else v1 rhs in
      let l := if Req_dec_T (Rabs pivot) 0 then c else Dbl.div c a in
      let d' := Dbl.sub d (Dbl.mul l b) in
      let y0 := u in
      let y1 := Dbl.sub v (Dbl.mul l y0) in
      let x1 := Dbl.div y1 d' in
      let x0 := Dbl.div (Dbl.sub y0 (Dbl.mul b x1)) a in
      mkV2 x0 x1
  | _, _ => mkV2 Dbl.Special Dbl.Special
  end.

End Eigen.

(* ================================================================== *)
(** * Sequences and the SPGR signal equation *)

(** Tissue models named by the sources ([SCD], [MCD2], [MCD3]). *)
Inductive Model : Type := SCD | MCD2 | MCD3.

(** The interface of [SequenceBase] the two programs use: the flip angles,
    the repetition time, the number of acquisition conditions and the
    forward model. *)
Record SequenceBase : Type := mkSequence {
  flip : list R;
  TR : R;
  size : Z;
  signal : Model -> list Dbl.t -> list Eigen.Cplx
}.

Module QI.

(** Modelled from the spec: [One_SPGR] is declared in SPGR.h, which is not
    among the sources.  The specification gives the single-compartment
    spoiled gradient-echo signal per flip angle as
    [E1 = exp(-TR / T1)] and
    [S = PD * sin(a*B1) * (1 - E1) / (1 - E1*cos(a*B1))];
    the result is a complex vector whose entries are real. *)
Definition One_SPGR (flip : list R) (TR : R) (PD T1 : Dbl.t) (B1 : R)
  : list Eigen.Cplx :=
  let E1 := Dbl.exp (Dbl.div (Dbl.Finite (- TR)) T1) in
  map (fun a =>
         Eigen.of_real
           (Dbl.div
              (Dbl.mul (Dbl.mul PD (Dbl.Finite (sin (a * B1))))
                       (Dbl.sub (Dbl.Finite 1) E1))
              (Dbl.sub (Dbl.Finite 1)
                       (Dbl.mul E1 (Dbl.Finite (cos (a * B1)))))))
      flip.

End QI.

(* ================================================================== *)
(** * qdespot1.cpp: class DESPOT1 *)

Module DESPOT1.

Inductive AlgoType : Type := LLS | WLLS | NLLS.

Record t : Type := mk { m_type : AlgoType; m_iterations : Z }.

(** The member initialisers: [m_type = Type::LLS], [m_iterations = 4]. *)
Definition default : t := mk LLS 4.

Definition setType (ty : AlgoType) (d : t) : t := mk ty (m_iterations d).
Definition setIterations (n : Z) (d : t) : t := mk (m_type d) n.

Definition numConsts : nat := 1.
Definition numOutputs : nat := 2.
Definition defaultConsts : list R := [1].

(** The members of [T1Functor] that its [operator()] reads. *)
Record T1Functor : Type := mkT1Functor {
  m_sequence : SequenceBase;
  m_data : list R;
  m_B1 : R
}.

(** [values()], set by the constructor to [cs->size()]. *)
Definition values (f : T1Functor) : Z := size (m_sequence f).

(** The constructor (lines 51 to 58) with its [assert]: the data have
    [values()] rows. *)
Definition T1Functor_new (sequence : SequenceBase) (data : list R) (B1 : R)
  : completion T1Functor :=
  if (Z.of_nat (length data) =? size sequence)%Z
  then Returns (mkT1Functor sequence data B1)
  else Aborts "static_cast<size_t>(m_data.rows()) == values()".

(** [T1Functor::operator()] (lines 60 to 66) on the parameters and on a
    difference vector of [diffs_rows] rows: the assertion on that vector;
    the two parameters placed in the first two of five entries, B1 in the
    last one; the differences, the magnitude of the sequence's signal
    minus the data, assigned to the difference vector, which cannot be
    resized. *)
Definition T1Functor_call (f : T1Functor) (params : list Dbl.t)
           (diffs_rows : nat) : completion (list Dbl.t) :=
  if (Z.of_nat diffs_rows =? values f)%Z then
    match params with
    | [p0; p1] =>
        let fullParams :=
          [p0; p1; Dbl.Finite 0; Dbl.Finite 0; Dbl.Finite (m_B1 f)] in
        let s := signal (m_sequence f) SCD fullParams in
        diffs <- Eigen.cwise Dbl.sub (map Eigen.Cabs s)
                             (Dbl.of_reals (m_data f)) ;;
        if Nat.eqb (length diffs) diffs_rows
        then Returns diffs
        else Aborts "rows == this->rows() && cols == this->cols()"
    | _ => Aborts "rows == this->rows() && cols == this->cols()"
    end
  else Aborts "diffs.size() == values()".

(** The value given to [setMaxfev]. *)
Definition maxfev (d : t) (sequence : SequenceBase) : Z :=
  SizeT.mul (m_iterations d) (SizeT.add (size sequence) 1).

(** Lines 98 to 102: the scaled flip angles and the linearised data. *)
Definition scaled_flip (sequence : SequenceBase) (B1 : R) : list R :=
  map (fun a => a * B1) (flip sequence).

Definition Y_divisors (fl : list R) : list Dbl.t :=
  map (fun a => Dbl.sin (Dbl.Finite a)) fl.
Definition X_divisors (fl : list R) : list Dbl.t :=
  map (fun a => Dbl.tan (Dbl.Finite a)) fl.

Definition linear_Y (data fl : list R) : completion (list Dbl.t) :=
  Eigen.cwise Dbl.div (Dbl.of_reals data) (Y_divisors fl).

Definition linear_X0 (data fl : list R) : completion (list Dbl.t) :=
  Eigen.cwise Dbl.div (Dbl.of_reals data) (X_divisors fl).

Definition linear_X1 (Y : list Dbl.t) : list Dbl.t := Eigen.Ones (length Y).

(** [Y] and the two columns of [X]. *)
Record Linear : Type := mkLinear {
  Y : list Dbl.t;
  X0 : list Dbl.t;
  X1 : list Dbl.t
}.

Definition linearise (data fl : list R) : completion Linear :=
  y <- linear_Y data fl ;;
  x0 <- linear_X0 data fl ;;
  Returns (mkLinear y x0 (linear_X1 y)).

(** [X.transpose() * X] and [X.transpose() * Y]. *)
Definition XtX (X0 X1 : list Dbl.t) : Eigen.Matrix2 :=
  Eigen.mkM2 (Eigen.dot X0 X0) (Eigen.dot X0 X1)
             (Eigen.dot X1 X0) (Eigen.dot X1 X1).

Definition XtY (X0 X1 Y : list Dbl.t) : Eigen.Vector2 :=
  Eigen.mkV2 (Eigen.dot X0 Y) (Eigen.dot X1 Y).

(** [X.transpose() * W.asDiagonal() * X] and the weighted right-hand side. *)
Definition XtWX (X0 X1 W : list Dbl.t) : Eigen.Matrix2 :=
  Eigen.mkM2 (Eigen.wdot X0 W X0) (Eigen.wdot X0 W X1)
             (Eigen.wdot X1 W X0) (Eigen.wdot X1 W X1).

Definition XtWY (X0 X1 W Y : list Dbl.t) : Eigen.Vector2 :=
  Eigen.mkV2 (Eigen.wdot X0 W Y) (Eigen.wdot X1 W Y).

(** Lines 104-105 and 111-112: [outputs[1]] then [outputs[0]] from [b]. *)
Definition derive (sequence : SequenceBase) (b : Eigen.Vector2) : list Dbl.t :=
  let T1 := Dbl.div (Dbl.neg (Dbl.Finite (TR sequence))) (Dbl.ln (Eigen.v0 b)) in
  let PD := Dbl.div (Eigen.v1 b) (Dbl.sub (Dbl.Finite 1) (Eigen.v0 b)) in
  [PD; T1].

(** Lines 103 to 105 on the linearised data. *)
Definition lls (sequence : SequenceBase) (lin : Linear) : list Dbl.t :=
  let b := Eigen.partialPivLu_solve (XtX (X0 lin) (X1 lin))
                                    (XtY (X0 lin) (X1 lin) (Y lin)) in
  derive sequence b.

(** Line 109. *)
Definition weights (sequence : SequenceBase) (fl : list R) (T1 : Dbl.t)
  : list Dbl.t :=
  let E1 := Dbl.exp (Dbl.div (Dbl.neg (Dbl.Finite (TR sequence))) T1) in
  map (fun a =>
         Dbl.square
           (Dbl.div (Dbl.sin (Dbl.Finite a))
                    (Dbl.sub (Dbl.Finite 1)
                             (Dbl.mul E1 (Dbl.cos (Dbl.Finite a))))))
      fl.

(** The body of the loop of lines 108 to 113; [outputs] has the two rows
    the closed form or the pass before wrote. *)
Definition wlls_pass (sequence : SequenceBase) (fl : list R) (lin : Linear)
           (outputs : list Dbl.t) : list Dbl.t :=
  let W := weights sequence fl (nth 1 outputs Dbl.Special) in
  let b := Eigen.partialPivLu_solve (XtWX (X0 lin) (X1 lin) W)
                                    (XtWY (X0 lin) (X1 lin) W (Y lin)) in
  derive sequence b.

(** [for (size_t n = 0; n < m_iterations; n++)]: [todo] passes remain. *)
Fixpoint wlls_loop (todo : nat) (sequence : SequenceBase) (fl : list R)
         (lin : Linear) (outputs : list Dbl.t) : list Dbl.t :=
  match todo with
  | O => outputs
  | S todo' =>
      wlls_loop todo' sequence fl lin (wlls_pass sequence fl lin outputs)
  end.

(** Lines 122-123: [outputs[0]] and [outputs[1]] are read, and the
    magnitude of the model is subtracted from the data. *)
Definition residuals (sequence : SequenceBase) (data : list R) (B1 : R)
           (outputs : list Dbl.t) : completion (list Dbl.t) :=
  match outputs with
  | PD :: T1 :: _ =>
      let theory := map Eigen.Cabs
                        (QI.One_SPGR (flip sequence) (TR sequence) PD T1 B1) in
      Eigen.cwise Dbl.sub (Dbl.of_reals data) theory
  | _ => Aborts "index >= 0 && index < size()"
  end.

(** Eigen's optimiser is outside the repository: the functor wrapper
    [NumericalDiff] and [LevenbergMarquardt::minimize], which calls the
    functor as it sees fit and leaves its result in the vector it was
    given, are parameters. *)
Section Apply.

Variable DiffFunctor : Type.
Variable NumericalDiff : T1Functor -> DiffFunctor.

(** The optimiser object: its functor and the function-evaluation budget. *)
Record LevenbergMarquardt : Type := mkLM {
  lm_functor : DiffFunctor;
  lm_maxfev : Z
}.

Variable minimize : LevenbergMarquardt -> list Dbl.t -> completion (list Dbl.t).

(** Lines 116 to 118: the optimiser over the numerical derivative of the
    functor, its budget set. *)
Definition nlls_optimizer (d : t) (sequence : SequenceBase) (f : T1Functor)
  : LevenbergMarquardt :=
  let nDiff := NumericalDiff f in
  mkLM nDiff (maxfev d sequence).

(** Lines 106 to 119: what the strategy makes of the closed-form outputs. *)
Definition refine (d : t) (sequence : SequenceBase) (data : list R) (B1 : R)
           (lin : Linear) (outputs : list Dbl.t) : completion (list Dbl.t) :=
  match m_type d with
  | LLS => Returns outputs
  | WLLS =>
      Returns (wlls_loop (Z.to_nat (m_iterations d)) sequence
                         (scaled_flip sequence B1) lin outputs)
  | NLLS =>
      f <- T1Functor_new sequence data B1 ;;
      minimize (nlls_optimizer d sequence f) outputs
  end.

(** [DESPOT1::apply] (lines 91 to 124): how the call completes and, when it
    returns, the outputs and the residuals it has written.  [inputs[0]]
    is read with Eigen's index assertion; [outputs] is the vector of
    [numOutputs()] rows of the caller. *)
Definition apply (d : t) (sequence : SequenceBase) (data inputs : list R)
  : completion (list Dbl.t * list Dbl.t) :=
  match inputs with
  | [] => Aborts "index >= 0 && index < size()"
  | B1 :: _ =>
      lin <- linearise data (scaled_flip sequence B1) ;;
      outputs <- refine d sequence data B1 lin (lls sequence lin) ;;
      resids <- residuals sequence data B1 outputs ;;
      Returns (outputs, resids)
  end.

End Apply.

End DESPOT1.

(* ================================================================== *)
(** * The estimator in the words of the specification *)

Module Spec.

(** Sums and coefficient-wise products of real vectors. *)
Fixpoint map2 (f : R -> R -> R) (xs ys : list R) : list R :=
  match xs, ys with
  | x :: xs', y :: ys' => f x y :: map2 f xs' ys'
  | _, _ => []
  end.

Definition sum (xs : list R) : R := fold_right Rplus 0 xs.

(** A flip angle at which the linearisation divides by numbers that are
    not zero: the sine and the tangent of the scaled angle. *)
Definition divisible (B1 a : R) : Prop :=
  sin (a * B1) <> 0 /\ cos (a * B1) <> 0.

(** [Y = S / sin(a*B1)] and [X = S / tan(a*B1)], per flip angle. *)
Definition Y (data fl : list R) (B1 : R) : list R :=
  map2 Rdiv data (map (fun a => sin (a * B1)) fl).

Definition X (data fl : list R) (B1 : R) : list R :=
  map2 Rdiv data (map (fun a => tan (a * B1)) fl).

(** [w(a) = (sin(a*B1) / (1 - exp(-TR/T1) * cos(a*B1)))^2]. *)
Definition weight (tr T1 B1 a : R) : R :=
  Rsqr (sin (a * B1) / (1 - exp (- tr / T1) * cos (a * B1))).

Definition W (fl : list R) (tr T1 B1 : R) : list R := map (weight tr T1 B1) fl.

(** A current T1 estimate at which the weights are defined. *)
Definition weighable (fl : list R) (tr T1 B1 : R) : Prop :=
  T1 <> 0 /\ Forall (fun a => 1 - exp (- tr / T1) * cos (a * B1) <> 0) fl.

(** Sums of products. *)
Definition S1 (a : list R) : R := sum a.
Definition S2 (a b : list R) : R := sum (map2 Rmult a b).
Definition S3 (a b c : list R) : R := sum (map2 Rmult (map2 Rmult a b) c).

(** The normal equations [(XtX) b = Xt Y] of the fit of [y] on [[x, 1]]. *)
Definition normal_equations (x y : list R) (b0 b1 : R) : Prop :=
  S2 x x * b0 + S1 x * b1 = S2 x y /\
  S1 x * b0 + INR (length y) * b1 = S1 y.

Definition regular (x y : list R) : Prop :=
  S2 x x * INR (length y) - S1 x * S1 x <> 0.

(** The weighted normal equations [(Xt W X) b = Xt W Y]. *)
Definition weighted_normal_equations (w x y : list R) (b0 b1 : R) : Prop :=
  S3 w x x * b0 + S2 w x * b1 = S3 w x y /\
  S2 w x * b0 + S1 w * b1 = S2 w y.

Definition weighted_regular (w x : list R) : Prop :=
  S3 w x x * S1 w - S2 w x * S2 w x <> 0.

(** [PD = b1 / (1 - b0)] and [T1 = -TR / ln(b0)], as doubles. *)
Definition recover (tr b0 b1 : R) : list Dbl.t :=
  [Dbl.div (Dbl.Finite b1) (Dbl.Finite (1 - b0));
   Dbl.div (Dbl.Finite (- tr)) (Dbl.ln (Dbl.Finite b0))].

(** The SPGR signal of the specification at one flip angle. *)
Definition spgr (tr PD T1 B1 a : R) : R :=
  PD * sin (a * B1) * (1 - exp (- tr / T1)) / (1 - exp (- tr / T1) * cos (a * B1)).

End Spec.

(* ================================================================== *)
(** * qsignal.cpp *)

Module QSignal.

(** The file-scope variables of qsignal.cpp. *)
Record globals : Type := mkGlobals {
  model : Model;
  verbose : bool;
  prompt : bool;
  finitesequences : bool;
  outputComplex : bool;
  outPrefix : string;
  sigma : R;
  mask : option string
}.

(** Their initialisers ([mask] is the local of [main], null at first). *)
Definition initial : globals :=
  mkGlobals SCD false true false false "" 0 None.

(** What one option does to the run: it goes on, [main] returns
    [EXIT_FAILURE], or a null [optarg] is dereferenced. *)
Inductive option_result : Type :=
| Continue (g : globals)
| Exit_failure
| Null_dereference.

(** The known sequence types, in the order [parseInput] tests them. *)
Inductive SeqKind : Type :=
| SPGRSimple | SPGRFinite | SSFPSimple | SSFPFinite | SSFPEllipse
| IRSPGR | MPRAGE | AFI | MultiEcho.

Definition known_type (type : string) : option SeqKind :=
  if (type =? "SPGR")%string then Some SPGRSimple
  else if (type =? "SPGRFinite")%string then Some SPGRFinite
  else if (type =? "SSFP")%string then Some SSFPSimple
  else if (type =? "SSFPFinite")%string then Some SSFPFinite
  else if (type =? "SSFPEllipse")%string then Some SSFPEllipse
  else if (type =? "IRSPGR")%string then Some IRSPGR
  else if (type =? "MPRAGE")%string then Some MPRAGE
  else if (type =? "AFI")%string then Some AFI
  else if (type =? "SPINECHO")%string then Some MultiEcho
  else None.

(** The nine names it knows. *)
Definition known_names : list string :=
  ["SPGR"; "SPGRFinite"; "SSFP"; "SSFPFinite"; "SSFPEllipse";
   "IRSPGR"; "MPRAGE"; "AFI"; "SPINECHO"]%string.

(** The loop guard of [parseInput] once [Read] succeeded. *)
Definition continues (type : string) : bool :=
  negb (type =? "END")%string && negb (type =? "")%string.

Section Program.

(** libc's [atof] and the narrowing [cast<complex<float>>]. *)
Variable atof : string -> R.
Variable cast_float : Eigen.Cplx -> Eigen.Cplx.

(** The [switch] of [main] on one option returned by [getopt_long];
    [optarg] is [None] when [getopt_long] left it null, which it does for
    an option declared without argument, as the long option
    [--sequences] is. *)
Definition handle_option (c : ascii) (optarg : option string) (g : globals)
  : option_result :=
  let set_model m :=
    mkGlobals m (verbose g) (prompt g) (finitesequences g)
              (outputComplex g) (outPrefix g) (sigma g) (mask g) in
  let set_finite b :=
    mkGlobals (model g) (verbose g) (prompt g) b
              (outputComplex g) (outPrefix g) (sigma g) (mask g) in
  let with_arg (k : string -> option_result) :=
    match optarg with
    | Some s => k s
    | None => Null_dereference
    end in
  if Ascii.eqb c "v" then
    Continue (mkGlobals (model g) true (prompt g) (finitesequences g)
                        (outputComplex g) (outPrefix g) (sigma g) (mask g))
  else if Ascii.eqb c "n" then
    Continue (mkGlobals (model g) (verbose g) false (finitesequences g)
                        (outputComplex g) (outPrefix g) (sigma g) (mask g))
  else if Ascii.eqb c "N" then
    with_arg (fun s =>
      Continue (mkGlobals (model g) (verbose g) (prompt g) (finitesequences g)
                          (outputComplex g) (outPrefix g) (atof s) (mask g)))
  else if Ascii.eqb c "m" then
    with_arg (fun s =>
      Continue (mkGlobals (model g) (verbose g) (prompt g) (finitesequences g)
                          (outputComplex g) (outPrefix g) (sigma g) (Some s)))
  else if Ascii.eqb c "o" then
    with_arg (fun s =>
      Continue (mkGlobals (model g) (verbose g) (prompt g) (finitesequences g)
                          (outputComplex g) s (sigma g) (mask g)))
  else if Ascii.eqb c "1" then Continue (set_model SCD)
  else if Ascii.eqb c "2" then Continue (set_model MCD2)
  else if Ascii.eqb c "3" then Continue (set_model MCD3)
  else if Ascii.eqb c "x" then
    Continue (mkGlobals (model g) (verbose g) (prompt g) (finitesequences g)
                        true (outPrefix g) (sigma g) (mask g))
  else if Ascii.eqb c "M" then
    with_arg (fun s =>
      match s with
      | String "s" _ => Continue (set_finite false)
      | String "f" _ => Continue (set_finite true)
      | _ => Exit_failure
      end)
  else if Ascii.eqb c "T" then with_arg (fun _ => Continue g)
  else Exit_failure.

(** The [getopt_long] loop over the options of the command line. *)
Fixpoint handle_options (opts : list (ascii * option string)) (g : globals)
  : option_result :=
  match opts with
  | [] => Continue g
  | (c, optarg) :: rest =>
      match handle_option c optarg g with
      | Continue g' => handle_options rest g'
      | Exit_failure => Exit_failure
      | Null_dereference => Null_dereference
      end
  end.

(** The body of the loop of [SignalsFilter::ThreadedGenerateData] for
    one voxel: [maskv] is the mask value there when the filter has a
    mask, [inputs] the values of the parameter images.  [None]: the
    output pixel is not written. *)
Definition voxel (m_model : Model) (m_sequence : SequenceBase)
           (maskv : option R) (inputs : list Dbl.t) : option (list Eigen.Cplx) :=
  let inside :=
    match maskv with
    | None => true
    | Some v => if Req_dec_T v 0 then false else true
    end in
  if inside then
    let parameters := inputs in
    let allData := map cast_float (signal m_sequence m_model parameters) in
    Some (firstn (Z.to_nat (size m_sequence)) allData)
  else None.

(** What [main] writes for one voxel of one sequence: the complex
    signal, or its modulus.  [main] reads the mask named by the option
    [m] into a local and never hands it to the filter, so the filter has
    no mask. *)
Definition written (g : globals) (m_sequence : SequenceBase)
           (inputs : list Dbl.t)
  : option (list Eigen.Cplx + list Dbl.t) :=
  match voxel (model g) m_sequence None inputs with
  | Some px => Some (if outputComplex g then inl px
                     else inr (map Eigen.Cabs px))
  | None => None
  end.

(** [cin], the reader [Read] of Util.h and the constructors of the
    sequence classes of Sequence.h, which read their own parameters
    from [cin]: none of them is among the sources. *)
Variable istream : Type.
Variable Read : istream -> completion (bool * string * istream).
Variable construct :
  SeqKind -> bool -> istream -> completion (SequenceBase * istream).

(** [parseInput]: one unit of [fuel] per turn of the [while] loop;
    [Returns None] when the fuel is used up before the loop ends. *)
Fixpoint parseInput (fuel : nat) (g : globals) (cin : istream)
         (cs : list SequenceBase) (names : list string)
  : completion (option (list SequenceBase * list string * istream)) :=
  match fuel with
  | O => Returns None
  | S fuel' =>
      r <- Read cin ;;
      let '(ok, type, cin1) := r in
      if ok && continues type then
        match known_type type with
        | Some k =>
            c <- construct k (prompt g) cin1 ;;
            let '(s, cin2) := c in
            f <- Read cin2 ;;
            let '(_, filename, cin3) := f in
            parseInput fuel' g cin3 (cs ++ [s]) (names ++ [filename])
        | None => Throws ("Unknown signal type: " ++ type)
        end
      else Returns (Some (cs, names, cin1))
  end.

(** One completed turn of the loop: a known type, its sequence, its
    file name. *)
Inductive turn (g : globals)
  : istream * list SequenceBase * list string ->
    istream * list SequenceBase * list string -> Prop :=
| turn_intro cin type cin1 k s cin2 ok2 filename cin3 cs names :
    Read cin = Returns (true, type, cin1) ->
    continues type = true ->
    known_type type = Some k ->
    construct k (prompt g) cin1 = Returns (s, cin2) ->
    Read cin2 = Returns (ok2, filename, cin3) ->
    turn g (cin, cs, names) (cin3, cs ++ [s], names ++ [filename]).

(** [n] completed turns in a row. *)
Inductive turns (g : globals)
  : nat -> istream * list SequenceBase * list string ->
    istream * list SequenceBase * list string -> Prop :=
| turns_O st : turns g O st st
| turns_S n st1 st2 st3 :
    turn g st1 st2 -> turns g n st2 st3 -> turns g (S n) st1 st3.

End Program.

End QSignal.

(* ================================================================== *)
(** * Inputs the statements below are evaluated on *)

Module Examples.

(** An SPGR sequence over the given flip angles: its forward model is
    [One_SPGR] at the PD, T1 and B1 entries of the parameter vector. *)
Definition spgr (fl : list R) (tr : R) : SequenceBase :=
  mkSequence fl tr (Z.of_nat (length fl))
             (fun _ p =>
                match nth 4 p Dbl.Special with
                | Dbl.Finite B1 =>
                    QI.One_SPGR fl tr (nth 0 p Dbl.Special) (nth 1 p Dbl.Special) B1
                | Dbl.Special =>
                    map (fun _ => (Dbl.Special, Dbl.Special)) fl
                end).

(** An optimiser that hands back its starting point. *)
Definition DiffFunctor : Type := DESPOT1.T1Functor.
Definition NumericalDiff (f : DESPOT1.T1Functor) : DiffFunctor := f.
Definition minimize (lm : DESPOT1.LevenbergMarquardt DiffFunctor)
           (x : list Dbl.t) : completion (list Dbl.t) := Returns x.

Definition apply := DESPOT1.apply NumericalDiff minimize.

Definition TR5ms : R := 5 / 1000.

(** Two flip angles, 30 and 60 degrees, and data rising steeply. *)
Definition two_angles : SequenceBase := spgr [PI / 6; PI / 3] TR5ms.
Definition rising : list R := [1; 6].

(** A repeated flip angle with two different measurements. *)
Definition repeated : SequenceBase := spgr [PI / 6; PI / 6; PI / 3] TR5ms.
Definition unequal : list R := [1; 2; 3].

(** A sequence with a 0-radian flip angle. *)
Definition zero_flip : SequenceBase := spgr [0; PI / 6] TR5ms.
Definition ones2 : list R := [1; 1].

(** [cin] as the list of its remaining lines; sequence constructors that
    take one line of flip angles and one line with TR. *)
Definition Read (cin : list string)
  : completion (bool * string * list string) :=
  match cin with
  | [] => Returns (false, EmptyString, [])
  | l :: rest => Returns (true, l, rest)
  end.

Definition construct (k : QSignal.SeqKind) (prompt : bool) (cin : list string)
  : completion (SequenceBase * list string) :=
  match cin with
  | _ :: _ :: rest => Returns (spgr [] 0, rest)
  | _ => Throws "Failed to read input"
  end.

Definition parseInput := QSignal.parseInput Read construct.

End Examples.

(* ================================================================== *)
(** * qsignal.cpp: class SignalsFilter *)

Module SignalsFilter.

Section Filter.

(** The image type [TImage], and [Model::nParameters] of Model.h, which is
    not among the sources. *)
Variable Image : Type.
Variable nParameters : Model -> nat.

(** The filter once [SetModel] has run: its two members, the indexed
    inputs of the ITK process object, the number of required inputs and
    the number of components per pixel of output 0 (when made). *)
Record t : Type := mk {
  m_sequence : option SequenceBase;
  m_model : Model;
  inputs : nat -> option Image;
  required_inputs : nat;
  output_components : option Z
}.

(** ITK's [SetNthInput]. *)
Definition SetNthInput (i : nat) (img : Image) (f : t) : t :=
  mk (m_sequence f) (m_model f)
     (fun j => if Nat.eqb j i then Some img else inputs f j)
     (required_inputs f) (output_components f).

Definition SetInput (i : nat) (img : Image) (f : t) : completion t :=
  if Nat.ltb i (nParameters (m_model f))
  then Returns (SetNthInput i img f)
  else Throws "Const input out of range".

Definition SetMask (mask : Image) (f : t) : t :=
  SetNthInput (nParameters (m_model f)) mask f.

Definition GetInput (i : nat) (f : t) : completion (option Image) :=
  if Nat.ltb i (nParameters (m_model f))
  then Returns (inputs f i)
  else Throws "Get Data Input out of range.".

Definition GetMask (f : t) : option Image :=
  inputs f (nParameters (m_model f)).

Definition SetModel (m : Model) (f : t) : t :=
  mk (m_sequence f) m (inputs f) (nParameters m) (output_components f).

(** [MakeOutput]: an image for index 0, with one component per condition
    of the sequence; [NULL] for any other index. *)
Definition MakeOutput (idx : nat) (s : SequenceBase) : option Z :=
  if Nat.ltb idx 1 then Some (size s) else None.

Definition SetSequence (s : SequenceBase) (f : t) : t :=
  mk (Some s) (m_model f) (inputs f) (required_inputs f) (MakeOutput 0 s).

(** The loop of [main] that hands the parameter images to the filter:
    image [i] of the list goes to input [i]. *)
Fixpoint load_inputs (i : nat) (imgs : list Image) (f : t) : completion t :=
  match imgs with
  | [] => Returns f
  | img :: rest => f' <- SetInput i img f ;; load_inputs (S i) rest f'
  end.

End Filter.

End SignalsFilter.

(* ================================================================== *)
(** * qdespot1.cpp: the options of [main] *)

Module QDespot1.

(** The file-scope variables and the locals of [main] the options set. *)
Record state : Type := mkState {
  verbose : bool;
  prompt : bool;
  all_residuals : bool;
  outPrefix : string;
  mask : option string;
  B1 : option string;
  algo : DESPOT1.t
}.

Definition initial : state :=
  mkState false true false "" None None DESPOT1.default.

Inductive option_result : Type :=
| Continue (s : state)
| Exit_failure.

(** The conversion of an [int] to the [size_t] parameter of
    [setIterations]. *)
Definition size_t_of_int (v : Z) : Z := SizeT.wrap v.

Section Main.

(** libc's [atoi]. *)
Variable atoi : string -> Z.

Definition set_algo (a : DESPOT1.t) (s : state) : state :=
  mkState (verbose s) (prompt s) (all_residuals s) (outPrefix s)
          (mask s) (B1 s) a.

(** The [switch] of [main] on one option returned by [getopt_long]; a
    character without a [case] leaves everything as it is. *)
Definition handle_option (c : ascii) (optarg : string) (s : state)
  : option_result :=
  if Ascii.eqb c "v" then
    Continue (mkState true (prompt s) (all_residuals s) (outPrefix s)
                      (mask s) (B1 s) (algo s))
  else if Ascii.eqb c "n" then
    Continue (mkState (verbose s) false (all_residuals s) (outPrefix s)
                      (mask s) (B1 s) (algo s))
  else if Ascii.eqb c "m" then
    Continue (mkState (verbose s) (prompt s) (all_residuals s) (outPrefix s)
                      (Some optarg) (B1 s) (algo s))
  else if Ascii.eqb c "o" then
    Continue (mkState (verbose s) (prompt s) (all_residuals s) optarg
                      (mask s) (B1 s) (algo s))
  else if Ascii.eqb c "b" then
    Continue (mkState (verbose s) (prompt s) (all_residuals s) (outPrefix s)
                      (mask s) (Some optarg) (algo s))
  else if Ascii.eqb c "a" then
    match optarg with
    | String "l" _ => Continue (set_algo (DESPOT1.setType DESPOT1.LLS (algo s)) s)
    | String "w" _ => Continue (set_algo (DESPOT1.setType DESPOT1.WLLS (algo s)) s)
    | String "n" _ => Continue (set_algo (DESPOT1.setType DESPOT1.NLLS (algo s)) s)
    | _ => Exit_failure
    end
  else if Ascii.eqb c "i" then
    Continue (set_algo (DESPOT1.setIterations (size_t_of_int (atoi optarg))
                                              (algo s)) s)
  else if Ascii.eqb c "r" then
    Continue (mkState (verbose s) (prompt s) true (outPrefix s)
                      (mask s) (B1 s) (algo s))
  else if Ascii.eqb c "T" then Continue s
  else if Ascii.eqb c "h" then Exit_failure
  else if Ascii.eqb c "?" then Exit_failure
  else Continue s.

(** The [getopt_long] loop. *)
Fixpoint handle_options (opts : list (ascii * string)) (s : state)
  : option_result :=
  match opts with
  | [] => Continue s
  | (c, optarg) :: rest =>
      match handle_option c optarg s with
      | Continue s' => handle_options rest s'
      | Exit_failure => Exit_failure
      end
  end.

(** What [main] has settled when processing starts: the estimator, the
    input file and the names of the two parameter maps it writes.  [None]
    stands for [EXIT_FAILURE]; [args] are the arguments left after the
    options. *)
Definition setup (opts : list (ascii * string)) (args : list string)
  : option (DESPOT1.t * string * string * string) :=
  match handle_options opts initial with
  | Exit_failure => None
  | Continue s =>
      match args with
      | [inputFilename] =>
          let prefix := (outPrefix s ++ "D1_")%string in
          Some (algo s, inputFilename,
                (prefix ++ "PD.nii")%string, (prefix ++ "T1.nii")%string)
      | _ => None
      end
  end.

End Main.

End QDespot1.

(* ================================================================== *)
(** * Noiseless data and further inputs *)

Module Synth.

(** The magnitude of the SPGR signal of a tissue at each flip angle:
    noiseless data. *)
Definition magnitude (fl : list R) (tr PD T1 B1 : R) : list R :=
  map (fun a => Rabs (Spec.spgr tr PD T1 B1 a)) fl.

(** The sequence with every flip angle multiplied by [B1]. *)
Definition rescaled (sequence : SequenceBase) (B1 : R) : SequenceBase :=
  mkSequence (DESPOT1.scaled_flip sequence B1) (TR sequence)
             (size sequence) (signal sequence).

(** The conditions on one flip angle under which the linearisation is
    exact: the scaled angle has a positive sine and a cosine that is not
    zero. *)
Definition admissible (B1 a : R) : Prop :=
  0 < sin (a * B1) /\ cos (a * B1) <> 0.

(** The linearised noiseless data of one flip angle. *)
Definition yline (tr PD T1 B1 a : R) : R :=
  PD * (1 - exp (- tr / T1)) / (1 - exp (- tr / T1) * cos (a * B1)).

Definition xline (tr PD T1 B1 a : R) : R := yline tr PD T1 B1 a * cos (a * B1).

(** The sequence with other flip angles. *)
Definition with_flip (sequence : SequenceBase) (fl : list R) : SequenceBase :=
  mkSequence fl (TR sequence) (size sequence) (signal sequence).

(** The linearised datum of one condition, a datum with its flip angle,
    and the weight and the residual of the condition. *)
Definition hy (B1 : R) (p : R * R) : Dbl.t :=
  Dbl.div (Dbl.Finite (fst p)) (Dbl.sin (Dbl.Finite (snd p * B1))).
Definition hx (B1 : R) (p : R * R) : Dbl.t :=
  Dbl.div (Dbl.Finite (fst p)) (Dbl.tan (Dbl.Finite (snd p * B1))).
Definition hw (tr : R) (T1 : Dbl.t) (B1 : R) (p : R * R) : Dbl.t :=
  Dbl.square
    (Dbl.div (Dbl.sin (Dbl.Finite (snd p * B1)))
             (Dbl.sub (Dbl.Finite 1)
                      (Dbl.mul (Dbl.exp (Dbl.div (Dbl.neg (Dbl.Finite tr)) T1))
                               (Dbl.cos (Dbl.Finite (snd p * B1)))))).
Definition hr (tr : R) (PD T1 : Dbl.t) (B1 : R) (p : R * R) : Dbl.t :=
  Dbl.sub (Dbl.Finite (fst p))
          (Eigen.Cabs (nth 0 (QI.One_SPGR [snd p] tr PD T1 B1)
                           (Eigen.of_real (Dbl.Finite 0)))).

(** Noiseless data of the two-angle sequence for PD = 1 and T1 = 1 s. *)
Definition two_angles_data : list R :=
  magnitude (flip Examples.two_angles) (TR Examples.two_angles) 1 1 1.

End Synth.

(* ================================================================== *)
(** * Classes of options, and inputs for the two tools *)

Module Options.

(** The options of the signal tool that choose the tissue model. *)
Definition is_model_option (c : ascii) : bool :=
  Ascii.eqb c "1" || Ascii.eqb c "2" || Ascii.eqb c "3".

Definition model_of_option (c : ascii) : Model :=
  if Ascii.eqb c "2" then MCD2 else if Ascii.eqb c "3" then MCD3 else SCD.

(** The options of the estimation tool that configure the estimator. *)
Definition is_algo_option (c : ascii) : bool :=
  Ascii.eqb c "a" || Ascii.eqb c "i".

(** A sequence that a call of a sequence constructor returned. *)
Definition constructed (istream : Type)
           (construct : QSignal.SeqKind -> bool -> istream
                        -> completion (SequenceBase * istream))
           (g : QSignal.globals) (s : SequenceBase) : Prop :=
  exists (k : QSignal.SeqKind) (cin1 cin2 : istream),
    construct k (QSignal.prompt g) cin1 = Returns (s, cin2).

(** The strategy an argument of the option a stands for, by its first
    character. *)
Definition algo_letter (optarg : string) : option DESPOT1.AlgoType :=
  match optarg with
  | String "l" _ => Some DESPOT1.LLS
  | String "w" _ => Some DESPOT1.WLLS
  | String "n" _ => Some DESPOT1.NLLS
  | _ => None
  end.

(** The range of [int]. *)
Definition int_range (v : Z) : Prop := (- 2 ^ 31 <= v < 2 ^ 31)%Z.

(** Parameter images named by their files, five to a model, and an [atoi]
    and an [atof] for the examples. *)
Definition five (m : Model) : nat := 5.

Definition filter0 : SignalsFilter.t string :=
  SignalsFilter.mk None SCD (fun _ => None) 5 None.

Definition atoi_minus_one (s : string) : Z := (-1)%Z.

Definition atof_zero (s : string) : R := 0.

Definition keep_complex (z : Eigen.Cplx) : Eigen.Cplx := z.

End Options.

(* ================================================================== *)
(** * Facts about doubles *)

Module DblFacts.
Import Dbl.

Lemma div_finite x y : y <> 0 -> div (Finite x) (Finite y) = Finite (x / y).
Proof.
  intros Hy. unfold div. destruct (Req_dec_T y 0) as [E|_]; [contradiction|].
  reflexivity.
Qed.

Lemma div_by_zero a : div a (Finite 0) = Special.
Proof.
  destruct a as [x|]; [|reflexivity].
  unfold div. destruct (Req_dec_T 0 0) as [_|N]; [reflexivity|].
  exfalso; apply N; reflexivity.
Qed.

Lemma div_special_r a : div a Special = Special.
Proof. destruct a; reflexivity. Qed.

Lemma ln_finite x : 0 < x -> ln (Finite x) = Finite (Rpower.ln x).
Proof.
  intros Hx. unfold ln. destruct (Rlt_dec 0 x) as [_|N]; [reflexivity|].
  contradiction.
Qed.

Lemma tan_finite x :
  Rtrigo_def.cos x <> 0 -> tan (Finite x) = Finite (Rtrigo1.tan x).
Proof.
  intros Hc. unfold tan.
  destruct (Req_dec_T (Rtrigo_def.cos x) 0) as [E|_]; [contradiction|].
  reflexivity.
Qed.

Lemma sqrt_finite x : 0 <= x -> sqrt (Finite x) = Finite (R_sqrt.sqrt x).
Proof.
  intros Hx. unfold sqrt. destruct (Rlt_dec x 0) as [N|_]; [lra|reflexivity].
Qed.

Lemma add_comm a b : add a b = add b a.
Proof. destruct a, b; simpl; try reflexivity. f_equal; ring. Qed.

Lemma add_assoc a b c : add a (add b c) = add (add a b) c.
Proof. destruct a, b, c; simpl; try reflexivity. f_equal; ring. Qed.

Lemma mul_comm a b : mul a b = mul b a.
Proof. destruct a, b; simpl; try reflexivity. f_equal; ring. Qed.

Lemma add_special_r a : add a Special = Special.
Proof. destruct a; reflexivity. Qed.

Lemma mul_special_r a : mul a Special = Special.
Proof. destruct a; reflexivity. Qed.

Lemma sub_special_r a : sub a Special = Special.
Proof. destruct a; reflexivity. Qed.

Lemma map_Finite_nth xs i d :
  (i < length xs)%nat -> nth i (of_reals xs) Special = Finite (nth i xs d).
Proof.
  intros Hi. unfold of_reals.
  rewrite (nth_indep _ Special (Finite d)) by (rewrite length_map; exact Hi).
  apply map_nth.
Qed.

Lemma of_reals_length xs : length (of_reals xs) = length xs.
Proof. apply length_map. Qed.

Lemma of_reals_inj xs ys : of_reals xs = of_reals ys -> xs = ys.
Proof.
  revert ys; induction xs as [|x xs IH]; intros [|y ys] H; simpl in H;
    try discriminate; auto.
  injection H as Hx Hr. f_equal; auto.
Qed.

End DblFacts.

(* ================================================================== *)
(** * Facts about real vectors *)

Module SpecFacts.
Import Spec.

Lemma map2_length f xs ys :
  length (map2 f xs ys) = Nat.min (length xs) (length ys).
Proof.
  revert ys; induction xs as [|x xs IH]; intros [|y ys]; simpl; auto.
Qed.

Lemma map2_nth f xs ys i dx dy dz :
  (i < length xs)%nat -> (i < length ys)%nat ->
  nth i (map2 f xs ys) dz = f (nth i xs dx) (nth i ys dy).
Proof.
  revert ys i; induction xs as [|x xs IH]; intros [|y ys] [|i]; simpl;
    intros Hx Hy; try lia; auto.
  apply IH; lia.
Qed.

Lemma map2_combine f xs ys :
  map2 f xs ys = map (fun p => f (fst p) (snd p)) (combine xs ys).
Proof.
  revert ys; induction xs as [|x xs IH]; intros [|y ys]; simpl; auto.
  f_equal. apply IH.
Qed.

Lemma map2_Rmult_comm xs ys : map2 Rmult xs ys = map2 Rmult ys xs.
Proof.
  revert ys; induction xs as [|x xs IH]; intros [|y ys]; simpl; auto.
  rewrite IH. f_equal. ring.
Qed.

Lemma map2_ones_l ws : map2 Rmult (repeat 1 (length ws)) ws = ws.
Proof.
  induction ws as [|w ws IH]; simpl; auto.
  rewrite IH. f_equal. ring.
Qed.

Lemma S2_comm xs ys : S2 xs ys = S2 ys xs.
Proof. unfold S2. rewrite map2_Rmult_comm. reflexivity. Qed.

Lemma S2_ones_r xs n : length xs = n -> S2 xs (repeat 1 n) = S1 xs.
Proof.
  unfold S2, S1, sum; revert n; induction xs as [|x xs IH]; intros n Hn;
    subst n; simpl; auto.
  rewrite IH by reflexivity. ring.
Qed.

Lemma S2_ones_ones n : S2 (repeat 1 n) (repeat 1 n) = INR n.
Proof.
  unfold S2, sum; induction n as [|n IH].
  - reflexivity.
  - rewrite S_INR. simpl repeat. simpl. rewrite IH. ring.
Qed.

(** A regular 2-by-2 system has one solution only. *)
Lemma regular_solution_unique a b c d x0 x1 y0 y1 :
  a * d - b * c <> 0 ->
  a * x0 + b * x1 = a * y0 + b * y1 ->
  c * x0 + d * x1 = c * y0 + d * y1 ->
  x0 = y0 /\ x1 = y1.
Proof.
  intros Hdet H0 H1.
  assert (E0 : (a * d - b * c) * (x0 - y0) = 0).
  { replace ((a * d - b * c) * (x0 - y0))
      with (d * ((a * x0 + b * x1) - (a * y0 + b * y1))
            - b * ((c * x0 + d * x1) - (c * y0 + d * y1))) by ring.
    rewrite H0, H1; ring. }
  assert (E1 : (a * d - b * c) * (x1 - y1) = 0).
  { replace ((a * d - b * c) * (x1 - y1))
      with (a * ((c * x0 + d * x1) - (c * y0 + d * y1))
            - c * ((a * x0 + b * x1) - (a * y0 + b * y1))) by ring.
    rewrite H0, H1; ring. }
  apply Rmult_integral in E0, E1.
  split; [destruct E0 | destruct E1]; lra.
Qed.

Lemma Y_length data fl B1 :
  length (Y data fl B1) = Nat.min (length data) (length fl).
Proof. unfold Y. rewrite map2_length, length_map. reflexivity. Qed.

Lemma X_length data fl B1 :
  length (X data fl B1) = Nat.min (length data) (length fl).
Proof. unfold X. rewrite map2_length, length_map. reflexivity. Qed.

(** The tangent of a divisible angle is not zero. *)
Lemma divisible_tan B1 a : divisible B1 a -> tan (a * B1) <> 0.
Proof.
  intros [Hs Hc]. unfold tan. intros E.
  apply Rmult_integral in E. destruct E as [E|E]; [contradiction|].
  apply (Rinv_neq_0_compat _ Hc). exact E.
Qed.

End SpecFacts.

(* ================================================================== *)
(** * Facts about the Eigen model *)

Module EigenFacts.
Import Eigen.

Lemma cwise_same_size {A B C} (f : A -> B -> C) xs ys :
  length xs = length ys ->
  cwise f xs ys = Returns (map (fun p => f (fst p) (snd p)) (combine xs ys)).
Proof.
  intros H. unfold cwise. rewrite H, Nat.eqb_refl. reflexivity.
Qed.

Lemma cwise_other_size {A B C} (f : A -> B -> C) xs ys :
  length xs <> length ys ->
  cwise f xs ys
  = Aborts "aLhs.rows() == aRhs.rows() && aLhs.cols() == aRhs.cols()".
Proof.
  intros H. unfold cwise.
  destruct (Nat.eqb_spec (length xs) (length ys)); [contradiction|reflexivity].
Qed.

Lemma cwise_Returns {A B C} (f : A -> B -> C) xs ys zs :
  cwise f xs ys = Returns zs ->
  length xs = length ys /\
  zs = map (fun p => f (fst p) (snd p)) (combine xs ys).
Proof.
  unfold cwise. destruct (Nat.eqb_spec (length xs) (length ys)) as [E|N].
  - intros H; injection H as H. split; auto.
  - discriminate.
Qed.

Lemma cwise_never_throws {A B C} (f : A -> B -> C) xs ys what :
  cwise f xs ys <> Throws what.
Proof.
  unfold cwise. destruct (Nat.eqb (length xs) (length ys)); discriminate.
Qed.

Lemma zip_length {A B C} (f : A -> B -> C) xs ys :
  length xs = length ys ->
  length (map (fun p => f (fst p) (snd p)) (combine xs ys)) = length xs.
Proof. intros H. rewrite length_map, length_combine. lia. Qed.

Lemma zip_nth {A B C} (f : A -> B -> C) xs ys i dx dy dz :
  (i < length xs)%nat -> (i < length ys)%nat ->
  nth i (map (fun p => f (fst p) (snd p)) (combine xs ys)) dz
  = f (nth i xs dx) (nth i ys dy).
Proof.
  revert ys i; induction xs as [|x xs IH]; intros [|y ys] [|i]; simpl;
    intros Hx Hy; try lia; auto.
  apply IH; lia.
Qed.

Lemma zip_of_reals (f : R -> R -> R) xs ys :
  map (fun p => Dbl.lift2 f (fst p) (snd p))
      (combine (Dbl.of_reals xs) (Dbl.of_reals ys))
  = Dbl.of_reals (Spec.map2 f xs ys).
Proof.
  revert ys; induction xs as [|x xs IH]; intros [|y ys]; simpl; auto.
  f_equal. apply IH.
Qed.

Lemma sum_of_reals xs : sum (Dbl.of_reals xs) = Dbl.Finite (Spec.sum xs).
Proof.
  unfold sum, Spec.sum; induction xs as [|x xs IH]; simpl; auto.
  rewrite IH. reflexivity.
Qed.

Lemma dot_of_reals a b :
  dot (Dbl.of_reals a) (Dbl.of_reals b) = Dbl.Finite (Spec.S2 a b).
Proof.
  unfold dot, Spec.S2.
  change (fun p : Dbl.t * Dbl.t => Dbl.mul (fst p) (snd p))
    with (fun p : Dbl.t * Dbl.t => Dbl.lift2 Rmult (fst p) (snd p)).
  rewrite zip_of_reals. apply sum_of_reals.
Qed.

Lemma wdot_of_reals a w b :
  wdot (Dbl.of_reals a) (Dbl.of_reals w) (Dbl.of_reals b)
  = Dbl.Finite (Spec.S3 a w b).
Proof.
  unfold wdot, Spec.S3.
  change (fun p : Dbl.t * Dbl.t => Dbl.mul (fst p) (snd p))
    with (fun p : Dbl.t * Dbl.t => Dbl.lift2 Rmult (fst p) (snd p)).
  rewrite zip_of_reals.
  pose proof (dot_of_reals (Spec.map2 Rmult a w) b) as H.
  unfold Spec.S2 in H. exact H.
Qed.

Lemma Ones_of_reals n : Ones n = Dbl.of_reals (repeat 1 n).
Proof.
  unfold Ones, Dbl.of_reals. induction n as [|n IH]; simpl; auto.
  f_equal. exact IH.
Qed.

(** A special value among the terms makes the sum special. *)
Lemma sum_special xs : In Dbl.Special xs -> sum xs = Dbl.Special.
Proof.
  unfold sum; induction xs as [|x xs IH]; simpl; intros H; [contradiction|].
  destruct H as [H|H].
  - subst x. reflexivity.
  - rewrite (IH H). apply DblFacts.add_special_r.
Qed.

Lemma dot_special a b i :
  (i < length a)%nat -> (i < length b)%nat ->
  nth i a Dbl.Special = Dbl.Special ->
  dot a b = Dbl.Special.
Proof.
  intros Ha Hb Hi. unfold dot. apply sum_special.
  assert (E : nth i (map (fun p => Dbl.mul (fst p) (snd p)) (combine a b))
                  Dbl.Special = Dbl.Special).
  { rewrite (zip_nth Dbl.mul a b Dbl.Special Dbl.Special Dbl.Special Ha Hb).
    rewrite Hi. reflexivity. }
  rewrite <- E at 1.
  apply nth_In. rewrite length_map, length_combine. lia.
Qed.

Lemma Cabs_of_real_Finite x :
  Cabs (of_real (Dbl.Finite x)) = Dbl.Finite (Rabs x).
Proof.
  unfold Cabs, of_real. cbn [fst snd Dbl.mul Dbl.add Dbl.lift2].
  replace (x * x + 0 * 0) with (Rsqr x) by (unfold Rsqr; ring).
  rewrite DblFacts.sqrt_finite by apply Rle_0_sqr.
  rewrite sqrt_Rsqr_abs. reflexivity.
Qed.

Lemma Cabs_of_real_Special : Cabs (of_real Dbl.Special) = Dbl.Special.
Proof. reflexivity. Qed.

(** A modulus the model describes is not negative. *)
Lemma Cabs_nonneg z r : Cabs z = Dbl.Finite r -> 0 <= r.
Proof.
  unfold Cabs. destruct z as [[x|] [y|]]; simpl; try discriminate.
  destruct (Rlt_dec (x * x + y * y) 0); [discriminate|].
  intros H; injection H as H. subst r. apply sqrt_pos.
Qed.

(** The pivot chosen in column 0 is not zero when the matrix is regular. *)
Lemma Rabs_lt_nonzero a c : Rabs a < Rabs c -> c <> 0.
Proof.
  intros H Hc; subst c. rewrite Rabs_R0 in H.
  pose proof (Rabs_pos a); lra.
Qed.

Lemma Rabs_ge_nonzero a b c d :
  ~ Rabs a < Rabs c -> a * d - b * c <> 0 -> a <> 0.
Proof.
  intros H Hdet Ha; subst a. rewrite Rabs_R0 in H.
  assert (c = 0).
  { destruct (Req_dec c 0) as [|Hc]; auto.
    exfalso; apply H. apply Rabs_pos_lt; auto. }
  subst c. apply Hdet. ring.
Qed.

(** On a regular system of real numbers the solver returns real numbers,
    and they solve the system. *)
Lemma partialPivLu_solve_regular a b c d u v :
  a * d - b * c <> 0 ->
  exists x0 x1 : R,
    partialPivLu_solve
      (mkM2 (Dbl.Finite a) (Dbl.Finite b) (Dbl.Finite c) (Dbl.Finite d))
      (mkV2 (Dbl.Finite u) (Dbl.Finite v))
    = mkV2 (Dbl.Finite x0) (Dbl.Finite x1) /\
    a * x0 + b * x1 = u /\
    c * x0 + d * x1 = v.
Proof.
  intros Hdet. unfold partialPivLu_solve. cbn [m00 m01 m10 m11 v0 v1].
  destruct (Rlt_dec (Rabs a) (Rabs c)) as [Hlt|Hge].
  - pose proof (@Rabs_lt_nonzero a c Hlt) as Hc.
    destruct (Req_dec_T (Rabs c) 0) as [E|_].
    { exfalso. pose proof (Rabs_pos_lt c Hc). lra. }
    assert (Hd : b - a / c * d <> 0).
    { intros E. apply Hdet.
      replace (a * d - b * c) with (- c * (b - a / c * d)) by (field; auto).
      rewrite E; ring. }
    rewrite (DblFacts.div_finite a Hc). cbn [Dbl.mul Dbl.sub Dbl.lift2].
    rewrite (DblFacts.div_finite _ Hd). cbn [Dbl.mul Dbl.sub Dbl.lift2].
    rewrite (DblFacts.div_finite _ Hc).
    eexists; eexists. split; [reflexivity|].
    assert (Hn : b * c - a * d <> 0) by lra.
    split; field; split; auto.
  - pose proof (@Rabs_ge_nonzero a b c d Hge Hdet) as Ha.
    destruct (Req_dec_T (Rabs a) 0) as [E|_].
    { exfalso. pose proof (Rabs_pos_lt a Ha). lra. }
    assert (Hd : d - c / a * b <> 0).
    { intros E. apply Hdet.
      replace (a * d - b * c) with (a * (d - c / a * b)) by (field; auto).
      rewrite E; ring. }
    rewrite (DblFacts.div_finite c Ha). cbn [Dbl.mul Dbl.sub Dbl.lift2].
    rewrite (DblFacts.div_finite _ Hd). cbn [Dbl.mul Dbl.sub Dbl.lift2].
    rewrite (DblFacts.div_finite _ Ha).
    eexists; eexists. split; [reflexivity|].
    assert (Hn : d * a - c * b <> 0) by lra.
    split; field; split; auto.
Qed.

(** What the solver returns on a regular system is its solution. *)
Lemma partialPivLu_solve_unique a b c d u v x0 x1 :
  a * d - b * c <> 0 ->
  a * x0 + b * x1 = u ->
  c * x0 + d * x1 = v ->
  partialPivLu_solve
    (mkM2 (Dbl.Finite a) (Dbl.Finite b) (Dbl.Finite c) (Dbl.Finite d))
    (mkV2 (Dbl.Finite u) (Dbl.Finite v))
  = mkV2 (Dbl.Finite x0) (Dbl.Finite x1).
Proof.
  intros Hdet H0 H1.
  destruct (@partialPivLu_solve_regular a b c d u v Hdet)
    as (y0 & y1 & Hs & E0 & E1).
  rewrite Hs.
  destruct (@SpecFacts.regular_solution_unique a b c d y0 y1 x0 x1 Hdet)
    as [Ex Ey]; [lra|lra|].
  subst. reflexivity.
Qed.

(** A special value at the top of column 0 makes the result special. *)
Lemma partialPivLu_solve_special M rhs :
  m00 M = Dbl.Special ->
  partialPivLu_solve M rhs = mkV2 Dbl.Special Dbl.Special.
Proof.
  intros H. unfold partialPivLu_solve. rewrite H. reflexivity.
Qed.

(** Sums do not depend on the order of their terms. *)
Lemma sum_Permutation xs ys : Permutation xs ys -> sum xs = sum ys.
Proof.
  unfold sum. induction 1; simpl.
  - reflexivity.
  - rewrite IHPermutation. reflexivity.
  - rewrite !DblFacts.add_assoc, (DblFacts.add_comm y x). reflexivity.
  - congruence.
Qed.

End EigenFacts.

(* ================================================================== *)
(** * The linearisation and the linear solves *)

Module LinearFacts.
Import Eigen EigenFacts.

Lemma Y_divisors_length fl : length (DESPOT1.Y_divisors fl) = length fl.
Proof. apply length_map. Qed.

Lemma X_divisors_length fl : length (DESPOT1.X_divisors fl) = length fl.
Proof. apply length_map. Qed.

Lemma scaled_flip_length sequence B1 :
  length (DESPOT1.scaled_flip sequence B1) = length (flip sequence).
Proof. apply length_map. Qed.

(** With one datum per flip angle the linearisation passes Eigen's size
    checks. *)
Lemma linearise_same_size data fl :
  length data = length fl ->
  DESPOT1.linearise data fl
  = Returns
      (DESPOT1.mkLinear
         (map (fun p => Dbl.div (fst p) (snd p))
              (combine (Dbl.of_reals data) (DESPOT1.Y_divisors fl)))
         (map (fun p => Dbl.div (fst p) (snd p))
              (combine (Dbl.of_reals data) (DESPOT1.X_divisors fl)))
         (Ones (length data))).
Proof.
  intros H. unfold DESPOT1.linearise, DESPOT1.linear_Y, DESPOT1.linear_X0.
  rewrite !cwise_same_size
    by (rewrite DblFacts.of_reals_length, ?Y_divisors_length, ?X_divisors_length;
        exact H).
  cbn [bind]. unfold DESPOT1.linear_X1.
  rewrite zip_length
    by (rewrite DblFacts.of_reals_length, Y_divisors_length; exact H).
  rewrite DblFacts.of_reals_length. reflexivity.
Qed.

(** Otherwise the first quotient fails its size check. *)
Lemma linearise_other_size data fl :
  length data <> length fl ->
  DESPOT1.linearise data fl
  = Aborts "aLhs.rows() == aRhs.rows() && aLhs.cols() == aRhs.cols()".
Proof.
  intros H. unfold DESPOT1.linearise, DESPOT1.linear_Y.
  rewrite cwise_other_size
    by (rewrite DblFacts.of_reals_length, Y_divisors_length; exact H).
  reflexivity.
Qed.

Lemma linearise_Returns data fl lin :
  DESPOT1.linearise data fl = Returns lin -> length data = length fl.
Proof.
  intros H. destruct (Nat.eq_dec (length data) (length fl)) as [E|N]; auto.
  rewrite (linearise_other_size _ _ N) in H. discriminate.
Qed.

Lemma linearise_never_throws data fl what :
  DESPOT1.linearise data fl <> Throws what.
Proof.
  destruct (Nat.eq_dec (length data) (length fl)) as [E|N].
  - rewrite (linearise_same_size _ _ E). discriminate.
  - rewrite (linearise_other_size _ _ N). discriminate.
Qed.

(** Quotients by real numbers that are not zero. *)
Lemma quotients_of_reals data divs :
  Forall (fun y => y <> 0) divs ->
  map (fun p => Dbl.div (fst p) (snd p))
      (combine (Dbl.of_reals data) (Dbl.of_reals divs))
  = Dbl.of_reals (Spec.map2 Rdiv data divs).
Proof.
  intros H. unfold Dbl.of_reals.
  revert data; induction H as [|y divs Hy H IH]; intros [|x data];
    cbn [map combine Spec.map2 fst snd]; auto.
  rewrite (DblFacts.div_finite x Hy). f_equal. apply IH.
Qed.

Lemma Y_divisors_of_reals sequence B1 :
  DESPOT1.Y_divisors (DESPOT1.scaled_flip sequence B1)
  = Dbl.of_reals (map (fun a => sin (a * B1)) (flip sequence)).
Proof.
  unfold DESPOT1.Y_divisors, DESPOT1.scaled_flip, Dbl.of_reals.
  rewrite !map_map. reflexivity.
Qed.

Lemma X_divisors_of_reals sequence B1 :
  Forall (Spec.divisible B1) (flip sequence) ->
  DESPOT1.X_divisors (DESPOT1.scaled_flip sequence B1)
  = Dbl.of_reals (map (fun a => tan (a * B1)) (flip sequence)).
Proof.
  intros H. unfold DESPOT1.X_divisors, DESPOT1.scaled_flip, Dbl.of_reals.
  rewrite !map_map. apply map_ext_in. intros a Ha.
  rewrite Forall_forall in H. destruct (H a Ha) as [_ Hc].
  apply DblFacts.tan_finite. exact Hc.
Qed.

(** Where no divisor is zero the linearised data are those of the
    specification. *)
Lemma linearise_divisible sequence data B1 :
  length data = length (flip sequence) ->
  Forall (Spec.divisible B1) (flip sequence) ->
  DESPOT1.linearise data (DESPOT1.scaled_flip sequence B1)
  = Returns
      (DESPOT1.mkLinear (Dbl.of_reals (Spec.Y data (flip sequence) B1))
                        (Dbl.of_reals (Spec.X data (flip sequence) B1))
                        (Ones (length data))).
Proof.
  intros Hlen Hdiv.
  rewrite linearise_same_size by (rewrite scaled_flip_length; exact Hlen).
  rewrite Y_divisors_of_reals, (X_divisors_of_reals sequence Hdiv).
  rewrite !quotients_of_reals.
  - reflexivity.
  - rewrite Forall_forall in *. intros y Hy.
    apply in_map_iff in Hy. destruct Hy as (a & <- & Ha).
    apply SpecFacts.divisible_tan. apply Hdiv. exact Ha.
  - rewrite Forall_forall in *. intros y Hy.
    apply in_map_iff in Hy. destruct Hy as (a & <- & Ha).
    apply Hdiv. exact Ha.
Qed.

(** The matrix and right-hand side the closed form hands to the solver. *)
Lemma XtX_of_reals x n :
  length x = n ->
  DESPOT1.XtX (Dbl.of_reals x) (Ones n)
  = mkM2 (Dbl.Finite (Spec.S2 x x)) (Dbl.Finite (Spec.S1 x))
         (Dbl.Finite (Spec.S1 x)) (Dbl.Finite (INR n)).
Proof.
  intros Hlen. unfold DESPOT1.XtX. rewrite Ones_of_reals, !dot_of_reals.
  rewrite (SpecFacts.S2_comm (repeat 1 n) x), (SpecFacts.S2_ones_r x Hlen),
    SpecFacts.S2_ones_ones.
  reflexivity.
Qed.

Lemma XtY_of_reals x y n :
  length y = n ->
  DESPOT1.XtY (Dbl.of_reals x) (Ones n) (Dbl.of_reals y)
  = mkV2 (Dbl.Finite (Spec.S2 x y)) (Dbl.Finite (Spec.S1 y)).
Proof.
  intros Hlen. unfold DESPOT1.XtY. rewrite Ones_of_reals, !dot_of_reals.
  rewrite (SpecFacts.S2_comm (repeat 1 n) y), (SpecFacts.S2_ones_r y Hlen).
  reflexivity.
Qed.

Lemma S3_ones_r a w n :
  length a = n -> length w = n -> Spec.S3 a w (repeat 1 n) = Spec.S2 w a.
Proof.
  intros Ha Hw. unfold Spec.S3.
  change (Spec.sum (Spec.map2 Rmult (Spec.map2 Rmult a w) (repeat 1 n)))
    with (Spec.S2 (Spec.map2 Rmult a w) (repeat 1 n)).
  rewrite SpecFacts.S2_ones_r by (rewrite SpecFacts.map2_length; lia).
  unfold Spec.S1, Spec.S2. rewrite SpecFacts.map2_Rmult_comm. reflexivity.
Qed.

Lemma S3_ones_l w b n :
  length w = n -> Spec.S3 (repeat 1 n) w b = Spec.S2 w b.
Proof.
  intros Hw. unfold Spec.S3, Spec.S2. subst n.
  rewrite SpecFacts.map2_ones_l. reflexivity.
Qed.

Lemma S3_swap a w b : Spec.S3 a w b = Spec.S3 w a b.
Proof. unfold Spec.S3. rewrite (SpecFacts.map2_Rmult_comm a w). reflexivity. Qed.

(** The same for one reweighted pass. *)
Lemma XtWX_of_reals w x n :
  length x = n -> length w = n ->
  DESPOT1.XtWX (Dbl.of_reals x) (Ones n) (Dbl.of_reals w)
  = mkM2 (Dbl.Finite (Spec.S3 w x x)) (Dbl.Finite (Spec.S2 w x))
         (Dbl.Finite (Spec.S2 w x)) (Dbl.Finite (Spec.S1 w)).
Proof.
  intros Hx Hw. unfold DESPOT1.XtWX. rewrite Ones_of_reals, !wdot_of_reals.
  rewrite (S3_swap x w x), (S3_ones_r x w Hx Hw), (S3_ones_l w x Hw).
  rewrite (S3_ones_l w (repeat 1 n) Hw), (SpecFacts.S2_ones_r w Hw).
  reflexivity.
Qed.

Lemma XtWY_of_reals w x y n :
  length w = n ->
  DESPOT1.XtWY (Dbl.of_reals x) (Ones n) (Dbl.of_reals w) (Dbl.of_reals y)
  = mkV2 (Dbl.Finite (Spec.S3 w x y)) (Dbl.Finite (Spec.S2 w y)).
Proof.
  intros Hw. unfold DESPOT1.XtWY. rewrite Ones_of_reals, !wdot_of_reals.
  rewrite (S3_swap x w y), (S3_ones_l w y Hw). reflexivity.
Qed.

Lemma derive_of_reals sequence b0 b1 :
  DESPOT1.derive sequence (mkV2 (Dbl.Finite b0) (Dbl.Finite b1))
  = Spec.recover (TR sequence) b0 b1.
Proof. reflexivity. Qed.

(** [PD] and [T1] are real numbers when the slope is positive and not 1. *)
Lemma recover_finite tr b0 b1 :
  0 < b0 -> b0 <> 1 ->
  Spec.recover tr b0 b1
  = [Dbl.Finite (b1 / (1 - b0)); Dbl.Finite (- tr / ln b0)].
Proof.
  intros Hpos Hne. unfold Spec.recover.
  rewrite DblFacts.div_finite by lra.
  rewrite (DblFacts.ln_finite Hpos).
  rewrite DblFacts.div_finite; [reflexivity|].
  intros E. apply Hne. apply ln_inv; [exact Hpos|lra|].
  rewrite ln_1. exact E.
Qed.

(** On regular normal equations the closed form is [recover] of their
    solution. *)
Lemma lls_solution sequence x y b0 b1 :
  length x = length y ->
  Spec.regular x y ->
  Spec.normal_equations x y b0 b1 ->
  DESPOT1.lls sequence
              (DESPOT1.mkLinear (Dbl.of_reals y) (Dbl.of_reals x)
                                (Ones (length y)))
  = Spec.recover (TR sequence) b0 b1.
Proof.
  intros Hlen Hreg [E0 E1]. unfold DESPOT1.lls.
  cbn [DESPOT1.X0 DESPOT1.X1 DESPOT1.Y].
  rewrite (XtX_of_reals x Hlen), (XtY_of_reals x y eq_refl).
  rewrite (@partialPivLu_solve_unique _ _ _ _ _ _ b0 b1 Hreg E0 E1).
  apply derive_of_reals.
Qed.

Lemma lls_regular sequence x y :
  length x = length y ->
  Spec.regular x y ->
  exists b0 b1 : R,
    Spec.normal_equations x y b0 b1 /\
    DESPOT1.lls sequence
                (DESPOT1.mkLinear (Dbl.of_reals y) (Dbl.of_reals x)
                                  (Ones (length y)))
    = Spec.recover (TR sequence) b0 b1.
Proof.
  intros Hlen Hreg.
  destruct (@partialPivLu_solve_regular
              (Spec.S2 x x) (Spec.S1 x) (Spec.S1 x) (INR (length y))
              (Spec.S2 x y) (Spec.S1 y) Hreg) as (b0 & b1 & _ & E0 & E1).
  exists b0, b1. split; [split; assumption|].
  apply lls_solution; [assumption|assumption|split; assumption].
Qed.

(** The weights at a current T1 at which they are defined. *)
Lemma weights_of_reals sequence B1 T1 :
  Spec.weighable (flip sequence) (TR sequence) T1 B1 ->
  DESPOT1.weights sequence (DESPOT1.scaled_flip sequence B1) (Dbl.Finite T1)
  = Dbl.of_reals (Spec.W (flip sequence) (TR sequence) T1 B1).
Proof.
  intros [HT1 Hden]. unfold DESPOT1.weights, DESPOT1.scaled_flip, Spec.W.
  cbn [Dbl.neg Dbl.lift1]. rewrite (DblFacts.div_finite _ HT1).
  cbn [Dbl.exp Dbl.lift1]. unfold Dbl.of_reals. rewrite !map_map.
  apply map_ext_in. intros a Ha.
  rewrite Forall_forall in Hden. specialize (Hden a Ha).
  cbn [Dbl.sin Dbl.cos Dbl.lift1 Dbl.mul Dbl.sub Dbl.lift2].
  rewrite (DblFacts.div_finite _ Hden).
  reflexivity.
Qed.

Lemma W_length fl tr T1 B1 : length (Spec.W fl tr T1 B1) = length fl.
Proof. apply length_map. Qed.

(** One reweighted pass on regular weighted equations. *)
Lemma wlls_pass_solution sequence B1 x y PD T1 b0 b1 :
  length x = length y ->
  length (flip sequence) = length y ->
  Spec.weighable (flip sequence) (TR sequence) T1 B1 ->
  Spec.weighted_regular (Spec.W (flip sequence) (TR sequence) T1 B1) x ->
  Spec.weighted_normal_equations
    (Spec.W (flip sequence) (TR sequence) T1 B1) x y b0 b1 ->
  DESPOT1.wlls_pass sequence (DESPOT1.scaled_flip sequence B1)
                    (DESPOT1.mkLinear (Dbl.of_reals y) (Dbl.of_reals x)
                                      (Ones (length y)))
                    [PD; Dbl.Finite T1]
  = Spec.recover (TR sequence) b0 b1.
Proof.
  intros Hx Hfl Hw Hreg [E0 E1]. unfold DESPOT1.wlls_pass.
  cbn [nth DESPOT1.X0 DESPOT1.X1 DESPOT1.Y].
  rewrite (weights_of_reals sequence Hw).
  assert (HW : length (Spec.W (flip sequence) (TR sequence) T1 B1) = length y)
    by (rewrite W_length; exact Hfl).
  rewrite (XtWX_of_reals _ x Hx HW), (XtWY_of_reals _ x y HW).
  rewrite (@partialPivLu_solve_unique _ _ _ _ _ _ b0 b1 Hreg E0 E1).
  apply derive_of_reals.
Qed.



(** The closed form and every pass leave two outputs. *)
Lemma lls_two sequence lin :
  exists PD T1 : Dbl.t, DESPOT1.lls sequence lin = [PD; T1].
Proof. unfold DESPOT1.lls, DESPOT1.derive. eexists; eexists; reflexivity. Qed.

Lemma wlls_loop_two todo sequence fl lin outputs :
  (exists PD T1 : Dbl.t, outputs = [PD; T1]) ->
  exists PD T1 : Dbl.t,
    DESPOT1.wlls_loop todo sequence fl lin outputs = [PD; T1].
Proof.
  revert outputs; induction todo as [|k IH]; intros outputs H.
  - exact H.
  - simpl. apply IH. unfold DESPOT1.wlls_pass, DESPOT1.derive.
    eexists; eexists; reflexivity.
Qed.

End LinearFacts.

(* ================================================================== *)
(** * The residual vector *)

Module ResidualFacts.
Import Eigen EigenFacts.

Lemma One_SPGR_length fl tr PD T1 B1 :
  length (QI.One_SPGR fl tr PD T1 B1) = length fl.
Proof. unfold QI.One_SPGR. apply length_map. Qed.

(** With one datum per flip angle the subtraction passes its size check. *)
Lemma residuals_same_size sequence data B1 PD T1 rest :
  length data = length (flip sequence) ->
  DESPOT1.residuals sequence data B1 (PD :: T1 :: rest)
  = Returns
      (map (fun p => Dbl.sub (fst p) (snd p))
           (combine (Dbl.of_reals data)
                    (map Cabs (QI.One_SPGR (flip sequence) (TR sequence)
                                           PD T1 B1)))).
Proof.
  intros H. unfold DESPOT1.residuals. apply cwise_same_size.
  rewrite DblFacts.of_reals_length, length_map, One_SPGR_length. exact H.
Qed.

Lemma residuals_never_throw sequence data B1 outputs what :
  DESPOT1.residuals sequence data B1 outputs <> Throws what.
Proof.
  unfold DESPOT1.residuals. destruct outputs as [|PD [|T1 rest]];
    try discriminate.
  apply cwise_never_throws.
Qed.

(** Entry [i] of the residual vector is the datum minus the magnitude of
    the SPGR signal at the outputs. *)
Lemma residuals_nth sequence data B1 outputs resids i :
  DESPOT1.residuals sequence data B1 outputs = Returns resids ->
  (i < length data)%nat ->
  length resids = length data /\
  nth i resids Dbl.Special =
  Dbl.sub (Dbl.Finite (nth i data 0))
          (Cabs (nth i (QI.One_SPGR (flip sequence) (TR sequence)
                                    (nth 0 outputs Dbl.Special)
                                    (nth 1 outputs Dbl.Special) B1)
                     (of_real (Dbl.Finite 0)))).
Proof.
  unfold DESPOT1.residuals. destruct outputs as [|PD [|T1 rest]];
    try discriminate.
  intros H Hi. apply cwise_Returns in H. destruct H as [Hlen ->].
  rewrite DblFacts.of_reals_length, length_map, One_SPGR_length in Hlen.
  split.
  - rewrite zip_length; [apply DblFacts.of_reals_length|].
    rewrite DblFacts.of_reals_length, length_map, One_SPGR_length. exact Hlen.
  - cbn [nth].
    rewrite (zip_nth Dbl.sub _ _ Dbl.Special
                     (Cabs (of_real (Dbl.Finite 0))) Dbl.Special).
    + rewrite (DblFacts.map_Finite_nth data 0 Hi). f_equal. apply map_nth.
    + rewrite DblFacts.of_reals_length. exact Hi.
    + rewrite length_map, One_SPGR_length. lia.
Qed.

(** The SPGR signal at real parameters at which its divisions are
    defined. *)
Lemma One_SPGR_of_reals fl tr PD T1 B1 :
  T1 <> 0 ->
  Forall (fun a => 1 - exp (- tr / T1) * cos (a * B1) <> 0) fl ->
  map Cabs (QI.One_SPGR fl tr (Dbl.Finite PD) (Dbl.Finite T1) B1)
  = Dbl.of_reals (Synth.magnitude fl tr PD T1 B1).
Proof.
  intros HT1 Hden. unfold QI.One_SPGR, Synth.magnitude, Dbl.of_reals.
  rewrite (DblFacts.div_finite _ HT1). cbn [Dbl.exp Dbl.lift1].
  rewrite !map_map. apply map_ext_in. intros a Ha.
  rewrite Forall_forall in Hden. specialize (Hden a Ha).
  cbn [Dbl.mul Dbl.sub Dbl.lift2].
  rewrite (DblFacts.div_finite _ Hden).
  apply Cabs_of_real_Finite.
Qed.

Lemma Cabs_One_SPGR_nth fl tr PD T1 B1 i :
  T1 <> 0 ->
  Forall (fun a => 1 - exp (- tr / T1) * cos (a * B1) <> 0) fl ->
  (i < length fl)%nat ->
  Cabs (nth i (QI.One_SPGR fl tr (Dbl.Finite PD) (Dbl.Finite T1) B1)
            (of_real (Dbl.Finite 0)))
  = Dbl.Finite (nth i (Synth.magnitude fl tr PD T1 B1) 0).
Proof.
  intros HT1 Hden Hi.
  rewrite <- (map_nth Cabs).
  rewrite (@One_SPGR_of_reals fl tr PD T1 B1 HT1 Hden).
  rewrite (nth_indep _ _ Dbl.Special).
  - apply DblFacts.map_Finite_nth.
    unfold Synth.magnitude. rewrite length_map. exact Hi.
  - rewrite DblFacts.of_reals_length. unfold Synth.magnitude.
    rewrite length_map. exact Hi.
Qed.

Lemma magnitude_length fl tr PD T1 B1 :
  length (Synth.magnitude fl tr PD T1 B1) = length fl.
Proof. apply length_map. Qed.

Lemma residuals_of_reals sequence data B1 PD T1 :
  length data = length (flip sequence) ->
  T1 <> 0 ->
  Forall (fun a => 1 - exp (- TR sequence / T1) * cos (a * B1) <> 0)
         (flip sequence) ->
  DESPOT1.residuals sequence data B1 [Dbl.Finite PD; Dbl.Finite T1]
  = Returns
      (Dbl.of_reals
         (Spec.map2 Rminus data
                    (Synth.magnitude (flip sequence) (TR sequence) PD T1 B1))).
Proof.
  intros Hlen HT1 Hden.
  rewrite residuals_same_size by exact Hlen.
  rewrite (@One_SPGR_of_reals (flip sequence) (TR sequence) PD T1 B1 HT1 Hden).
  change (fun p : Dbl.t * Dbl.t => Dbl.sub (fst p) (snd p))
    with (fun p : Dbl.t * Dbl.t => Dbl.lift2 Rminus (fst p) (snd p)).
  rewrite zip_of_reals. reflexivity.
Qed.

End ResidualFacts.

(* ================================================================== *)
(** * How apply completes *)

Module ApplyFacts.

Section Optimiser.
Variable DiffFunctor : Type.
Variable NumericalDiff : DESPOT1.T1Functor -> DiffFunctor.
Variable minimize :
  DESPOT1.LevenbergMarquardt DiffFunctor -> list Dbl.t -> completion (list Dbl.t).

Lemma apply_LLS n sequence data B1 rest lin :
  DESPOT1.linearise data (DESPOT1.scaled_flip sequence B1) = Returns lin ->
  DESPOT1.apply NumericalDiff minimize (DESPOT1.mk DESPOT1.LLS n)
                sequence data (B1 :: rest)
  = (resids <- DESPOT1.residuals sequence data B1 (DESPOT1.lls sequence lin) ;;
     Returns (DESPOT1.lls sequence lin, resids)).
Proof. intros H. unfold DESPOT1.apply. rewrite H. reflexivity. Qed.

Lemma apply_WLLS n sequence data B1 rest lin :
  DESPOT1.linearise data (DESPOT1.scaled_flip sequence B1) = Returns lin ->
  DESPOT1.apply NumericalDiff minimize (DESPOT1.mk DESPOT1.WLLS n)
                sequence data (B1 :: rest)
  = (resids <- DESPOT1.residuals
                 sequence data B1
                 (DESPOT1.wlls_loop (Z.to_nat n) sequence
                                    (DESPOT1.scaled_flip sequence B1) lin
                                    (DESPOT1.lls sequence lin)) ;;
     Returns (DESPOT1.wlls_loop (Z.to_nat n) sequence
                                (DESPOT1.scaled_flip sequence B1) lin
                                (DESPOT1.lls sequence lin),
              resids)).
Proof. intros H. unfold DESPOT1.apply. rewrite H. reflexivity. Qed.

Lemma T1Functor_new_rows sequence data B1 :
  Z.of_nat (length data) = size sequence ->
  DESPOT1.T1Functor_new sequence data B1
  = Returns (DESPOT1.mkT1Functor sequence data B1).
Proof.
  intros H. unfold DESPOT1.T1Functor_new.
  rewrite H, Z.eqb_refl. reflexivity.
Qed.

Lemma T1Functor_new_other_rows sequence data B1 :
  Z.of_nat (length data) <> size sequence ->
  DESPOT1.T1Functor_new sequence data B1
  = Aborts "static_cast<size_t>(m_data.rows()) == values()".
Proof.
  intros H. unfold DESPOT1.T1Functor_new.
  destruct (Z.eqb_spec (Z.of_nat (length data)) (size sequence));
    [contradiction|reflexivity].
Qed.

Lemma apply_NLLS n sequence data B1 rest lin :
  DESPOT1.linearise data (DESPOT1.scaled_flip sequence B1) = Returns lin ->
  Z.of_nat (length data) = size sequence ->
  DESPOT1.apply NumericalDiff minimize (DESPOT1.mk DESPOT1.NLLS n)
                sequence data (B1 :: rest)
  = (outputs <- minimize
                  (DESPOT1.nlls_optimizer
                     NumericalDiff (DESPOT1.mk DESPOT1.NLLS n) sequence
                     (DESPOT1.mkT1Functor sequence data B1))
                  (DESPOT1.lls sequence lin) ;;
     resids <- DESPOT1.residuals sequence data B1 outputs ;;
     Returns (outputs, resids)).
Proof.
  intros H Hrows. unfold DESPOT1.apply, DESPOT1.refine. rewrite H.
  cbn [bind DESPOT1.m_type]. rewrite (T1Functor_new_rows sequence data B1 Hrows).
  reflexivity.
Qed.

(** With LLS and WLLS and one datum per flip angle, [apply] returns two
    outputs and one residual per datum. *)
Lemma apply_linear_returns d sequence data B1 rest :
  length data = length (flip sequence) ->
  DESPOT1.m_type d <> DESPOT1.NLLS ->
  exists (PD T1 : Dbl.t) (resids : list Dbl.t),
    DESPOT1.apply NumericalDiff minimize d sequence data (B1 :: rest)
    = Returns ([PD; T1], resids) /\
    length resids = length data.
Proof.
  intros Hlen Hty. unfold DESPOT1.apply, DESPOT1.refine.
  rewrite LinearFacts.linearise_same_size
    by (rewrite LinearFacts.scaled_flip_length; exact Hlen).
  cbn [bind]. set (lin := DESPOT1.mkLinear _ _ _).
  destruct (LinearFacts.lls_two sequence lin) as (PD & T1 & Hl).
  destruct (DESPOT1.m_type d) eqn:Ety; [| |contradiction].
  - cbn [bind]. rewrite Hl.
    rewrite ResidualFacts.residuals_same_size by exact Hlen. cbn [bind].
    exists PD, T1. eexists. split; [reflexivity|].
    rewrite EigenFacts.zip_length; [apply DblFacts.of_reals_length|].
    rewrite DblFacts.of_reals_length, length_map,
      ResidualFacts.One_SPGR_length. exact Hlen.
  - cbn [bind].
    destruct (@LinearFacts.wlls_loop_two
                (Z.to_nat (DESPOT1.m_iterations d)) sequence
                (DESPOT1.scaled_flip sequence B1) lin
                (DESPOT1.lls sequence lin))
      as (PD' & T1' & Hw); [exists PD, T1; exact Hl|].
    rewrite Hw.
    rewrite ResidualFacts.residuals_same_size by exact Hlen. cbn [bind].
    exists PD', T1'. eexists. split; [reflexivity|].
    rewrite EigenFacts.zip_length; [apply DblFacts.of_reals_length|].
    rewrite DblFacts.of_reals_length, length_map,
      ResidualFacts.One_SPGR_length. exact Hlen.
Qed.

(** What a returning call has written. *)
Lemma apply_Returns_inv d sequence data B1 rest outputs resids :
  DESPOT1.apply NumericalDiff minimize d sequence data (B1 :: rest)
  = Returns (outputs, resids) ->
  exists lin,
    DESPOT1.linearise data (DESPOT1.scaled_flip sequence B1) = Returns lin /\
    DESPOT1.refine NumericalDiff minimize d sequence data B1 lin
                   (DESPOT1.lls sequence lin) = Returns outputs /\
    DESPOT1.residuals sequence data B1 outputs = Returns resids.
Proof.
  unfold DESPOT1.apply.
  destruct (DESPOT1.linearise data (DESPOT1.scaled_flip sequence B1))
    as [lin| |] eqn:El; cbn [bind]; try discriminate.
  destruct (DESPOT1.refine NumericalDiff minimize d sequence data B1 lin
                           (DESPOT1.lls sequence lin))
    as [out| |] eqn:Eo; cbn [bind]; try discriminate.
  destruct (DESPOT1.residuals sequence data B1 out) as [r| |] eqn:Er;
    cbn [bind]; try discriminate.
  intros H; injection H as <- <-. exists lin.
  split; [reflexivity|]. split; [exact Eo | exact Er].
Qed.

(** [apply] has no [throw] of its own. *)
Lemma apply_throws_in_minimize d sequence data inputs what :
  DESPOT1.apply NumericalDiff minimize d sequence data inputs = Throws what ->
  DESPOT1.m_type d = DESPOT1.NLLS /\
  exists lm x, minimize lm x = Throws what.
Proof.
  unfold DESPOT1.apply. destruct inputs as [|B1 rest]; [discriminate|].
  destruct (DESPOT1.linearise data (DESPOT1.scaled_flip sequence B1))
    as [lin| |] eqn:El; cbn [bind]; try discriminate.
  - unfold DESPOT1.refine. destruct (DESPOT1.m_type d) eqn:Ety; cbn [bind].
    + intros H.
      destruct (DESPOT1.residuals sequence data B1 (DESPOT1.lls sequence lin))
        as [r| |] eqn:Er; cbn [bind] in H; try discriminate.
      injection H as ->. exfalso. exact (ResidualFacts.residuals_never_throw _ _ _ _ Er).
    + intros H.
      match type of H with
      | context [DESPOT1.residuals ?s ?dt ?b ?o] =>
          destruct (DESPOT1.residuals s dt b o) as [r| |] eqn:Er
      end; cbn [bind] in H; try discriminate.
      injection H as ->. exfalso. exact (ResidualFacts.residuals_never_throw _ _ _ _ Er).
    + unfold DESPOT1.T1Functor_new.
      destruct (Z.of_nat (length data) =? size sequence)%Z; cbn [bind];
        [|discriminate].
      match goal with
      | |- context [minimize ?lm ?x] =>
          destruct (minimize lm x) as [out| |] eqn:Em
      end; cbn [bind]; try discriminate.
      * intros H.
        destruct (DESPOT1.residuals sequence data B1 out) as [r| |] eqn:Er;
          cbn [bind] in H; try discriminate.
        injection H as ->. exfalso.
        exact (ResidualFacts.residuals_never_throw _ _ _ _ Er).
      * intros H; injection H as ->. split; [reflexivity|].
        eexists; eexists; exact Em.
  - intros H; injection H as ->. exfalso.
    exact (LinearFacts.linearise_never_throws _ _ El).
Qed.

End Optimiser.

End ApplyFacts.

(* ================================================================== *)
(** * The budget of the nonlinear strategy *)

Module NllsFacts.


End NllsFacts.

(* ================================================================== *)
(** * The example inputs, evaluated *)

Module ExampleFacts.
Import Eigen EigenFacts.

Lemma sqrt3_sqr : sqrt 3 * sqrt 3 = 3.
Proof. apply sqrt_sqrt; lra. Qed.

Lemma sqrt3_pos : 0 < sqrt 3.
Proof. apply sqrt_lt_R0; lra. Qed.

Lemma sqrt3_lt_2 : sqrt 3 < 2.
Proof. pose proof sqrt3_sqr; pose proof sqrt3_pos; nra. Qed.

Lemma sqrt3_gt_1 : 1 < sqrt 3.
Proof. pose proof sqrt3_sqr; pose proof sqrt3_pos; nra. Qed.

Lemma divisible_PI6 : Spec.divisible 1 (PI / 6).
Proof.
  unfold Spec.divisible. rewrite Rmult_1_r, sin_PI6, cos_PI6.
  pose proof sqrt3_pos. split; lra.
Qed.

Lemma divisible_PI3 : Spec.divisible 1 (PI / 3).
Proof.
  unfold Spec.divisible. rewrite Rmult_1_r, sin_PI3, cos_PI3.
  pose proof sqrt3_pos. split; lra.
Qed.

Lemma two_angles_divisible :
  Forall (Spec.divisible 1) (flip Examples.two_angles).
Proof.
  unfold Examples.two_angles, Examples.spgr; simpl.
  constructor; [apply divisible_PI6|].
  constructor; [apply divisible_PI3|]. constructor.
Qed.

Lemma repeated_divisible :
  Forall (Spec.divisible 1) (flip Examples.repeated).
Proof.
  unfold Examples.repeated, Examples.spgr; simpl.
  constructor; [apply divisible_PI6|].
  constructor; [apply divisible_PI6|].
  constructor; [apply divisible_PI3|]. constructor.
Qed.

Lemma TR5ms_pos : 0 < Examples.TR5ms.
Proof. unfold Examples.TR5ms. lra. Qed.

Lemma quotient_tan_PI6 x : x / tan (PI / 6 * 1) = x * sqrt 3.
Proof.
  rewrite Rmult_1_r, tan_PI6.
  pose proof sqrt3_sqr as Hs. pose proof sqrt3_pos as Hp.
  field. lra.
Qed.

Lemma quotient_tan_PI3 x : x / tan (PI / 3 * 1) = x * sqrt 3 / 3.
Proof.
  rewrite Rmult_1_r, tan_PI3.
  pose proof sqrt3_sqr as Hs. pose proof sqrt3_pos as Hp.
  apply Rmult_eq_reg_r with (r := sqrt 3); [|lra].
  replace (x / sqrt 3 * sqrt 3) with x by (field; lra).
  replace (x * sqrt 3 / 3 * sqrt 3) with (x * (sqrt 3 * sqrt 3) / 3) by field.
  rewrite Hs. field.
Qed.

Lemma quotient_sin_PI6 x : x / sin (PI / 6 * 1) = 2 * x.
Proof. rewrite Rmult_1_r, sin_PI6. field. Qed.

Lemma quotient_sin_PI3 x : x / sin (PI / 3 * 1) = 2 * x * sqrt 3 / 3.
Proof.
  rewrite Rmult_1_r, sin_PI3.
  pose proof sqrt3_sqr as Hs. pose proof sqrt3_pos as Hp.
  apply Rmult_eq_reg_r with (r := sqrt 3); [|lra].
  replace (x / (sqrt 3 / 2) * sqrt 3) with (2 * x) by (field; lra).
  replace (2 * x * sqrt 3 / 3 * sqrt 3) with (2 * x * (sqrt 3 * sqrt 3) / 3)
    by field.
  rewrite Hs. field.
Qed.

Lemma two_angles_X :
  Spec.X Examples.rising (flip Examples.two_angles) 1 = [sqrt 3; 2 * sqrt 3].
Proof.
  unfold Spec.X, Examples.rising, Examples.two_angles, Examples.spgr.
  cbn [flip map Spec.map2].
  rewrite quotient_tan_PI6, quotient_tan_PI3.
  repeat (apply (f_equal2 cons); [field|]); reflexivity.
Qed.

Lemma two_angles_Y :
  Spec.Y Examples.rising (flip Examples.two_angles) 1 = [2; 4 * sqrt 3].
Proof.
  unfold Spec.Y, Examples.rising, Examples.two_angles, Examples.spgr.
  cbn [flip map Spec.map2].
  rewrite quotient_sin_PI6, quotient_sin_PI3.
  repeat (apply (f_equal2 cons); [field|]); reflexivity.
Qed.

Lemma two_angles_regular :
  Spec.regular (Spec.X Examples.rising (flip Examples.two_angles) 1)
               (Spec.Y Examples.rising (flip Examples.two_angles) 1).
Proof.
  rewrite two_angles_X, two_angles_Y.
  unfold Spec.regular, Spec.S2, Spec.S1, Spec.sum; simpl.
  pose proof sqrt3_sqr as Hs. nra.
Qed.

(** The slope the closed form finds on the rising data exceeds 1. *)
Lemma two_angles_slope b0 b1 :
  Spec.normal_equations
    (Spec.X Examples.rising (flip Examples.two_angles) 1)
    (Spec.Y Examples.rising (flip Examples.two_angles) 1) b0 b1 ->
  1 < b0.
Proof.
  rewrite two_angles_X, two_angles_Y.
  unfold Spec.normal_equations, Spec.S2, Spec.S1, Spec.sum; simpl.
  pose proof sqrt3_sqr as Hs. pose proof sqrt3_lt_2 as H2.
  pose proof sqrt3_pos as Hp.
  intros [E0 E1].
  assert (Hb : 3 * b0 = 12 - 2 * sqrt 3) by nra.
  lra.
Qed.

(** The linearised data of the sequence with a repeated flip angle. *)
Lemma repeated_X :
  Spec.X Examples.unequal (flip Examples.repeated) 1
  = [sqrt 3; 2 * sqrt 3; sqrt 3].
Proof.
  unfold Spec.X, Examples.unequal, Examples.repeated, Examples.spgr.
  cbn [flip map Spec.map2].
  rewrite !quotient_tan_PI6, quotient_tan_PI3.
  repeat (apply (f_equal2 cons); [field|]); reflexivity.
Qed.

Lemma repeated_Y :
  Spec.Y Examples.unequal (flip Examples.repeated) 1 = [2; 4; 2 * sqrt 3].
Proof.
  unfold Spec.Y, Examples.unequal, Examples.repeated, Examples.spgr.
  cbn [flip map Spec.map2].
  rewrite !quotient_sin_PI6, quotient_sin_PI3.
  repeat (apply (f_equal2 cons); [field|]); reflexivity.
Qed.

Lemma repeated_regular :
  Spec.regular (Spec.X Examples.unequal (flip Examples.repeated) 1)
               (Spec.Y Examples.unequal (flip Examples.repeated) 1).
Proof.
  rewrite repeated_X, repeated_Y.
  unfold Spec.regular, Spec.S2, Spec.S1, Spec.sum; simpl.
  pose proof sqrt3_sqr as Hs. nra.
Qed.

(** The slope found there is [sqrt 3 - 1], between 0 and 1. *)
Lemma repeated_slope b0 b1 :
  Spec.normal_equations
    (Spec.X Examples.unequal (flip Examples.repeated) 1)
    (Spec.Y Examples.unequal (flip Examples.repeated) 1) b0 b1 ->
  0 < b0 < 1.
Proof.
  rewrite repeated_X, repeated_Y.
  unfold Spec.normal_equations, Spec.S2, Spec.S1, Spec.sum; simpl.
  pose proof sqrt3_sqr as Hs. pose proof sqrt3_lt_2 as H2.
  pose proof sqrt3_gt_1 as H1.
  intros [E0 E1].
  assert (Hb : b0 = sqrt 3 - 1) by nra.
  lra.
Qed.

Lemma E1_bounds tr T1 : 0 < tr / T1 -> 0 < exp (- tr / T1) < 1.
Proof.
  intros H. split; [apply exp_pos|].
  rewrite <- exp_0. apply exp_increasing.
  unfold Rdiv in *. rewrite <- Ropp_mult_distr_l. lra.
Qed.

(** With a relaxation factor below 1 in absolute value no denominator of
    the signal equation or of the weights is zero. *)
Lemma denominators_nonzero (E : R) (B1 : R) (fl : list R) :
  -1 < E < 1 ->
  Forall (fun a => 1 - E * cos (a * B1) <> 0) fl.
Proof.
  intros HE. rewrite Forall_forall. intros a _.
  pose proof (COS_bound (a * B1)) as [Hl Hu].
  apply Rgt_not_eq.
  destruct (Rle_dec 0 (cos (a * B1))); nra.
Qed.

Lemma weighable_positive fl tr T1 B1 :
  0 < tr -> 0 < T1 -> Spec.weighable fl tr T1 B1.
Proof.
  intros Htr HT1. split; [lra|].
  apply denominators_nonzero.
  assert (H : 0 < exp (- tr / T1) < 1).
  { apply E1_bounds. apply Rdiv_lt_0_compat; assumption. }
  lra.
Qed.




End ExampleFacts.

(* ================================================================== *)
(** * The functor of the nonlinear strategy *)

Module FunctorFacts.
Import Eigen EigenFacts.

(** On a difference vector of as many rows as the data the functor is the
    subtraction of the data from the magnitude of the signal. *)
Lemma T1Functor_call_rows sequence data B1 PD T1 :
  Z.of_nat (length data) = size sequence ->
  DESPOT1.T1Functor_call (DESPOT1.mkT1Functor sequence data B1) [PD; T1]
                         (length data)
  = cwise Dbl.sub
          (map Cabs
               (signal sequence SCD
                       [PD; T1; Dbl.Finite 0; Dbl.Finite 0; Dbl.Finite B1]))
          (Dbl.of_reals data).
Proof.
  intros Hrows. unfold DESPOT1.T1Functor_call, DESPOT1.values.
  cbn [DESPOT1.m_sequence DESPOT1.m_data DESPOT1.m_B1].
  rewrite Hrows, Z.eqb_refl.
  destruct (cwise Dbl.sub _ (Dbl.of_reals data)) as [diffs| |] eqn:E;
    cbn [bind]; try reflexivity.
  apply cwise_Returns in E. destruct E as [Hlen ->].
  rewrite zip_length by exact Hlen.
  rewrite Hlen, DblFacts.of_reals_length, Nat.eqb_refl. reflexivity.
Qed.

End FunctorFacts.

(* ================================================================== *)
(** * The closed form where every operation is in its domain *)

Module ClosedFormFacts.
Import Eigen EigenFacts.

Section Optimiser.
Variable DiffFunctor : Type.
Variable NumericalDiff : DESPOT1.T1Functor -> DiffFunctor.
Variable minimize :
  DESPOT1.LevenbergMarquardt DiffFunctor -> list Dbl.t -> completion (list Dbl.t).

(** The outputs of LLS on regular normal equations. *)
Lemma apply_LLS_solution n sequence data B1 rest b0 b1 :
  length data = length (flip sequence) ->
  Forall (Spec.divisible B1) (flip sequence) ->
  Spec.regular (Spec.X data (flip sequence) B1) (Spec.Y data (flip sequence) B1) ->
  Spec.normal_equations (Spec.X data (flip sequence) B1)
                        (Spec.Y data (flip sequence) B1) b0 b1 ->
  exists resids : list Dbl.t,
    DESPOT1.apply NumericalDiff minimize (DESPOT1.mk DESPOT1.LLS n)
                  sequence data (B1 :: rest)
    = Returns (Spec.recover (TR sequence) b0 b1, resids) /\
    DESPOT1.residuals sequence data B1 (Spec.recover (TR sequence) b0 b1)
    = Returns resids /\
    length resids = length data.
Proof.
  intros Hlen Hdiv Hreg Heq.
  rewrite (@ApplyFacts.apply_LLS DiffFunctor NumericalDiff minimize n sequence
             data B1 rest _
             (@LinearFacts.linearise_divisible sequence data B1 Hlen Hdiv)).
  assert (HY : length (Spec.Y data (flip sequence) B1) = length data).
  { rewrite SpecFacts.Y_length. lia. }
  assert (HX : length (Spec.X data (flip sequence) B1)
               = length (Spec.Y data (flip sequence) B1)).
  { rewrite SpecFacts.X_length, SpecFacts.Y_length. reflexivity. }
  rewrite <- HY.
  rewrite (@LinearFacts.lls_solution sequence _ _ b0 b1 HX Hreg Heq).
  unfold Spec.recover.
  rewrite ResidualFacts.residuals_same_size by exact Hlen. cbn [bind].
  eexists. split; [reflexivity|]. split; [reflexivity|].
  rewrite zip_length; [rewrite DblFacts.of_reals_length; symmetry; exact HY|].
  rewrite DblFacts.of_reals_length, length_map, ResidualFacts.One_SPGR_length.
  exact Hlen.
Qed.

(** The whole result of LLS where the outputs are real numbers and the
    signal equation is defined at them. *)
Lemma apply_LLS_of_reals n sequence data B1 rest b0 b1 PD T1 :
  length data = length (flip sequence) ->
  Forall (Spec.divisible B1) (flip sequence) ->
  Spec.regular (Spec.X data (flip sequence) B1) (Spec.Y data (flip sequence) B1) ->
  Spec.normal_equations (Spec.X data (flip sequence) B1)
                        (Spec.Y data (flip sequence) B1) b0 b1 ->
  Spec.recover (TR sequence) b0 b1 = [Dbl.Finite PD; Dbl.Finite T1] ->
  T1 <> 0 ->
  Forall (fun a => 1 - exp (- TR sequence / T1) * cos (a * B1) <> 0)
         (flip sequence) ->
  DESPOT1.apply NumericalDiff minimize (DESPOT1.mk DESPOT1.LLS n)
                sequence data (B1 :: rest)
  = Returns
      ([Dbl.Finite PD; Dbl.Finite T1],
       Dbl.of_reals
         (Spec.map2 Rminus data
                    (Synth.magnitude (flip sequence) (TR sequence) PD T1 B1))).
Proof.
  intros Hlen Hdiv Hreg Heq Hrec HT1 Hden.
  destruct (@apply_LLS_solution n sequence data B1 rest b0 b1 Hlen Hdiv Hreg Heq)
    as (resids & Hret & Hres & _).
  rewrite Hret. rewrite Hrec in Hres |- *.
  rewrite (@ResidualFacts.residuals_of_reals sequence data B1 PD T1 Hlen HT1 Hden)
    in Hres.
  injection Hres as <-. reflexivity.
Qed.

End Optimiser.

(** [T1 = -TR / ln(b0)] for a slope between 0 and 1. *)
Lemma recover_unit_interval tr b0 b1 :
  0 < tr -> 0 < b0 < 1 ->
  Spec.recover tr b0 b1
  = [Dbl.Finite (b1 / (1 - b0)); Dbl.Finite (- tr / ln b0)] /\
  0 < - tr / ln b0 /\
  exp (- tr / (- tr / ln b0)) = b0.
Proof.
  intros Htr Hb.
  assert (Hln : ln b0 < 0).
  { rewrite <- ln_1. apply ln_increasing; lra. }
  split; [apply LinearFacts.recover_finite; lra|].
  split.
  - unfold Rdiv. rewrite <- Ropp_mult_distr_l, Ropp_mult_distr_r.
    apply Rmult_lt_0_compat; [lra|].
    rewrite <- Rinv_opp. apply Rinv_0_lt_compat. lra.
  - replace (- tr / (- tr / ln b0)) with (ln b0) by (field; lra).
    apply exp_ln. lra.
Qed.

(** [T1] is negative for a slope above 1. *)
Lemma recover_above_one tr b0 b1 :
  0 < tr -> 1 < b0 ->
  Spec.recover tr b0 b1
  = [Dbl.Finite (b1 / (1 - b0)); Dbl.Finite (- tr / ln b0)] /\
  - tr / ln b0 < 0.
Proof.
  intros Htr Hb.
  assert (Hln : 0 < ln b0).
  { rewrite <- ln_1. apply ln_increasing; lra. }
  split; [apply LinearFacts.recover_finite; lra|].
  unfold Rdiv. rewrite <- Ropp_mult_distr_l.
  apply Ropp_lt_gt_0_contravar. apply Rmult_gt_0_compat; [lra|].
  apply Rinv_0_lt_compat. exact Hln.
Qed.

End ClosedFormFacts.

(* ================================================================== *)
(** * The linearisation at a zero flip angle *)

Module ZeroFlipFacts.
Import Eigen EigenFacts.

Lemma Y_divisor_nth sequence B1 i :
  (i < length (flip sequence))%nat ->
  nth i (DESPOT1.Y_divisors (DESPOT1.scaled_flip sequence B1)) (Dbl.Finite 1) =
  Dbl.Finite (sin (nth i (flip sequence) 0 * B1)).
Proof.
  intros Hi. rewrite LinearFacts.Y_divisors_of_reals. unfold Dbl.of_reals.
  rewrite map_map.
  rewrite (nth_indep _ (Dbl.Finite 1) (Dbl.Finite (sin (0 * B1))))
    by (rewrite length_map; exact Hi).
  apply (map_nth (fun a => Dbl.Finite (sin (a * B1)))).
Qed.

Lemma X_divisor_nth sequence B1 i :
  (i < length (flip sequence))%nat ->
  nth i (DESPOT1.X_divisors (DESPOT1.scaled_flip sequence B1)) (Dbl.Finite 1) =
  Dbl.tan (Dbl.Finite (nth i (flip sequence) 0 * B1)).
Proof.
  intros Hi. unfold DESPOT1.X_divisors, DESPOT1.scaled_flip.
  rewrite map_map.
  rewrite (nth_indep _ (Dbl.Finite 1) (Dbl.tan (Dbl.Finite (0 * B1))))
    by (rewrite length_map; exact Hi).
  apply (map_nth (fun a => Dbl.tan (Dbl.Finite (a * B1)))).
Qed.

Lemma tan_at_zero B1 : Dbl.tan (Dbl.Finite (0 * B1)) = Dbl.Finite 0.
Proof.
  rewrite Rmult_0_l. rewrite DblFacts.tan_finite.
  - rewrite tan_0. reflexivity.
  - rewrite cos_0. lra.
Qed.

(** At a zero flip angle both divisors are zero, the two quotients are
    taken all the same, and no condition is dropped. *)
Lemma zero_flip_quotients sequence data B1 i :
  length data = length (flip sequence) ->
  (i < length data)%nat ->
  nth i (flip sequence) 0 = 0 ->
  nth i (DESPOT1.Y_divisors (DESPOT1.scaled_flip sequence B1)) (Dbl.Finite 1)
  = Dbl.Finite 0 /\
  nth i (DESPOT1.X_divisors (DESPOT1.scaled_flip sequence B1)) (Dbl.Finite 1)
  = Dbl.Finite 0 /\
  exists lin : DESPOT1.Linear,
    DESPOT1.linearise data (DESPOT1.scaled_flip sequence B1) = Returns lin /\
    nth i (DESPOT1.Y lin) (Dbl.Finite 0)
    = Dbl.div (Dbl.Finite (nth i data 0)) (Dbl.Finite 0) /\
    nth i (DESPOT1.X0 lin) (Dbl.Finite 0)
    = Dbl.div (Dbl.Finite (nth i data 0)) (Dbl.Finite 0) /\
    length (DESPOT1.Y lin) = length data /\
    length (DESPOT1.X0 lin) = length data.
Proof.
  intros Hlen Hi Hz.
  assert (Hi' : (i < length (flip sequence))%nat) by lia.
  assert (Ys : nth i (DESPOT1.Y_divisors (DESPOT1.scaled_flip sequence B1))
                   (Dbl.Finite 1) = Dbl.Finite 0).
  { rewrite Y_divisor_nth by exact Hi'. rewrite Hz, Rmult_0_l, sin_0. reflexivity. }
  assert (Xs : nth i (DESPOT1.X_divisors (DESPOT1.scaled_flip sequence B1))
                   (Dbl.Finite 1) = Dbl.Finite 0).
  { rewrite X_divisor_nth by exact Hi'. rewrite Hz. apply tan_at_zero. }
  split; [exact Ys|]. split; [exact Xs|].
  assert (Hsf : length data = length (DESPOT1.scaled_flip sequence B1)).
  { rewrite LinearFacts.scaled_flip_length. exact Hlen. }
  eexists. split; [apply (@LinearFacts.linearise_same_size _ _ Hsf)|].
  cbn [DESPOT1.Y DESPOT1.X0].
  assert (Hd : (i < length (Dbl.of_reals data))%nat)
    by (rewrite DblFacts.of_reals_length; exact Hi).
  repeat split.
  - rewrite (zip_nth Dbl.div _ _ (Dbl.Finite 0) (Dbl.Finite 1) (Dbl.Finite 0)).
    + rewrite Ys. f_equal. unfold Dbl.of_reals. apply (map_nth Dbl.Finite).
    + exact Hd.
    + rewrite LinearFacts.Y_divisors_length, <- Hsf. exact Hi.
  - rewrite (zip_nth Dbl.div _ _ (Dbl.Finite 0) (Dbl.Finite 1) (Dbl.Finite 0)).
    + rewrite Xs. f_equal. unfold Dbl.of_reals. apply (map_nth Dbl.Finite).
    + exact Hd.
    + rewrite LinearFacts.X_divisors_length, <- Hsf. exact Hi.
  - rewrite zip_length; [apply DblFacts.of_reals_length|].
    rewrite DblFacts.of_reals_length, LinearFacts.Y_divisors_length. exact Hsf.
  - rewrite zip_length; [apply DblFacts.of_reals_length|].
    rewrite DblFacts.of_reals_length, LinearFacts.X_divisors_length. exact Hsf.
Qed.

(** A special value in the first column of [X] makes both outputs of the
    closed form special. *)
Lemma lls_special sequence lin i :
  (i < length (DESPOT1.X0 lin))%nat ->
  nth i (DESPOT1.X0 lin) Dbl.Special = Dbl.Special ->
  DESPOT1.lls sequence lin = [Dbl.Special; Dbl.Special].
Proof.
  intros Hi Hs. unfold DESPOT1.lls.
  rewrite partialPivLu_solve_special.
  - reflexivity.
  - unfold DESPOT1.XtX. cbn [m00].
    apply (@dot_special (DESPOT1.X0 lin) (DESPOT1.X0 lin) i Hi Hi Hs).
Qed.

(** The outputs of LLS at a zero flip angle are special. *)
Lemma apply_LLS_zero_flip
      (DiffFunctor : Type) (NumericalDiff : DESPOT1.T1Functor -> DiffFunctor)
      (minimize : DESPOT1.LevenbergMarquardt DiffFunctor -> list Dbl.t
                  -> completion (list Dbl.t))
      n sequence data B1 rest i :
  length data = length (flip sequence) ->
  (i < length data)%nat ->
  nth i (flip sequence) 0 = 0 ->
  exists resids : list Dbl.t,
    DESPOT1.apply NumericalDiff minimize (DESPOT1.mk DESPOT1.LLS n)
                  sequence data (B1 :: rest)
    = Returns ([Dbl.Special; Dbl.Special], resids) /\
    length resids = length data.
Proof.
  intros Hlen Hi Hz.
  destruct (@zero_flip_quotients sequence data B1 i Hlen Hi Hz)
    as (_ & _ & lin & Hlin & _ & HX & _ & HXl).
  rewrite DblFacts.div_by_zero in HX.
  rewrite (@ApplyFacts.apply_LLS DiffFunctor NumericalDiff minimize n sequence
             data B1 rest lin Hlin).
  rewrite (@lls_special sequence lin i).
  - rewrite ResidualFacts.residuals_same_size by exact Hlen. cbn [bind].
    eexists. split; [reflexivity|].
    rewrite zip_length; [apply DblFacts.of_reals_length|].
    rewrite DblFacts.of_reals_length, length_map, ResidualFacts.One_SPGR_length.
    exact Hlen.
  - rewrite HXl. exact Hi.
  - rewrite (nth_indep _ Dbl.Special (Dbl.Finite 0)) by (rewrite HXl; exact Hi).
    exact HX.
Qed.

End ZeroFlipFacts.

(* ================================================================== *)
(** * The properties of the estimator *)

(** C1 (as the code has it).  On data with one entry per flip angle, for
    each of the three strategies, at every condition index [i] the
    residual [DESPOT1::apply] returns is the original datum minus the
    magnitude of the SPGR forward model evaluated at the returned
    parameters: observed minus predicted.  With LLS and WLLS the call
    returns; with NLLS it does on data with one row per condition of the
    sequence when the optimiser hands back its vector of two rows or
    more. *)
Theorem C1_residual_is_data_minus_model
        (DiffFunctor : Type) (NumericalDiff : DESPOT1.T1Functor -> DiffFunctor)
        (minimize : DESPOT1.LevenbergMarquardt DiffFunctor -> list Dbl.t
                    -> completion (list Dbl.t))
        (d : DESPOT1.t) (sequence : SequenceBase) (data : list R)
        (B1 : R) (rest : list R) :
  length data = length (flip sequence) ->
  (forall outputs resids : list Dbl.t,
      DESPOT1.apply NumericalDiff minimize d sequence data (B1 :: rest)
      = Returns (outputs, resids) ->
      length resids = length data /\
      forall i : nat,
        (i < length data)%nat ->
        nth i resids Dbl.Special =
        Dbl.sub (Dbl.Finite (nth i data 0))
                (Eigen.Cabs
                   (nth i (QI.One_SPGR (flip sequence) (TR sequence)
                                       (nth 0 outputs Dbl.Special)
                                       (nth 1 outputs Dbl.Special) B1)
                        (Eigen.of_real (Dbl.Finite 0))))) /\
  ((DESPOT1.m_type d = DESPOT1.NLLS ->
    Z.of_nat (length data) = size sequence /\
    forall lm (PD T1 : Dbl.t),
    exists (PD' T1' : Dbl.t) (more : list Dbl.t),
      minimize lm [PD; T1] = Returns (PD' :: T1' :: more)) ->
   exists outputs resids : list Dbl.t,
     DESPOT1.apply NumericalDiff minimize d sequence data (B1 :: rest)
     = Returns (outputs, resids)).
Proof.
  intros Hlen. split.
  - intros outputs resids Hret.
    apply ApplyFacts.apply_Returns_inv in Hret.
    destruct Hret as (lin & _ & _ & Hres).
    split.
    + destruct data as [|x data'].
      * unfold DESPOT1.residuals in Hres.
        destruct outputs as [|PD [|T1 more]]; try discriminate.
        apply EigenFacts.cwise_Returns in Hres. destruct Hres as [_ ->].
        reflexivity.
      * apply (@ResidualFacts.residuals_nth sequence (x :: data') B1 outputs
                 resids 0%nat Hres). simpl; lia.
    + intros i Hi.
      apply (@ResidualFacts.residuals_nth sequence data B1 outputs resids i
               Hres Hi).
  - intros Hopt.
    destruct (DESPOT1.m_type d) eqn:Ety.
    + destruct (@ApplyFacts.apply_linear_returns
                  DiffFunctor NumericalDiff minimize d sequence data B1 rest Hlen)
        as (PD & T1 & resids & Hret & _); [rewrite Ety; discriminate|].
      eexists; eexists; exact Hret.
    + destruct (@ApplyFacts.apply_linear_returns
                  DiffFunctor NumericalDiff minimize d sequence data B1 rest Hlen)
        as (PD & T1 & resids & Hret & _); [rewrite Ety; discriminate|].
      eexists; eexists; exact Hret.
    + destruct (Hopt eq_refl) as [Hrows Hmin].
      assert (Hsf : length data = length (DESPOT1.scaled_flip sequence B1)).
      { rewrite LinearFacts.scaled_flip_length. exact Hlen. }
      destruct d as [ty n]. cbn [DESPOT1.m_type] in Ety. subst ty.
      rewrite (@ApplyFacts.apply_NLLS
                 DiffFunctor NumericalDiff minimize n sequence data B1 rest _
                 (@LinearFacts.linearise_same_size _ _ Hsf) Hrows).
      set (lin := DESPOT1.mkLinear _ _ _).
      destruct (LinearFacts.lls_two sequence lin) as (PD & T1 & Hl).
      rewrite Hl.
      match goal with
      | |- context [minimize ?lm [PD; T1]] =>
          destruct (Hmin lm PD T1) as (PD' & T1' & more & Hm)
      end.
      rewrite Hm. cbn [bind].
      rewrite ResidualFacts.residuals_same_size by exact Hlen. cbn [bind].
      eexists; eexists; reflexivity.
Qed.

(** C1 at the weighted strategy with the default four passes, on the
    sequence with a repeated flip angle. *)
Lemma C1_residual_is_data_minus_model_witness :
  (forall outputs resids : list Dbl.t,
      Examples.apply (DESPOT1.mk DESPOT1.WLLS 4) Examples.repeated
                     Examples.unequal [1]
      = Returns (outputs, resids) ->
      length resids = 3%nat /\
      forall i : nat,
        (i < 3)%nat ->
        nth i resids Dbl.Special =
        Dbl.sub (Dbl.Finite (nth i Examples.unequal 0))
                (Eigen.Cabs
                   (nth i (QI.One_SPGR (flip Examples.repeated)
                                       (TR Examples.repeated)
                                       (nth 0 outputs Dbl.Special)
                                       (nth 1 outputs Dbl.Special) 1)
                        (Eigen.of_real (Dbl.Finite 0))))) /\
  exists outputs resids : list Dbl.t,
    Examples.apply (DESPOT1.mk DESPOT1.WLLS 4) Examples.repeated
                   Examples.unequal [1]
    = Returns (outputs, resids).
Proof.
  destruct (@C1_residual_is_data_minus_model
              Examples.DiffFunctor Examples.NumericalDiff Examples.minimize
              (DESPOT1.mk DESPOT1.WLLS 4) Examples.repeated Examples.unequal
              1 [] eq_refl) as [Heq Hret].
  split; [exact Heq|].
  apply Hret. intros H. discriminate H.
Defined.

(** C1 as the specification words it (model magnitude minus data) fails:
    conditions 0 and 1 share a flip angle, hence a predicted magnitude, but
    their data are 1 and 2, and a residual cannot be observed minus
    predicted and predicted minus observed at both.  The outputs are real
    numbers there: the slope of the fit is [sqrt 3 - 1]. *)
Lemma C1_model_minus_data_counterexample :
  ~ (exists outputs resids : list Dbl.t,
        Examples.apply (DESPOT1.mk DESPOT1.LLS 4) Examples.repeated
                       Examples.unequal [1]
        = Returns (outputs, resids) /\
        forall i : nat,
          (i < 3)%nat ->
          nth i resids Dbl.Special =
          Dbl.sub (Eigen.Cabs
                     (nth i (QI.One_SPGR (flip Examples.repeated)
                                         (TR Examples.repeated)
                                         (nth 0 outputs Dbl.Special)
                                         (nth 1 outputs Dbl.Special) 1)
                          (Eigen.of_real (Dbl.Finite 0))))
                  (Dbl.Finite (nth i Examples.unequal 0))).
Proof.
  intros (outputs & resids & Hret & H).
  destruct (@EigenFacts.partialPivLu_solve_regular
              _ _ _ _
              (Spec.S2 (Spec.X Examples.unequal (flip Examples.repeated) 1)
                       (Spec.Y Examples.unequal (flip Examples.repeated) 1))
              (Spec.S1 (Spec.Y Examples.unequal (flip Examples.repeated) 1))
              ExampleFacts.repeated_regular)
    as (b0 & b1 & _ & E0 & E1).
  assert (Heq : Spec.normal_equations
                  (Spec.X Examples.unequal (flip Examples.repeated) 1)
                  (Spec.Y Examples.unequal (flip Examples.repeated) 1) b0 b1)
    by (split; assumption).
  pose proof (ExampleFacts.repeated_slope Heq) as Hb.
  destruct (@ClosedFormFacts.recover_unit_interval
              (TR Examples.repeated) b0 b1 ExampleFacts.TR5ms_pos Hb)
    as (Hrec & HT1 & HE).
  assert (Hden : Forall (fun a => 1 - exp (- TR Examples.repeated
                                           / (- TR Examples.repeated / ln b0))
                                     * cos (a * 1) <> 0)
                        (flip Examples.repeated)).
  { apply ExampleFacts.denominators_nonzero. rewrite HE. lra. }
  unfold Examples.apply in Hret.
  rewrite (@ClosedFormFacts.apply_LLS_of_reals
             Examples.DiffFunctor Examples.NumericalDiff Examples.minimize
             4%Z Examples.repeated Examples.unequal 1 [] b0 b1 _ _
             eq_refl ExampleFacts.repeated_divisible
             ExampleFacts.repeated_regular Heq Hrec (Rgt_not_eq _ _ HT1) Hden)
    in Hret.
  injection Hret as <- <-.
  pose proof (H 0%nat ltac:(lia)) as H0.
  pose proof (H 1%nat ltac:(lia)) as H1.
  cbn [nth] in H0, H1.
  set (m := Rabs (Spec.spgr Examples.TR5ms (b1 / (1 - b0))
                            (- Examples.TR5ms / ln b0) 1 (PI / 6))) in *.
  match type of H0 with
  | _ = Dbl.sub ?c _ =>
      assert (C0 : c = Dbl.Finite m)
        by (apply (@ResidualFacts.Cabs_One_SPGR_nth
                     (flip Examples.repeated) (TR Examples.repeated)
                     (b1 / (1 - b0)) (- TR Examples.repeated / ln b0) 1 0
                     (Rgt_not_eq _ _ HT1) Hden); simpl; lia)
  end.
  match type of H1 with
  | _ = Dbl.sub ?c _ =>
      assert (C1 : c = Dbl.Finite m)
        by (apply (@ResidualFacts.Cabs_One_SPGR_nth
                     (flip Examples.repeated) (TR Examples.repeated)
                     (b1 / (1 - b0)) (- TR Examples.repeated / ln b0) 1 1
                     (Rgt_not_eq _ _ HT1) Hden); simpl; lia)
  end.
  rewrite C0 in H0. rewrite C1 in H1.
  unfold Examples.unequal in H0, H1.
  cbn [nth Dbl.sub Dbl.lift2] in H0, H1.
  injection H0 as H0. injection H1 as H1.
  lra.
Qed.

(** C2 (as the code has it).  With the strategy LLS, on data with one
    entry per flip angle and a B1 at which no scaled flip angle has a zero
    sine or cosine, the linearised data are [Y = S/sin(a*B1)] and
    [X = S/tan(a*B1)], and when the normal equations [(XtX) b = Xt Y] of
    the fit of [Y] on [[X, 1]] are regular, [apply] returns
    [PD = b1 / (1 - b0)] and [T1 = -TR / ln(b0)] for their solution [b]:
    real numbers for a positive slope [b0] other than 1. *)
Theorem C2_closed_form_linear
        (DiffFunctor : Type) (NumericalDiff : DESPOT1.T1Functor -> DiffFunctor)
        (minimize : DESPOT1.LevenbergMarquardt DiffFunctor -> list Dbl.t
                    -> completion (list Dbl.t))
        (n : Z) (sequence : SequenceBase) (data : list R)
        (B1 : R) (rest : list R) :
  length data = length (flip sequence) ->
  Forall (Spec.divisible B1) (flip sequence) ->
  Spec.regular (Spec.X data (flip sequence) B1)
               (Spec.Y data (flip sequence) B1) ->
  DESPOT1.linearise data (DESPOT1.scaled_flip sequence B1)
  = Returns (DESPOT1.mkLinear
               (Dbl.of_reals (Spec.Y data (flip sequence) B1))
               (Dbl.of_reals (Spec.X data (flip sequence) B1))
               (Eigen.Ones (length data))) /\
  exists (b0 b1 : R) (resids : list Dbl.t),
    Spec.normal_equations (Spec.X data (flip sequence) B1)
                          (Spec.Y data (flip sequence) B1) b0 b1 /\
    DESPOT1.apply NumericalDiff minimize (DESPOT1.mk DESPOT1.LLS n)
                  sequence data (B1 :: rest)
    = Returns ([Dbl.div (Dbl.Finite b1) (Dbl.Finite (1 - b0));
                Dbl.div (Dbl.Finite (- TR sequence)) (Dbl.ln (Dbl.Finite b0))],
               resids) /\
    (0 < b0 -> b0 <> 1 ->
     DESPOT1.apply NumericalDiff minimize (DESPOT1.mk DESPOT1.LLS n)
                   sequence data (B1 :: rest)
     = Returns ([Dbl.Finite (b1 / (1 - b0));
                 Dbl.Finite (- TR sequence / ln b0)],
                resids)).
Proof.
  intros Hlen Hdiv Hreg.
  split; [apply LinearFacts.linearise_divisible; assumption|].
  destruct (@EigenFacts.partialPivLu_solve_regular
              _ _ _ _
              (Spec.S2 (Spec.X data (flip sequence) B1)
                       (Spec.Y data (flip sequence) B1))
              (Spec.S1 (Spec.Y data (flip sequence) B1)) Hreg)
    as (b0 & b1 & _ & E0 & E1).
  assert (Heq : Spec.normal_equations (Spec.X data (flip sequence) B1)
                                      (Spec.Y data (flip sequence) B1) b0 b1)
    by (split; assumption).
  destruct (@ClosedFormFacts.apply_LLS_solution
              DiffFunctor NumericalDiff minimize n sequence data B1 rest b0 b1
              Hlen Hdiv Hreg Heq) as (resids & Hret & _ & _).
  exists b0, b1, resids. split; [exact Heq|]. split; [exact Hret|].
  intros Hpos Hne. rewrite Hret.
  rewrite (@LinearFacts.recover_finite (TR sequence) b0 b1 Hpos Hne).
  reflexivity.
Qed.

(** C2 on the sequence with a repeated flip angle, three conditions for
    two coefficients: the equations are regular and the slope is between
    0 and 1. *)
Lemma C2_closed_form_linear_witness :
  exists (b0 b1 : R) (resids : list Dbl.t),
    Spec.normal_equations
      (Spec.X Examples.unequal (flip Examples.repeated) 1)
      (Spec.Y Examples.unequal (flip Examples.repeated) 1) b0 b1 /\
    Examples.apply (DESPOT1.mk DESPOT1.LLS 4) Examples.repeated
                   Examples.unequal [1]
    = Returns ([Dbl.Finite (b1 / (1 - b0));
                Dbl.Finite (- TR Examples.repeated / ln b0)],
               resids).
Proof.
  destruct (@C2_closed_form_linear
              Examples.DiffFunctor Examples.NumericalDiff Examples.minimize
              4%Z Examples.repeated Examples.unequal 1 []
              eq_refl ExampleFacts.repeated_divisible
              ExampleFacts.repeated_regular)
    as (_ & b0 & b1 & resids & Heq & _ & Hfin).
  exists b0, b1, resids. split; [exact Heq|].
  pose proof (ExampleFacts.repeated_slope Heq) as Hb.
  apply Hfin; lra.
Defined.

(** C2 as the specification words it (for every data vector and B1) fails:
    on the sequence whose first flip angle is 0 the datum is divided by
    [sin 0 = 0] and [tan 0 = 0], and what LLS returns for PD and T1 are no
    real numbers and so none recovered from a solution of the normal
    equations. *)
Lemma C2_zero_flip_counterexample :
  exists resids : list Dbl.t,
    Examples.apply (DESPOT1.mk DESPOT1.LLS 4) Examples.zero_flip
                   Examples.ones2 [1]
    = Returns ([Dbl.Special; Dbl.Special], resids) /\
    forall PD T1 : R, [Dbl.Special; Dbl.Special] <> [Dbl.Finite PD; Dbl.Finite T1].
Proof.
  destruct (@ZeroFlipFacts.apply_LLS_zero_flip
              Examples.DiffFunctor Examples.NumericalDiff Examples.minimize
              4%Z Examples.zero_flip Examples.ones2 1 [] 0%nat eq_refl)
    as (resids & Hret & _).
  - simpl; lia.
  - reflexivity.
  - exists resids. split; [exact Hret|]. intros PD T1 H. discriminate H.
Qed.



(** C4.  WLLS with zero iterations completes as LLS does on the same data
    and constants, with the same outputs and the same residuals; on data
    with one entry per flip angle and a B1 among the constants both
    return. *)
Theorem C4_wlls_zero_iterations_is_lls
        (DiffFunctor : Type) (NumericalDiff : DESPOT1.T1Functor -> DiffFunctor)
        (minimize : DESPOT1.LevenbergMarquardt DiffFunctor -> list Dbl.t
                    -> completion (list Dbl.t))
        (k : Z) (sequence : SequenceBase) (data inputs : list R) :
  DESPOT1.apply NumericalDiff minimize
                (DESPOT1.setIterations 0 (DESPOT1.setType DESPOT1.WLLS DESPOT1.default))
                sequence data inputs
  = DESPOT1.apply NumericalDiff minimize
                  (DESPOT1.setIterations k (DESPOT1.setType DESPOT1.LLS DESPOT1.default))
                  sequence data inputs
  /\
  (length data = length (flip sequence) ->
   inputs <> [] ->
   exists (PD T1 : Dbl.t) (resids : list Dbl.t),
     DESPOT1.apply NumericalDiff minimize
                   (DESPOT1.setIterations 0 (DESPOT1.setType DESPOT1.WLLS DESPOT1.default))
                   sequence data inputs
     = Returns ([PD; T1], resids) /\
     length resids = length data).
Proof.
  split.
  - reflexivity.
  - intros Hlen Hin. destruct inputs as [|B1 rest]; [contradiction|].
    apply ApplyFacts.apply_linear_returns; [exact Hlen|].
    cbn. discriminate.
Qed.

(** C5 (as the code has it).  [DESPOT1::apply] has no failure path for a
    diverged fit.  It has no [throw] of its own, and it makes no test of
    the estimate: whatever the two outputs of the strategy are, a T1 that
    is negative, zero or special included, [apply] returns them as its
    outputs, with one residual per datum. *)
Theorem C5_any_T1_is_returned
        (DiffFunctor : Type) (NumericalDiff : DESPOT1.T1Functor -> DiffFunctor)
        (minimize : DESPOT1.LevenbergMarquardt DiffFunctor -> list Dbl.t
                    -> completion (list Dbl.t))
        (d : DESPOT1.t) (sequence : SequenceBase) (data inputs : list R) :
  (forall what : string,
      DESPOT1.apply NumericalDiff minimize d sequence data inputs = Throws what ->
      DESPOT1.m_type d = DESPOT1.NLLS /\
      exists lm x, minimize lm x = Throws what) /\
  (forall (B1 : R) (rest : list R) (lin : DESPOT1.Linear) (PD T1 : Dbl.t),
      inputs = B1 :: rest ->
      DESPOT1.linearise data (DESPOT1.scaled_flip sequence B1) = Returns lin ->
      DESPOT1.refine NumericalDiff minimize d sequence data B1 lin
                     (DESPOT1.lls sequence lin)
      = Returns [PD; T1] ->
      exists resids : list Dbl.t,
        DESPOT1.apply NumericalDiff minimize d sequence data inputs
        = Returns ([PD; T1], resids) /\
        length resids = length data).
Proof.
  split.
  - intros what. apply ApplyFacts.apply_throws_in_minimize.
  - intros B1 rest lin PD T1 -> Hlin Href.
    pose proof (LinearFacts.linearise_Returns _ _ Hlin) as Hlen.
    rewrite LinearFacts.scaled_flip_length in Hlen.
    unfold DESPOT1.apply. rewrite Hlin. cbn [bind]. rewrite Href. cbn [bind].
    rewrite ResidualFacts.residuals_same_size by exact Hlen. cbn [bind].
    eexists. split; [reflexivity|].
    rewrite EigenFacts.zip_length; [apply DblFacts.of_reals_length|].
    rewrite DblFacts.of_reals_length, length_map, ResidualFacts.One_SPGR_length.
    exact Hlen.
Qed.

(** C5 as the specification words it fails: on the two-angle sequence with
    rising data the closed-form T1 is a negative real number, and the call
    returns it as an ordinary output instead of failing. *)
Lemma C5_negative_T1_returned_counterexample :
  exists (PD T1 : R) (resids : list Dbl.t),
    Examples.apply (DESPOT1.mk DESPOT1.LLS 4) Examples.two_angles
                   Examples.rising [1]
    = Returns ([Dbl.Finite PD; Dbl.Finite T1], resids) /\
    T1 < 0.
Proof.
  destruct (@EigenFacts.partialPivLu_solve_regular
              _ _ _ _
              (Spec.S2 (Spec.X Examples.rising (flip Examples.two_angles) 1)
                       (Spec.Y Examples.rising (flip Examples.two_angles) 1))
              (Spec.S1 (Spec.Y Examples.rising (flip Examples.two_angles) 1))
              ExampleFacts.two_angles_regular)
    as (b0 & b1 & _ & E0 & E1).
  assert (Heq : Spec.normal_equations
                  (Spec.X Examples.rising (flip Examples.two_angles) 1)
                  (Spec.Y Examples.rising (flip Examples.two_angles) 1) b0 b1)
    by (split; assumption).
  pose proof (ExampleFacts.two_angles_slope Heq) as Hb.
  destruct (@ClosedFormFacts.recover_above_one
              (TR Examples.two_angles) b0 b1 ExampleFacts.TR5ms_pos Hb)
    as (Hrec & HT1).
  destruct (@ClosedFormFacts.apply_LLS_solution
              Examples.DiffFunctor Examples.NumericalDiff Examples.minimize
              4%Z Examples.two_angles Examples.rising 1 [] b0 b1
              eq_refl ExampleFacts.two_angles_divisible
              ExampleFacts.two_angles_regular Heq) as (resids & Hret & _ & _).
  exists (b1 / (1 - b0)), (- TR Examples.two_angles / ln b0), resids.
  split; [|exact HT1].
  unfold Examples.apply. rewrite Hret, Hrec. reflexivity.
Qed.

(** C7 (as the code has it).  At a condition whose flip angle is 0 radian
    the linearisation divides the datum by [sin(0*B1) = 0] and by
    [tan(0*B1) = 0]: the divisors are not altered, the condition stays in
    [Y] and [X], the quotients go into the normal equations, and [apply]
    with the strategy LLS returns, both its outputs special. *)
Theorem C7_zero_flip_is_divided_by_zero
        (DiffFunctor : Type) (NumericalDiff : DESPOT1.T1Functor -> DiffFunctor)
        (minimize : DESPOT1.LevenbergMarquardt DiffFunctor -> list Dbl.t
                    -> completion (list Dbl.t))
        (n : Z) (sequence : SequenceBase) (data : list R)
        (B1 : R) (rest : list R) (i : nat) :
  length data = length (flip sequence) ->
  (i < length data)%nat ->
  nth i (flip sequence) 0 = 0 ->
  (nth i (DESPOT1.Y_divisors (DESPOT1.scaled_flip sequence B1)) (Dbl.Finite 1)
   = Dbl.Finite 0 /\
   nth i (DESPOT1.X_divisors (DESPOT1.scaled_flip sequence B1)) (Dbl.Finite 1)
   = Dbl.Finite 0 /\
   exists lin : DESPOT1.Linear,
     DESPOT1.linearise data (DESPOT1.scaled_flip sequence B1) = Returns lin /\
     nth i (DESPOT1.Y lin) (Dbl.Finite 0)
     = Dbl.div (Dbl.Finite (nth i data 0)) (Dbl.Finite 0) /\
     nth i (DESPOT1.X0 lin) (Dbl.Finite 0)
     = Dbl.div (Dbl.Finite (nth i data 0)) (Dbl.Finite 0) /\
     length (DESPOT1.Y lin) = length data /\
     length (DESPOT1.X0 lin) = length data) /\
  exists resids : list Dbl.t,
    DESPOT1.apply NumericalDiff minimize (DESPOT1.mk DESPOT1.LLS n)
                  sequence data (B1 :: rest)
    = Returns ([Dbl.Special; Dbl.Special], resids) /\
    length resids = length data.
Proof.
  intros Hlen Hi Hz. split.
  - apply ZeroFlipFacts.zero_flip_quotients; assumption.
  - apply (@ZeroFlipFacts.apply_LLS_zero_flip
             DiffFunctor NumericalDiff minimize n sequence data B1 rest i);
      assumption.
Qed.

(** C7 on the sequence whose first flip angle is 0. *)
Lemma C7_zero_flip_is_divided_by_zero_witness :
  (nth 0 (DESPOT1.Y_divisors (DESPOT1.scaled_flip Examples.zero_flip 1))
       (Dbl.Finite 1)
   = Dbl.Finite 0 /\
   nth 0 (DESPOT1.X_divisors (DESPOT1.scaled_flip Examples.zero_flip 1))
       (Dbl.Finite 1)
   = Dbl.Finite 0 /\
   exists lin : DESPOT1.Linear,
     DESPOT1.linearise Examples.ones2 (DESPOT1.scaled_flip Examples.zero_flip 1)
     = Returns lin /\
     nth 0 (DESPOT1.Y lin) (Dbl.Finite 0)
     = Dbl.div (Dbl.Finite 1) (Dbl.Finite 0) /\
     nth 0 (DESPOT1.X0 lin) (Dbl.Finite 0)
     = Dbl.div (Dbl.Finite 1) (Dbl.Finite 0) /\
     length (DESPOT1.Y lin) = 2%nat /\
     length (DESPOT1.X0 lin) = 2%nat) /\
  exists resids : list Dbl.t,
    Examples.apply (DESPOT1.mk DESPOT1.LLS 4) Examples.zero_flip
                   Examples.ones2 [1]
    = Returns ([Dbl.Special; Dbl.Special], resids) /\
    length resids = 2%nat.
Proof.
  apply (@C7_zero_flip_is_divided_by_zero
           Examples.DiffFunctor Examples.NumericalDiff Examples.minimize
           4%Z Examples.zero_flip Examples.ones2 1 [] 0%nat).
  - reflexivity.
  - simpl; lia.
  - reflexivity.
Defined.

(** C7 as the specification words it fails: the sequence has a 0-radian
    entry, the divisors of [Y] and [X] at that entry are 0, the entry is
    not skipped and the call is not rejected. *)
Lemma C7_division_by_zero_counterexample :
  In 0 (flip Examples.zero_flip) /\
  In (Dbl.Finite 0) (DESPOT1.Y_divisors (DESPOT1.scaled_flip Examples.zero_flip 1)) /\
  In (Dbl.Finite 0) (DESPOT1.X_divisors (DESPOT1.scaled_flip Examples.zero_flip 1)) /\
  (exists y : list Dbl.t,
      DESPOT1.linear_Y Examples.ones2 (DESPOT1.scaled_flip Examples.zero_flip 1)
      = Returns y /\
      length y = length Examples.ones2) /\
  exists outputs resids : list Dbl.t,
    Examples.apply (DESPOT1.mk DESPOT1.LLS 4) Examples.zero_flip
                   Examples.ones2 [1]
    = Returns (outputs, resids).
Proof.
  split; [left; reflexivity|].
  split; [left; simpl; rewrite Rmult_0_l, sin_0; reflexivity|].
  split; [left; apply ZeroFlipFacts.tan_at_zero|].
  split.
  - eexists. split.
    + unfold DESPOT1.linear_Y. apply EigenFacts.cwise_same_size. reflexivity.
    + reflexivity.
  - destruct (@ZeroFlipFacts.apply_LLS_zero_flip
                Examples.DiffFunctor Examples.NumericalDiff Examples.minimize
                4%Z Examples.zero_flip Examples.ones2 1 [] 0%nat eq_refl)
      as (resids & Hret & _).
    + simpl; lia.
    + reflexivity.
    + eexists; eexists; exact Hret.
Qed.




(** C10.  On data with one row per condition and per flip angle, the run
    with the strategy NLLS completes as the minimiser does on a starting
    point that is the output vector the run with the strategy LLS returns
    on the same input: the ordinary least-squares result [{PD, T1}],
    computed before the strategy is looked at, recovered from the solution
    of the normal equations where no divisor is zero and they are
    regular. *)
Theorem C10_nlls_starts_from_closed_form
        (DiffFunctor : Type) (NumericalDiff : DESPOT1.T1Functor -> DiffFunctor)
        (minimize : DESPOT1.LevenbergMarquardt DiffFunctor -> list Dbl.t
                    -> completion (list Dbl.t))
        (n : Z) (sequence : SequenceBase) (data : list R)
        (B1 : R) (rest : list R) :
  Z.of_nat (length data) = size sequence ->
  length data = length (flip sequence) ->
  exists (start resids_lls : list Dbl.t),
    DESPOT1.apply NumericalDiff minimize (DESPOT1.mk DESPOT1.LLS n)
                  sequence data (B1 :: rest)
    = Returns (start, resids_lls) /\
    DESPOT1.apply NumericalDiff minimize (DESPOT1.mk DESPOT1.NLLS n)
                  sequence data (B1 :: rest)
    = (outputs <- minimize
                    (DESPOT1.nlls_optimizer
                       NumericalDiff (DESPOT1.mk DESPOT1.NLLS n) sequence
                       (DESPOT1.mkT1Functor sequence data B1))
                    start ;;
       resids <- DESPOT1.residuals sequence data B1 outputs ;;
       Returns (outputs, resids)) /\
    (forall (PD T1 : Dbl.t) (more : list Dbl.t),
        minimize
          (DESPOT1.nlls_optimizer
             NumericalDiff (DESPOT1.mk DESPOT1.NLLS n) sequence
             (DESPOT1.mkT1Functor sequence data B1))
          start
        = Returns (PD :: T1 :: more) ->
        exists resids_nlls : list Dbl.t,
          DESPOT1.apply NumericalDiff minimize (DESPOT1.mk DESPOT1.NLLS n)
                        sequence data (B1 :: rest)
          = Returns (PD :: T1 :: more, resids_nlls)) /\
    (Forall (Spec.divisible B1) (flip sequence) ->
     Spec.regular (Spec.X data (flip sequence) B1)
                  (Spec.Y data (flip sequence) B1) ->
     exists b0 b1 : R,
       Spec.normal_equations (Spec.X data (flip sequence) B1)
                             (Spec.Y data (flip sequence) B1)
                             b0 b1 /\
       start = [Dbl.div (Dbl.Finite b1) (Dbl.Finite (1 - b0));
                Dbl.div (Dbl.Finite (- TR sequence)) (Dbl.ln (Dbl.Finite b0))]).
Proof.
  intros Hrows Hlen.
  assert (Hsf : length data = length (DESPOT1.scaled_flip sequence B1)).
  { rewrite LinearFacts.scaled_flip_length. exact Hlen. }
  pose proof (@LinearFacts.linearise_same_size _ _ Hsf) as Hlin.
  set (lin := DESPOT1.mkLinear _ _ _) in Hlin. clearbody lin.
  destruct (LinearFacts.lls_two sequence lin) as (PD0 & T10 & Hl).
  exists (DESPOT1.lls sequence lin). eexists.
  split; [|split; [|split]].
  - rewrite (@ApplyFacts.apply_LLS DiffFunctor NumericalDiff minimize n
               sequence data B1 rest lin Hlin).
    rewrite Hl at 1.
    rewrite ResidualFacts.residuals_same_size by exact Hlen. cbn [bind].
    rewrite Hl. reflexivity.
  - apply (@ApplyFacts.apply_NLLS
             DiffFunctor NumericalDiff minimize n sequence data B1 rest lin
             Hlin Hrows).
  - intros PD T1 more Hm.
    rewrite (@ApplyFacts.apply_NLLS
               DiffFunctor NumericalDiff minimize n sequence data B1 rest lin
               Hlin Hrows).
    rewrite Hm. cbn [bind].
    rewrite ResidualFacts.residuals_same_size by exact Hlen. cbn [bind].
    eexists. reflexivity.
  - intros Hdiv Hreg.
    assert (HY : length (Spec.Y data (flip sequence) B1) = length data).
    { rewrite SpecFacts.Y_length. lia. }
    assert (HX : length (Spec.X data (flip sequence) B1)
                 = length (Spec.Y data (flip sequence) B1)).
    { rewrite SpecFacts.X_length, SpecFacts.Y_length. reflexivity. }
    destruct (@LinearFacts.lls_regular sequence _ _ HX Hreg)
      as (b0 & b1 & Heq & Hs).
    exists b0, b1. split; [exact Heq|].
    pose proof (@LinearFacts.linearise_divisible sequence data B1 Hlen Hdiv)
      as Hlin'.
    rewrite Hlin in Hlin'. injection Hlin' as ->.
    rewrite <- HY. exact Hs.
Qed.

(** C10 on the two-angle sequence, where the closed-form equations are
    regular; the optimiser of the example hands its starting point back. *)
Lemma C10_nlls_starts_from_closed_form_witness :
  exists (start resids_lls resids_nlls : list Dbl.t) (b0 b1 : R),
    Examples.apply (DESPOT1.mk DESPOT1.LLS 4) Examples.two_angles
                   Examples.rising [1]
    = Returns (start, resids_lls) /\
    Examples.apply (DESPOT1.mk DESPOT1.NLLS 4) Examples.two_angles
                   Examples.rising [1]
    = Returns (start, resids_nlls) /\
    Spec.normal_equations (Spec.X Examples.rising (flip Examples.two_angles) 1)
                          (Spec.Y Examples.rising (flip Examples.two_angles) 1)
                          b0 b1 /\
    start = [Dbl.div (Dbl.Finite b1) (Dbl.Finite (1 - b0));
             Dbl.div (Dbl.Finite (- TR Examples.two_angles))
                     (Dbl.ln (Dbl.Finite b0))].
Proof.
  destruct (@C10_nlls_starts_from_closed_form
              Examples.DiffFunctor Examples.NumericalDiff Examples.minimize
              4%Z Examples.two_angles Examples.rising 1 [] eq_refl eq_refl)
    as (start & rl & Hl & _ & Hn & Hs).
  destruct (Hs ExampleFacts.two_angles_divisible ExampleFacts.two_angles_regular)
    as (b0 & b1 & Heq & Hstart).
  destruct (Hn (Dbl.div (Dbl.Finite b1) (Dbl.Finite (1 - b0)))
               (Dbl.div (Dbl.Finite (- TR Examples.two_angles))
                        (Dbl.ln (Dbl.Finite b0)))
               []) as (rn & Hret).
  { rewrite Hstart. reflexivity. }
  exists start, rl, rn, b0, b1.
  split; [exact Hl|]. split; [rewrite Hstart; exact Hret|].
  split; [exact Heq | exact Hstart].
Defined.

(* ================================================================== *)
(** * qsignal.cpp: the noise option and the input parser *)

Module QSignalFacts.
Import QSignal.

Lemma known_type_None type :
  ~ In type known_names -> known_type type = None.
Proof.
  intros Hn. unfold known_type.
  repeat match goal with
         | |- context [String.eqb type ?s] =>
             destruct (String.eqb_spec type s) as [E|_];
             [exfalso; apply Hn; rewrite E; simpl; tauto|]
         end.
  reflexivity.
Qed.

Lemma known_type_Some type k :
  known_type type = Some k -> In type known_names.
Proof.
  unfold known_type.
  repeat match goal with
         | |- context [String.eqb type ?s] =>
             destruct (String.eqb_spec type s) as [E|_];
             [intros _; rewrite E; simpl; tauto|]
         end.
  discriminate.
Qed.

Lemma continues_true type :
  type <> "END"%string -> type <> ""%string -> continues type = true.
Proof.
  intros H1 H2. unfold continues.
  destruct (String.eqb_spec type "END"); [contradiction|].
  destruct (String.eqb_spec type ""); [contradiction|].
  reflexivity.
Qed.

Section Parser.
Variable istream : Type.
Variable Read : istream -> completion (bool * string * istream).
Variable construct :
  SeqKind -> bool -> istream -> completion (SequenceBase * istream).

(** A turn of the loop that meets an unknown type throws. *)
Lemma parseInput_unknown fuel g cin cs names type cin1 :
  Read cin = Returns (true, type, cin1) ->
  continues type = true ->
  known_type type = None ->
  parseInput Read construct (S fuel) g cin cs names
  = Throws ("Unknown signal type: " ++ type).
Proof.
  intros HR Hc Hk. simpl. rewrite HR. simpl. rewrite Hc, Hk. reflexivity.
Qed.

(** A completed turn costs one unit of fuel. *)
Lemma parseInput_turn fuel g st1 st2 :
  turn Read construct g st1 st2 ->
  parseInput Read construct (S fuel) g (fst (fst st1)) (snd (fst st1)) (snd st1)
  = parseInput Read construct fuel g (fst (fst st2)) (snd (fst st2)) (snd st2).
Proof.
  intros Ht. destruct Ht as [cin type cin1 k s cin2 ok2 filename cin3 cs names
                               HR Hc Hk HC HF].
  cbn [fst snd]. simpl. rewrite HR. simpl. rewrite Hc, Hk, HC. simpl.
  rewrite HF. reflexivity.
Qed.

Lemma parseInput_turns n g st1 st2 :
  turns Read construct g n st1 st2 ->
  forall fuel,
    parseInput Read construct (n + fuel) g
               (fst (fst st1)) (snd (fst st1)) (snd st1)
    = parseInput Read construct fuel g
                 (fst (fst st2)) (snd (fst st2)) (snd st2).
Proof.
  induction 1 as [st|n st1 st2 st3 Ht Hts IH]; intros fuel.
  - reflexivity.
  - cbn [Nat.add]. rewrite (parseInput_turn _ Ht). apply IH.
Qed.
End Parser.

End QSignalFacts.

(** C6 (what the code does).  The option [--noise] stores its value in
    [sigma] and nothing reads it: for every value, every sequence and every
    voxel, what is written is what is written without the option, the
    forward-model signal narrowed to [float] with no noise term. *)
Theorem C6_noise_sigma_is_never_applied
        (atof : string -> R) (cast_float : Eigen.Cplx -> Eigen.Cplx)
        (g : QSignal.globals) (optarg : string)
        (m_sequence : SequenceBase) (maskv : option R) (inputs : list Dbl.t) :
  exists g' : QSignal.globals,
    QSignal.handle_option atof "N" (Some optarg) g = QSignal.Continue g' /\
    QSignal.sigma g' = atof optarg /\
    QSignal.written cast_float g' m_sequence inputs
    = QSignal.written cast_float g m_sequence inputs /\
    QSignal.voxel cast_float (QSignal.model g') m_sequence maskv inputs
    = QSignal.voxel cast_float (QSignal.model g) m_sequence maskv inputs /\
    QSignal.voxel cast_float (QSignal.model g') m_sequence None inputs
    = Some (firstn (Z.to_nat (size m_sequence))
                   (map cast_float (signal m_sequence (QSignal.model g) inputs))).
Proof.
  eexists. split; [reflexivity|]. cbn [QSignal.sigma QSignal.model].
  split; [reflexivity|]. split; [reflexivity|]. split; reflexivity.
Qed.

(** C9 (as the code has it).  Wherever it stands in the input, a type name
    that is none of the nine known ones, and is neither the terminator
    [END] nor the empty string, makes [parseInput] throw the error
    "Unknown signal type: " followed by the name. *)
Theorem C9_unknown_type_throws
        (istream : Type)
        (Read : istream -> completion (bool * string * istream))
        (construct : QSignal.SeqKind -> bool -> istream
                     -> completion (SequenceBase * istream))
        (g : QSignal.globals) (n fuel : nat)
        (cin0 cin cin1 : istream) (cs0 cs : list SequenceBase)
        (names0 names : list string) (type : string) :
  QSignal.turns Read construct g n (cin0, cs0, names0) (cin, cs, names) ->
  Read cin = Returns (true, type, cin1) ->
  ~ In type QSignal.known_names ->
  type <> "END"%string ->
  type <> ""%string ->
  QSignal.parseInput Read construct (n + S fuel) g cin0 cs0 names0
  = Throws ("Unknown signal type: " ++ type).
Proof.
  intros Hts HR Hk He Hn.
  pose proof (QSignalFacts.parseInput_turns Hts (S fuel)) as E.
  cbn [fst snd] in E. rewrite E.
  apply QSignalFacts.parseInput_unknown with (cin1 := cin1).
  - exact HR.
  - apply QSignalFacts.continues_true; assumption.
  - apply QSignalFacts.known_type_None. exact Hk.
Qed.

(** C9 on an input with one SPGR entry followed by the unknown name T2PREP. *)
Lemma C9_unknown_type_throws_witness :
  Examples.parseInput 2 QSignal.initial
    ["SPGR"; "3 4 5 6"; "0.005"; "spgr.nii"; "T2PREP"; "x.nii"; "END"]%string
    [] []
  = Throws "Unknown signal type: T2PREP".
Proof.
  apply (@C9_unknown_type_throws
           (list string) Examples.Read Examples.construct QSignal.initial
           1%nat 0%nat
           ["SPGR"; "3 4 5 6"; "0.005"; "spgr.nii"; "T2PREP"; "x.nii"; "END"]%string
           ["T2PREP"; "x.nii"; "END"]%string
           ["x.nii"; "END"]%string
           [] [Examples.spgr [] 0] [] ["spgr.nii"%string] "T2PREP"%string).
  - eapply QSignal.turns_S; [|apply QSignal.turns_O].
    apply (@QSignal.turn_intro
             (list string) Examples.Read Examples.construct QSignal.initial
             ["SPGR"; "3 4 5 6"; "0.005"; "spgr.nii"; "T2PREP"; "x.nii"; "END"]%string
             "SPGR"%string
             ["3 4 5 6"; "0.005"; "spgr.nii"; "T2PREP"; "x.nii"; "END"]%string
             QSignal.SPGRSimple (Examples.spgr [] 0)
             ["spgr.nii"; "T2PREP"; "x.nii"; "END"]%string
             true "spgr.nii"%string
             ["T2PREP"; "x.nii"; "END"]%string [] []); reflexivity.
  - reflexivity.
  - simpl. intros H.
    repeat match goal with
           | H : _ \/ _ |- _ => destruct H as [H|H]
           | H : _ = _ |- _ => discriminate H
           end.
    exact H.
  - discriminate.
  - discriminate.
Defined.

(** C9 as the specification words it fails: [END] is none of the nine
    known names, and the parser that reads it returns with nothing parsed
    instead of throwing. *)
Lemma C9_END_is_accepted_counterexample :
  ~ In "END"%string QSignal.known_names /\
  Examples.parseInput 1 QSignal.initial ["END"]%string [] []
  = Returns (Some ([], [], [])).
Proof.
  split.
  - simpl. intros H.
    repeat match goal with
           | H : _ \/ _ |- _ => destruct H as [H|H]
           | H : _ = _ |- _ => discriminate H
           end.
    exact H.
  - reflexivity.
Qed.

(* ================================================================== *)
(** * The linear fits on noiseless data *)

Module NoiselessFacts.
Import Eigen EigenFacts.

(** One condition of the SPGR equation, linearised. *)
Lemma denominator_pos E c : 0 < E < 1 -> -1 <= c <= 1 -> 0 < 1 - E * c.
Proof. intros HE Hc. nra. Qed.

Lemma signal_pos PD E s c :
  0 < PD -> 0 < E < 1 -> 0 < s -> -1 <= c <= 1 ->
  0 < PD * s * (1 - E) / (1 - E * c).
Proof.
  intros HPD HE Hs Hc.
  apply Rdiv_lt_0_compat; [|apply denominator_pos; assumption].
  apply Rmult_lt_0_compat; [apply Rmult_lt_0_compat; lra|lra].
Qed.

Lemma magnitude_point PD E s c :
  0 < PD -> 0 < E < 1 -> 0 < s -> -1 <= c <= 1 ->
  Rabs (PD * s * (1 - E) / (1 - E * c)) = PD * s * (1 - E) / (1 - E * c).
Proof.
  intros HPD HE Hs Hc. apply Rabs_pos_eq.
  pose proof (signal_pos HPD HE Hs Hc). lra.
Qed.

Lemma Y_point PD E s c :
  0 < E < 1 -> 0 < s -> -1 <= c <= 1 ->
  PD * s * (1 - E) / (1 - E * c) / s = PD * (1 - E) / (1 - E * c).
Proof.
  intros HE Hs Hc. pose proof (denominator_pos HE Hc). field. split; lra.
Qed.

Lemma X_point PD E s c :
  0 < E < 1 -> 0 < s -> -1 <= c <= 1 -> c <> 0 ->
  PD * s * (1 - E) / (1 - E * c) / (s / c) = PD * (1 - E) / (1 - E * c) * c.
Proof.
  intros HE Hs Hc Hc0. pose proof (denominator_pos HE Hc).
  field. repeat split; lra.
Qed.

Lemma relaxation_factor_bounds tr T1 : 0 < tr -> 0 < T1 -> 0 < exp (- tr / T1) < 1.
Proof.
  intros Htr HT1. apply ExampleFacts.E1_bounds.
  apply Rdiv_lt_0_compat; assumption.
Qed.

Lemma noiseless_Y fl tr PD T1 B1 :
  0 < PD -> 0 < tr -> 0 < T1 -> Forall (Synth.admissible B1) fl ->
  Spec.Y (Synth.magnitude fl tr PD T1 B1) fl B1 = map (Synth.yline tr PD T1 B1) fl.
Proof.
  intros HPD Htr HT1 Hfl. pose proof (relaxation_factor_bounds Htr HT1) as HE.
  unfold Spec.Y, Synth.magnitude, Spec.spgr.
  induction Hfl as [|a fl [Hs Hc] _ IH]; [reflexivity|].
  cbn [map Spec.map2]. rewrite IH. f_equal.
  rewrite magnitude_point by (try assumption; apply COS_bound).
  apply Y_point; try assumption. apply COS_bound.
Qed.

Lemma noiseless_X fl tr PD T1 B1 :
  0 < PD -> 0 < tr -> 0 < T1 -> Forall (Synth.admissible B1) fl ->
  Spec.X (Synth.magnitude fl tr PD T1 B1) fl B1 = map (Synth.xline tr PD T1 B1) fl.
Proof.
  intros HPD Htr HT1 Hfl. pose proof (relaxation_factor_bounds Htr HT1) as HE.
  unfold Spec.X, Synth.magnitude, Spec.spgr.
  induction Hfl as [|a fl [Hs Hc] _ IH]; [reflexivity|].
  cbn [map Spec.map2]. rewrite IH. f_equal.
  rewrite magnitude_point by (try assumption; apply COS_bound).
  unfold tan. apply X_point; try assumption. apply COS_bound.
Qed.

(** Data on a line satisfy the normal equations of that line, weighted or
    not. *)
Lemma line_normal_equations (u v : R -> R) (b0 b1 : R) (fl : list R) :
  (forall a, v a = b0 * u a + b1) ->
  Spec.normal_equations (map u fl) (map v fl) b0 b1.
Proof.
  intros Hline. unfold Spec.normal_equations, Spec.S2, Spec.S1, Spec.sum.
  induction fl as [|a fl [IH0 IH1]].
  - simpl. split; ring.
  - cbn [map Spec.map2 fold_right length]. rewrite S_INR.
    rewrite length_map in *. rewrite (Hline a). split; nra.
Qed.

Lemma line_weighted_normal_equations (w u v : R -> R) (b0 b1 : R) (fl : list R) :
  (forall a, v a = b0 * u a + b1) ->
  Spec.weighted_normal_equations (map w fl) (map u fl) (map v fl) b0 b1.
Proof.
  intros Hline.
  unfold Spec.weighted_normal_equations, Spec.S3, Spec.S2, Spec.S1, Spec.sum.
  induction fl as [|a fl [IH0 IH1]].
  - simpl. split; ring.
  - cbn [map Spec.map2 fold_right]. rewrite (Hline a). split; nra.
Qed.

(** Regular equations have one solution. *)
Lemma normal_equations_unique x y b0 b1 c0 c1 :
  Spec.regular x y ->
  Spec.normal_equations x y b0 b1 ->
  Spec.normal_equations x y c0 c1 ->
  b0 = c0 /\ b1 = c1.
Proof.
  intros Hreg [B0 B1] [C0 C1].
  apply (@SpecFacts.regular_solution_unique
           (Spec.S2 x x) (Spec.S1 x) (Spec.S1 x) (INR (length y)));
    [exact Hreg|lra|lra].
Qed.

(** The line of the SPGR equation gives back the tissue. *)
Lemma recover_line tr PD T1 :
  0 < tr -> 0 < T1 ->
  Spec.recover tr (exp (- tr / T1)) (PD * (1 - exp (- tr / T1)))
  = [Dbl.Finite PD; Dbl.Finite T1].
Proof.
  intros Htr HT1. pose proof (relaxation_factor_bounds Htr HT1) as HE.
  rewrite LinearFacts.recover_finite by lra.
  rewrite ln_exp. f_equal; [|f_equal]; f_equal; field; lra.
Qed.

Lemma noiseless_line tr PD T1 B1 :
  0 < tr -> 0 < T1 ->
  forall a, Synth.yline tr PD T1 B1 a
            = exp (- tr / T1) * Synth.xline tr PD T1 B1 a + PD * (1 - exp (- tr / T1)).
Proof.
  intros Htr HT1 a. pose proof (relaxation_factor_bounds Htr HT1) as HE.
  pose proof (COS_bound (a * B1)) as Hc.
  unfold Synth.xline, Synth.yline.
  assert (0 < 1 - exp (- tr / T1) * cos (a * B1)) by nra.
  field. lra.
Qed.

Lemma admissible_divisible B1 fl :
  Forall (Synth.admissible B1) fl -> Forall (Spec.divisible B1) fl.
Proof.
  apply Forall_impl. intros a [Hs Hc]. split; [lra|exact Hc].
Qed.

Lemma noiseless_normal_equations fl tr PD T1 B1 :
  0 < PD -> 0 < tr -> 0 < T1 -> Forall (Synth.admissible B1) fl ->
  Spec.normal_equations
    (Spec.X (Synth.magnitude fl tr PD T1 B1) fl B1)
    (Spec.Y (Synth.magnitude fl tr PD T1 B1) fl B1)
    (exp (- tr / T1)) (PD * (1 - exp (- tr / T1))).
Proof.
  intros HPD Htr HT1 Hfl.
  rewrite noiseless_X, noiseless_Y by assumption.
  apply line_normal_equations. apply noiseless_line; assumption.
Qed.

Lemma noiseless_weighted_normal_equations fl tr PD T1 B1 :
  0 < PD -> 0 < tr -> 0 < T1 -> Forall (Synth.admissible B1) fl ->
  Spec.weighted_normal_equations
    (Spec.W fl tr T1 B1)
    (Spec.X (Synth.magnitude fl tr PD T1 B1) fl B1)
    (Spec.Y (Synth.magnitude fl tr PD T1 B1) fl B1)
    (exp (- tr / T1)) (PD * (1 - exp (- tr / T1))).
Proof.
  intros HPD Htr HT1 Hfl.
  rewrite noiseless_X, noiseless_Y by assumption. unfold Spec.W.
  apply line_weighted_normal_equations. apply noiseless_line; assumption.
Qed.

(** The residuals of the true tissue on its own noiseless data. *)
Lemma zero_residuals xs :
  Forall (fun r => r = Dbl.Finite 0) (Dbl.of_reals (Spec.map2 Rminus xs xs)).
Proof.
  induction xs as [|x xs IH]; cbn [Spec.map2 Dbl.of_reals map]; constructor.
  - f_equal. ring.
  - exact IH.
Qed.

Lemma zero_residuals_length xs :
  length (Dbl.of_reals (Spec.map2 Rminus xs xs)) = length xs.
Proof.
  rewrite DblFacts.of_reals_length, SpecFacts.map2_length. lia.
Qed.

Lemma positive_denominators fl tr T1 B1 :
  0 < tr -> 0 < T1 ->
  Forall (fun a => 1 - exp (- tr / T1) * cos (a * B1) <> 0) fl.
Proof.
  intros Htr HT1. apply ExampleFacts.denominators_nonzero.
  pose proof (relaxation_factor_bounds Htr HT1). lra.
Qed.

Section Optimiser.
Variable DiffFunctor : Type.
Variable NumericalDiff : DESPOT1.T1Functor -> DiffFunctor.
Variable minimize :
  DESPOT1.LevenbergMarquardt DiffFunctor -> list Dbl.t -> completion (list Dbl.t).

(** The closed form on noiseless data. *)
Lemma apply_LLS_noiseless n sequence PD T1 B1 rest :
  0 < PD -> 0 < TR sequence -> 0 < T1 ->
  Forall (Synth.admissible B1) (flip sequence) ->
  Spec.regular
    (Spec.X (Synth.magnitude (flip sequence) (TR sequence) PD T1 B1) (flip sequence) B1)
    (Spec.Y (Synth.magnitude (flip sequence) (TR sequence) PD T1 B1) (flip sequence) B1) ->
  DESPOT1.apply NumericalDiff minimize (DESPOT1.mk DESPOT1.LLS n) sequence
                (Synth.magnitude (flip sequence) (TR sequence) PD T1 B1)
                (B1 :: rest)
  = Returns
      ([Dbl.Finite PD; Dbl.Finite T1],
       Dbl.of_reals
         (Spec.map2 Rminus
            (Synth.magnitude (flip sequence) (TR sequence) PD T1 B1)
            (Synth.magnitude (flip sequence) (TR sequence) PD T1 B1))).
Proof.
  intros HPD Htr HT1 Hfl Hreg.
  apply (@ClosedFormFacts.apply_LLS_of_reals
           DiffFunctor NumericalDiff minimize n sequence _ B1 rest
           (exp (- TR sequence / T1)) (PD * (1 - exp (- TR sequence / T1)))
           PD T1).
  - apply ResidualFacts.magnitude_length.
  - apply admissible_divisible. exact Hfl.
  - exact Hreg.
  - apply noiseless_normal_equations; assumption.
  - apply recover_line; assumption.
  - lra.
  - apply positive_denominators; assumption.
Qed.

(** The true tissue is a fixed point of the reweighting pass. *)
Lemma wlls_loop_noiseless todo sequence PD T1 B1 :
  0 < PD -> 0 < TR sequence -> 0 < T1 ->
  Forall (Synth.admissible B1) (flip sequence) ->
  Spec.weighted_regular
    (Spec.W (flip sequence) (TR sequence) T1 B1)
    (Spec.X (Synth.magnitude (flip sequence) (TR sequence) PD T1 B1) (flip sequence) B1) ->
  let data := Synth.magnitude (flip sequence) (TR sequence) PD T1 B1 in
  DESPOT1.wlls_loop todo sequence (DESPOT1.scaled_flip sequence B1)
                    (DESPOT1.mkLinear
                       (Dbl.of_reals (Spec.Y data (flip sequence) B1))
                       (Dbl.of_reals (Spec.X data (flip sequence) B1))
                       (Ones (length data)))
                    [Dbl.Finite PD; Dbl.Finite T1]
  = [Dbl.Finite PD; Dbl.Finite T1].
Proof.
  intros HPD Htr HT1 Hfl Hreg data.
  assert (Hlen : length data = length (flip sequence))
    by apply ResidualFacts.magnitude_length.
  assert (HY : length (Spec.Y data (flip sequence) B1) = length data).
  { rewrite SpecFacts.Y_length. lia. }
  assert (HX : length (Spec.X data (flip sequence) B1)
               = length (Spec.Y data (flip sequence) B1)).
  { rewrite SpecFacts.X_length, SpecFacts.Y_length. reflexivity. }
  induction todo as [|k IH]; [reflexivity|].
  cbn [DESPOT1.wlls_loop]. rewrite <- HY.
  rewrite (@LinearFacts.wlls_pass_solution
             sequence B1 _ _ (Dbl.Finite PD) T1
             (exp (- TR sequence / T1)) (PD * (1 - exp (- TR sequence / T1)))
             HX).
  - rewrite recover_line by assumption. rewrite HY. exact IH.
  - lia.
  - apply ExampleFacts.weighable_positive; assumption.
  - exact Hreg.
  - apply noiseless_weighted_normal_equations; assumption.
Qed.

Lemma apply_WLLS_noiseless n sequence PD T1 B1 rest :
  0 < PD -> 0 < TR sequence -> 0 < T1 ->
  Forall (Synth.admissible B1) (flip sequence) ->
  Spec.regular
    (Spec.X (Synth.magnitude (flip sequence) (TR sequence) PD T1 B1) (flip sequence) B1)
    (Spec.Y (Synth.magnitude (flip sequence) (TR sequence) PD T1 B1) (flip sequence) B1) ->
  Spec.weighted_regular
    (Spec.W (flip sequence) (TR sequence) T1 B1)
    (Spec.X (Synth.magnitude (flip sequence) (TR sequence) PD T1 B1) (flip sequence) B1) ->
  DESPOT1.apply NumericalDiff minimize (DESPOT1.mk DESPOT1.WLLS n) sequence
                (Synth.magnitude (flip sequence) (TR sequence) PD T1 B1)
                (B1 :: rest)
  = Returns
      ([Dbl.Finite PD; Dbl.Finite T1],
       Dbl.of_reals
         (Spec.map2 Rminus
            (Synth.magnitude (flip sequence) (TR sequence) PD T1 B1)
            (Synth.magnitude (flip sequence) (TR sequence) PD T1 B1))).
Proof.
  intros HPD Htr HT1 Hfl Hreg Hwreg.
  set (data := Synth.magnitude (flip sequence) (TR sequence) PD T1 B1) in *.
  assert (Hlen : length data = length (flip sequence))
    by apply ResidualFacts.magnitude_length.
  assert (HY : length (Spec.Y data (flip sequence) B1) = length data).
  { rewrite SpecFacts.Y_length. lia. }
  assert (HX : length (Spec.X data (flip sequence) B1)
               = length (Spec.Y data (flip sequence) B1)).
  { rewrite SpecFacts.X_length, SpecFacts.Y_length. reflexivity. }
  rewrite (@ApplyFacts.apply_WLLS
             DiffFunctor NumericalDiff minimize n sequence data B1 rest _
             (@LinearFacts.linearise_divisible
                sequence data B1 Hlen (admissible_divisible Hfl))).
  assert (Hl : DESPOT1.lls sequence
                 (DESPOT1.mkLinear
                    (Dbl.of_reals (Spec.Y data (flip sequence) B1))
                    (Dbl.of_reals (Spec.X data (flip sequence) B1))
                    (Ones (length data)))
               = [Dbl.Finite PD; Dbl.Finite T1]).
  { rewrite <- HY.
    rewrite (@LinearFacts.lls_solution
               sequence _ _
               (exp (- TR sequence / T1)) (PD * (1 - exp (- TR sequence / T1)))
               HX Hreg).
    - apply recover_line; assumption.
    - apply noiseless_normal_equations; assumption. }
  rewrite Hl.
  pose proof (@wlls_loop_noiseless (Z.to_nat n) sequence PD T1 B1
                HPD Htr HT1 Hfl Hwreg) as Hw.
  cbv zeta in Hw. fold data in Hw. rewrite Hw.
  rewrite (@ResidualFacts.residuals_of_reals sequence data B1 PD T1 Hlen).
  - reflexivity.
  - lra.
  - apply positive_denominators; assumption.
Qed.

End Optimiser.

End NoiselessFacts.

(* ================================================================== *)
(** * Further facts on the estimator *)

Module EstimatorFacts.
Import Eigen EigenFacts.

(** Two conditions with different abscissae give regular equations. *)
Lemma regular_two x1 x2 y1 y2 : x1 <> x2 -> Spec.regular [x1; x2] [y1; y2].
Proof.
  intros Hx. unfold Spec.regular, Spec.S2, Spec.S1, Spec.sum. simpl.
  intros H. apply Hx.
  assert (Hsq : (x1 - x2) * (x1 - x2) = 0) by lra.
  apply Rmult_integral in Hsq. destruct Hsq; lra.
Qed.

Lemma weighted_regular_two w1 w2 x1 x2 :
  0 < w1 -> 0 < w2 -> x1 <> x2 -> Spec.weighted_regular [w1; w2] [x1; x2].
Proof.
  intros H1 H2 Hx.
  unfold Spec.weighted_regular, Spec.S3, Spec.S2, Spec.S1, Spec.sum.
  simpl. intros H. apply Hx.
  assert (Hsq : (w1 * w2) * ((x1 - x2) * (x1 - x2)) = 0) by lra.
  apply Rmult_integral in Hsq. destruct Hsq as [Hw|Hsq].
  - exfalso. pose proof (Rmult_lt_0_compat _ _ H1 H2). lra.
  - apply Rmult_integral in Hsq. destruct Hsq; lra.
Qed.

(** Different cosines give different abscissae on noiseless data. *)
Lemma xline_injective tr PD T1 B1 a1 a2 :
  0 < PD -> 0 < tr -> 0 < T1 ->
  Synth.xline tr PD T1 B1 a1 = Synth.xline tr PD T1 B1 a2 ->
  cos (a1 * B1) = cos (a2 * B1).
Proof.
  intros HPD Htr HT1. pose proof (NoiselessFacts.relaxation_factor_bounds Htr HT1) as HE.
  unfold Synth.xline, Synth.yline.
  set (E := exp (- tr / T1)) in *.
  pose proof (COS_bound (a1 * B1)) as H1. pose proof (COS_bound (a2 * B1)) as H2.
  set (c1 := cos (a1 * B1)) in *. set (c2 := cos (a2 * B1)) in *.
  assert (D1 : 0 < 1 - E * c1) by nra.
  assert (D2 : 0 < 1 - E * c2) by nra.
  intros H.
  assert (Hk : 0 < PD * (1 - E)) by (apply Rmult_lt_0_compat; lra).
  assert (Hc : c1 * (1 - E * c2) = c2 * (1 - E * c1)).
  { replace (c1 * (1 - E * c2))
      with (PD * (1 - E) / (1 - E * c1) * c1
            * ((1 - E * c1) * (1 - E * c2) / (PD * (1 - E))))
      by (field; repeat split; lra).
    rewrite H. field. repeat split; lra. }
  lra.
Qed.

(** Scaling the data: the sums of the specification. *)
Lemma map2_Rdiv_scale k d v :
  Spec.map2 Rdiv (map (Rmult k) d) v = map (Rmult k) (Spec.map2 Rdiv d v).
Proof.
  revert v; induction d as [|x d IH]; intros [|y v]; cbn [map Spec.map2]; auto.
  rewrite IH. f_equal. unfold Rdiv. ring.
Qed.

Lemma S1_scale k x : Spec.S1 (map (Rmult k) x) = k * Spec.S1 x.
Proof.
  unfold Spec.S1, Spec.sum. induction x as [|a x IH]; cbn [map fold_right].
  - ring.
  - rewrite IH. ring.
Qed.

Lemma S2_scale k x y :
  Spec.S2 (map (Rmult k) x) (map (Rmult k) y) = k * k * Spec.S2 x y.
Proof.
  unfold Spec.S2, Spec.sum. revert y; induction x as [|a x IH]; intros [|b y];
    cbn [map Spec.map2 fold_right]; try ring.
  rewrite IH. ring.
Qed.

Lemma regular_scale k x y :
  k <> 0 -> Spec.regular x y ->
  Spec.regular (map (Rmult k) x) (map (Rmult k) y).
Proof.
  unfold Spec.regular. intros Hk Hreg.
  rewrite S2_scale, S1_scale, length_map. intros H. apply Hreg.
  assert (Hsq : (k * k) * (Spec.S2 x x * INR (length y) - Spec.S1 x * Spec.S1 x) = 0)
    by lra.
  apply Rmult_integral in Hsq. destruct Hsq as [Hkk|Hd]; [|exact Hd].
  apply Rmult_integral in Hkk. destruct Hkk; contradiction.
Qed.

Lemma normal_equations_scale k x y b0 b1 :
  Spec.normal_equations x y b0 b1 ->
  Spec.normal_equations (map (Rmult k) x) (map (Rmult k) y) b0 (k * b1).
Proof.
  unfold Spec.normal_equations. intros [H0 H1].
  rewrite !S2_scale, !S1_scale, length_map. split; nra.
Qed.

(** Scaling a double. *)
Lemma div_scale k a b :
  Dbl.div (Dbl.mul (Dbl.Finite k) a) b = Dbl.mul (Dbl.Finite k) (Dbl.div a b).
Proof.
  destruct a as [x|], b as [y|]; try reflexivity.
  cbn [Dbl.mul Dbl.lift2]. unfold Dbl.div.
  destruct (Req_dec_T y 0); [reflexivity|].
  cbn [Dbl.mul Dbl.lift2]. f_equal. unfold Rdiv. ring.
Qed.

Lemma sub_scale k d y :
  Dbl.sub (Dbl.Finite (k * d)) (Dbl.mul (Dbl.Finite k) y)
  = Dbl.mul (Dbl.Finite k) (Dbl.sub (Dbl.Finite d) y).
Proof.
  destruct y as [x|]; [|reflexivity].
  cbn [Dbl.mul Dbl.sub Dbl.lift2]. f_equal. ring.
Qed.

Lemma Cabs_scale k a :
  0 < k ->
  Cabs (of_real (Dbl.mul (Dbl.Finite k) a))
  = Dbl.mul (Dbl.Finite k) (Cabs (of_real a)).
Proof.
  intros Hk. destruct a as [x|]; [|reflexivity].
  cbn [Dbl.mul Dbl.lift2]. rewrite !Cabs_of_real_Finite.
  cbn [Dbl.mul Dbl.lift2]. f_equal.
  rewrite Rabs_mult, (Rabs_pos_eq k) by lra. reflexivity.
Qed.

Lemma mul_scale k a b :
  Dbl.mul (Dbl.mul (Dbl.Finite k) a) b
  = Dbl.mul (Dbl.Finite k) (Dbl.mul a b).
Proof.
  destruct a as [x|], b as [y|]; try reflexivity.
  cbn [Dbl.mul Dbl.lift2]. f_equal. ring.
Qed.

(** The signal equation is linear in PD. *)
Lemma One_SPGR_scale k fl tr PD T1 B1 :
  0 < k ->
  map Cabs (QI.One_SPGR fl tr (Dbl.mul (Dbl.Finite k) PD) T1 B1)
  = map (Dbl.mul (Dbl.Finite k)) (map Cabs (QI.One_SPGR fl tr PD T1 B1)).
Proof.
  intros Hk. unfold QI.One_SPGR. rewrite !map_map. apply map_ext. intros a.
  rewrite !mul_scale, div_scale. apply Cabs_scale. exact Hk.
Qed.

Lemma differences_scale k data ys :
  map (fun p => Dbl.sub (fst p) (snd p))
      (combine (Dbl.of_reals (map (Rmult k) data))
               (map (Dbl.mul (Dbl.Finite k)) ys))
  = map (Dbl.mul (Dbl.Finite k))
        (map (fun p => Dbl.sub (fst p) (snd p))
             (combine (Dbl.of_reals data) ys)).
Proof.
  unfold Dbl.of_reals.
  revert ys; induction data as [|d data IH]; intros [|y ys];
    cbn [map combine fst snd]; auto.
  rewrite IH. f_equal. apply sub_scale.
Qed.

Lemma residuals_scale k sequence data B1 PD T1 :
  0 < k ->
  length data = length (flip sequence) ->
  exists resids : list Dbl.t,
    DESPOT1.residuals sequence data B1 [PD; T1] = Returns resids /\
    DESPOT1.residuals sequence (map (Rmult k) data) B1
                      [Dbl.mul (Dbl.Finite k) PD; T1]
    = Returns (map (Dbl.mul (Dbl.Finite k)) resids).
Proof.
  intros Hk Hlen.
  rewrite !ResidualFacts.residuals_same_size
    by (rewrite ?length_map; exact Hlen).
  eexists. split; [reflexivity|].
  rewrite (One_SPGR_scale _ _ _ _ _ Hk), differences_scale. reflexivity.
Qed.

(** A flip angle is divisible or it is not. *)
Lemma divisible_dec B1 a : {Spec.divisible B1 a} + {~ Spec.divisible B1 a}.
Proof.
  unfold Spec.divisible.
  destruct (Req_dec_T (sin (a * B1)) 0) as [Hs|Hs].
  - right. intros [H _]. contradiction.
  - destruct (Req_dec_T (cos (a * B1)) 0) as [Hc|Hc].
    + right. intros [_ H]. contradiction.
    + left. split; assumption.
Qed.

(** The quotient by the tangent of an angle that is not divisible is
    special. *)
Lemma quotient_not_divisible B1 a x :
  ~ Spec.divisible B1 a ->
  Dbl.div x (Dbl.tan (Dbl.Finite (a * B1))) = Dbl.Special.
Proof.
  intros Hn. unfold Dbl.tan.
  destruct (Req_dec_T (cos (a * B1)) 0) as [Hc|Hc].
  - apply DblFacts.div_special_r.
  - assert (Hs : sin (a * B1) = 0).
    { destruct (Req_dec_T (sin (a * B1)) 0) as [Hs|Hs]; [exact Hs|].
      exfalso. apply Hn. split; assumption. }
    unfold tan. rewrite Hs. unfold Rdiv. rewrite Rmult_0_l.
    apply DblFacts.div_by_zero.
Qed.

Lemma X0_not_divisible sequence data B1 :
  length data = length (flip sequence) ->
  Exists (fun a => ~ Spec.divisible B1 a) (flip sequence) ->
  forall lin : DESPOT1.Linear,
    DESPOT1.linearise data (DESPOT1.scaled_flip sequence B1) = Returns lin ->
    exists i : nat,
      (i < length (DESPOT1.X0 lin))%nat /\
      nth i (DESPOT1.X0 lin) Dbl.Special = Dbl.Special.
Proof.
  intros Hlen Hex lin Hlin.
  assert (Hsf : length data = length (DESPOT1.scaled_flip sequence B1)).
  { rewrite LinearFacts.scaled_flip_length. exact Hlen. }
  rewrite (LinearFacts.linearise_same_size _ _ Hsf) in Hlin.
  injection Hlin as <-. cbn [DESPOT1.X0].
  apply Exists_exists in Hex. destruct Hex as (a & Ha & Hn).
  destruct (In_nth _ _ 0 Ha) as (i & Hi & Hnth).
  exists i.
  assert (Hd : (i < length (Dbl.of_reals data))%nat)
    by (rewrite DblFacts.of_reals_length; lia).
  assert (Hx : (i < length (DESPOT1.X_divisors
                              (DESPOT1.scaled_flip sequence B1)))%nat).
  { rewrite LinearFacts.X_divisors_length, LinearFacts.scaled_flip_length.
    exact Hi. }
  split.
  - rewrite zip_length; [exact Hd|].
    rewrite DblFacts.of_reals_length, LinearFacts.X_divisors_length. exact Hsf.
  - rewrite (zip_nth Dbl.div _ _ Dbl.Special (Dbl.Finite 1) Dbl.Special Hd Hx).
    rewrite (ZeroFlipFacts.X_divisor_nth sequence B1 Hi), Hnth.
    apply quotient_not_divisible. exact Hn.
Qed.

(** The closed form is covariant in the scale of the data. *)
Lemma lls_scale sequence data B1 k :
  0 < k ->
  length data = length (flip sequence) ->
  Spec.regular (Spec.X data (flip sequence) B1) (Spec.Y data (flip sequence) B1) ->
  exists (lin link : DESPOT1.Linear) (PD T1 : Dbl.t),
    DESPOT1.linearise data (DESPOT1.scaled_flip sequence B1) = Returns lin /\
    DESPOT1.linearise (map (Rmult k) data) (DESPOT1.scaled_flip sequence B1)
    = Returns link /\
    DESPOT1.lls sequence lin = [PD; T1] /\
    DESPOT1.lls sequence link = [Dbl.mul (Dbl.Finite k) PD; T1].
Proof.
  intros Hk Hlen Hreg.
  assert (Hlenk : length (map (Rmult k) data) = length (flip sequence))
    by (rewrite length_map; exact Hlen).
  destruct (Forall_Exists_dec (Spec.divisible B1) (divisible_dec B1)
                              (flip sequence)) as [Hdiv|Hex].
  - destruct (@partialPivLu_solve_regular
                _ _ _ _
                (Spec.S2 (Spec.X data (flip sequence) B1)
                         (Spec.Y data (flip sequence) B1))
                (Spec.S1 (Spec.Y data (flip sequence) B1)) Hreg)
      as (b0 & b1 & _ & E0 & E1).
    assert (Heq : Spec.normal_equations (Spec.X data (flip sequence) B1)
                                        (Spec.Y data (flip sequence) B1) b0 b1)
      by (split; assumption).
    assert (HX : Spec.X (map (Rmult k) data) (flip sequence) B1
                 = map (Rmult k) (Spec.X data (flip sequence) B1))
      by apply map2_Rdiv_scale.
    assert (HY : Spec.Y (map (Rmult k) data) (flip sequence) B1
                 = map (Rmult k) (Spec.Y data (flip sequence) B1))
      by apply map2_Rdiv_scale.
    assert (Hk0 : k <> 0) by lra.
    pose proof (regular_scale Hk0 Hreg) as Hregk.
    pose proof (normal_equations_scale k Heq) as Heqk.
    rewrite <- HX, <- HY in Hregk, Heqk.
    assert (HlY : length (Spec.Y data (flip sequence) B1) = length data).
    { rewrite SpecFacts.Y_length. lia. }
    assert (HlX : length (Spec.X data (flip sequence) B1)
                  = length (Spec.Y data (flip sequence) B1)).
    { rewrite SpecFacts.X_length, SpecFacts.Y_length. reflexivity. }
    assert (HlYk : length (Spec.Y (map (Rmult k) data) (flip sequence) B1)
                   = length (map (Rmult k) data)).
    { rewrite SpecFacts.Y_length. lia. }
    assert (HlXk : length (Spec.X (map (Rmult k) data) (flip sequence) B1)
                   = length (Spec.Y (map (Rmult k) data) (flip sequence) B1)).
    { rewrite SpecFacts.X_length, SpecFacts.Y_length. reflexivity. }
    eexists. eexists.
    exists (Dbl.div (Dbl.Finite b1) (Dbl.Finite (1 - b0))),
           (Dbl.div (Dbl.Finite (- TR sequence)) (Dbl.ln (Dbl.Finite b0))).
    split; [apply (@LinearFacts.linearise_divisible sequence data B1 Hlen Hdiv)|].
    split; [apply (@LinearFacts.linearise_divisible
                     sequence (map (Rmult k) data) B1 Hlenk Hdiv)|].
    split.
    + rewrite <- HlY.
      apply (@LinearFacts.lls_solution sequence _ _ b0 b1 HlX Hreg Heq).
    + rewrite <- HlYk.
      rewrite (@LinearFacts.lls_solution sequence _ _ b0 (k * b1) HlXk Hregk Heqk).
      unfold Spec.recover. f_equal.
      rewrite <- div_scale. reflexivity.
  - assert (Hsf : length data = length (DESPOT1.scaled_flip sequence B1)).
    { rewrite LinearFacts.scaled_flip_length. exact Hlen. }
    assert (Hsfk : length (map (Rmult k) data)
                   = length (DESPOT1.scaled_flip sequence B1)).
    { rewrite LinearFacts.scaled_flip_length. exact Hlenk. }
    pose proof (LinearFacts.linearise_same_size _ _ Hsf) as Hlin.
    pose proof (LinearFacts.linearise_same_size _ _ Hsfk) as Hlink.
    destruct (@X0_not_divisible sequence data B1 Hlen Hex _ Hlin)
      as (i & Hi & Hs).
    destruct (@X0_not_divisible sequence (map (Rmult k) data) B1 Hlenk Hex _ Hlink)
      as (j & Hj & Hsk).
    eexists. eexists. exists Dbl.Special, Dbl.Special.
    split; [exact Hlin|]. split; [exact Hlink|].
    split.
    + apply (@ZeroFlipFacts.lls_special sequence _ i Hi Hs).
    + apply (@ZeroFlipFacts.lls_special sequence _ j Hj Hsk).
Qed.

(** B1 as a scale of the flip angles. *)
Lemma scaled_flip_rescaled sequence B1 :
  DESPOT1.scaled_flip (Synth.rescaled sequence B1) 1
  = DESPOT1.scaled_flip sequence B1.
Proof.
  unfold DESPOT1.scaled_flip, Synth.rescaled. cbn [flip].
  unfold DESPOT1.scaled_flip. rewrite map_map. apply map_ext.
  intros a. ring.
Qed.

Lemma wlls_loop_rescaled todo sequence B1 fl lin cur :
  DESPOT1.wlls_loop todo (Synth.rescaled sequence B1) fl lin cur
  = DESPOT1.wlls_loop todo sequence fl lin cur.
Proof.
  revert cur; induction todo as [|k IH]; intros cur; cbn [DESPOT1.wlls_loop].
  - reflexivity.
  - rewrite IH. reflexivity.
Qed.

Lemma One_SPGR_rescaled sequence B1 PD T1 :
  QI.One_SPGR (flip (Synth.rescaled sequence B1)) (TR (Synth.rescaled sequence B1))
              PD T1 1
  = QI.One_SPGR (flip sequence) (TR sequence) PD T1 B1.
Proof.
  unfold Synth.rescaled, QI.One_SPGR. cbn [flip TR].
  unfold DESPOT1.scaled_flip. rewrite map_map. apply map_ext. intros a.
  replace (a * B1 * 1) with (a * B1) by ring. reflexivity.
Qed.

Lemma residuals_rescaled sequence data B1 outputs :
  DESPOT1.residuals (Synth.rescaled sequence B1) data 1 outputs
  = DESPOT1.residuals sequence data B1 outputs.
Proof.
  unfold DESPOT1.residuals. destruct outputs as [|PD [|T1 rest]]; try reflexivity.
  rewrite One_SPGR_rescaled. reflexivity.
Qed.

(** The functor of the nonlinear fit and the reported residuals. *)
Lemma differences_swap xs ys :
  map (fun p => Dbl.sub (fst p) (snd p)) (combine xs ys)
  = map Dbl.neg (map (fun p => Dbl.sub (fst p) (snd p)) (combine ys xs)).
Proof.
  revert ys; induction xs as [|x xs IH]; intros [|y ys];
    cbn [map combine fst snd]; auto.
  rewrite IH. f_equal.
  destruct x, y; cbn; try reflexivity. f_equal. ring.
Qed.

(** The noiseless two-angle example. *)
Lemma two_angles_admissible : Forall (Synth.admissible 1) (flip Examples.two_angles).
Proof.
  pose proof ExampleFacts.sqrt3_pos as Hp.
  unfold Examples.two_angles, Examples.spgr, Synth.admissible. cbn [flip].
  repeat constructor; rewrite Rmult_1_r.
  - rewrite sin_PI6. lra.
  - rewrite cos_PI6. lra.
  - rewrite sin_PI3. lra.
  - rewrite cos_PI3. lra.
Qed.

Lemma two_angles_TR_pos : 0 < TR Examples.two_angles.
Proof. unfold Examples.two_angles, Examples.spgr, Examples.TR5ms. cbn [TR]. lra. Qed.

Lemma two_angles_xline_distinct :
  Synth.xline (TR Examples.two_angles) 1 1 1 (PI / 6)
  <> Synth.xline (TR Examples.two_angles) 1 1 1 (PI / 3).
Proof.
  intros H. apply xline_injective in H; try lra; [|exact two_angles_TR_pos].
  rewrite !Rmult_1_r, cos_PI6, cos_PI3 in H.
  pose proof ExampleFacts.sqrt3_sqr. nra.
Qed.

Lemma two_angles_noiseless_regular :
  Spec.regular
    (Spec.X Synth.two_angles_data (flip Examples.two_angles) 1)
    (Spec.Y Synth.two_angles_data (flip Examples.two_angles) 1).
Proof.
  unfold Synth.two_angles_data.
  rewrite NoiselessFacts.noiseless_X, NoiselessFacts.noiseless_Y;
    try lra; try exact two_angles_TR_pos; try exact two_angles_admissible.
  apply regular_two. exact two_angles_xline_distinct.
Qed.

(** The weights at T1 = 1 s on the two-angle sequence are positive. *)
Lemma two_angles_W :
  exists w1 w2 : R,
    0 < w1 /\ 0 < w2 /\
    Spec.W (flip Examples.two_angles) (TR Examples.two_angles) 1 1 = [w1; w2].
Proof.
  unfold Spec.W, Spec.weight, Examples.two_angles, Examples.spgr; simpl.
  rewrite !Rmult_1_r, sin_PI6, sin_PI3, cos_PI6, cos_PI3.
  assert (HE : 0 < exp (- Examples.TR5ms / 1) < 1).
  { apply ExampleFacts.E1_bounds. unfold Examples.TR5ms. lra. }
  set (E := exp (- Examples.TR5ms / 1)) in *.
  pose proof ExampleFacts.sqrt3_pos as Hp. pose proof ExampleFacts.sqrt3_lt_2 as H2.
  assert (Hd1 : 0 < 1 - E * (sqrt 3 / 2)) by nra.
  assert (Hd2 : 0 < 1 - E * (1 / 2)) by nra.
  eexists; eexists. split; [|split; [|reflexivity]].
  - apply Rsqr_pos_lt. apply Rgt_not_eq.
    apply Rdiv_lt_0_compat; lra.
  - apply Rsqr_pos_lt. apply Rgt_not_eq.
    apply Rdiv_lt_0_compat; lra.
Qed.

Lemma two_angles_noiseless_weighted_regular :
  Spec.weighted_regular
    (Spec.W (flip Examples.two_angles) (TR Examples.two_angles) 1 1)
    (Spec.X Synth.two_angles_data (flip Examples.two_angles) 1).
Proof.
  unfold Synth.two_angles_data.
  rewrite NoiselessFacts.noiseless_X;
    try lra; try exact two_angles_TR_pos; try exact two_angles_admissible.
  destruct two_angles_W as (w1 & w2 & H1 & H2 & HW).
  rewrite HW. apply weighted_regular_two; try assumption.
  exact two_angles_xline_distinct.
Qed.

End EstimatorFacts.

(* ================================================================== *)
(** * The order of the conditions *)

Module OrderFacts.
Import Eigen EigenFacts.

Lemma zip_maps {A B C D E} (f : C -> D -> E) (g : A -> C) (h : B -> D) xs ys :
  map (fun p => f (fst p) (snd p)) (combine (map g xs) (map h ys))
  = map (fun p => f (g (fst p)) (h (snd p))) (combine xs ys).
Proof.
  revert ys; induction xs as [|x xs IH]; intros [|y ys];
    cbn [map combine fst snd]; auto.
  rewrite IH. reflexivity.
Qed.

Lemma zip_same {A C D E} (f : C -> D -> E) (g : A -> C) (h : A -> D) l :
  map (fun p => f (fst p) (snd p)) (combine (map g l) (map h l))
  = map (fun a => f (g a) (h a)) l.
Proof.
  induction l as [|a l IH]; cbn [map combine fst snd]; auto.
  rewrite IH. reflexivity.
Qed.

Lemma map_snd_combine {A B} (xs : list A) (ys : list B) :
  length xs = length ys -> map snd (combine xs ys) = ys.
Proof.
  revert ys; induction xs as [|x xs IH]; intros [|y ys]; cbn [combine map length];
    intros H; try discriminate; auto.
  rewrite IH by lia. reflexivity.
Qed.

Lemma Ones_conditions {A} (L : list A) n :
  length L = n -> Ones n = map (fun _ => Dbl.Finite 1) L.
Proof.
  intros <-. unfold Ones. induction L as [|a L IH]; cbn [length repeat map]; auto.
  rewrite IH. reflexivity.
Qed.

(** The linearised data as maps over the conditions, each a datum with
    its flip angle. *)
Lemma linearise_conditions sequence data B1 :
  length data = length (flip sequence) ->
  DESPOT1.linearise data (DESPOT1.scaled_flip sequence B1)
  = Returns
      (DESPOT1.mkLinear
         (map (Synth.hy B1) (combine data (flip sequence)))
         (map (Synth.hx B1) (combine data (flip sequence)))
         (map (fun _ => Dbl.Finite 1) (combine data (flip sequence)))).
Proof.
  intros Hlen.
  rewrite LinearFacts.linearise_same_size
    by (rewrite LinearFacts.scaled_flip_length; exact Hlen).
  unfold DESPOT1.Y_divisors, DESPOT1.X_divisors, DESPOT1.scaled_flip, Dbl.of_reals.
  rewrite !map_map, !zip_maps.
  rewrite (@Ones_conditions _ (combine data (flip sequence)) (length data))
    by (rewrite length_combine; lia).
  reflexivity.
Qed.

Lemma weights_conditions sequence data B1 T1 :
  length data = length (flip sequence) ->
  DESPOT1.weights sequence (DESPOT1.scaled_flip sequence B1) T1
  = map (Synth.hw (TR sequence) T1 B1) (combine data (flip sequence)).
Proof.
  intros Hlen. unfold DESPOT1.weights, DESPOT1.scaled_flip.
  rewrite map_map.
  rewrite <- (map_snd_combine data (flip sequence) Hlen) at 1.
  rewrite map_map. reflexivity.
Qed.

Lemma residuals_conditions sequence data B1 PD T1 rest :
  length data = length (flip sequence) ->
  DESPOT1.residuals sequence data B1 (PD :: T1 :: rest)
  = Returns (map (Synth.hr (TR sequence) PD T1 B1)
                 (combine data (flip sequence))).
Proof.
  intros Hlen. rewrite ResidualFacts.residuals_same_size by exact Hlen.
  unfold QI.One_SPGR, Dbl.of_reals. rewrite map_map, zip_maps. reflexivity.
Qed.

Lemma dot_conditions {A} (a b : A -> Dbl.t) L :
  dot (map a L) (map b L) = sum (map (fun p => Dbl.mul (a p) (b p)) L).
Proof. unfold dot. rewrite zip_same. reflexivity. Qed.

Lemma wdot_conditions {A} (a w b : A -> Dbl.t) L :
  wdot (map a L) (map w L) (map b L)
  = sum (map (fun p => Dbl.mul (Dbl.mul (a p) (w p)) (b p)) L).
Proof. unfold wdot, dot. rewrite zip_same, zip_same. reflexivity. Qed.

Section Sums.
Variable A : Type.
Variables L L' : list A.
Hypothesis HP : Permutation L L'.

Lemma dot_Permutation (a b : A -> Dbl.t) :
  dot (map a L) (map b L) = dot (map a L') (map b L').
Proof.
  rewrite !dot_conditions. apply sum_Permutation, Permutation_map, HP.
Qed.

Lemma wdot_Permutation (a w b : A -> Dbl.t) :
  wdot (map a L) (map w L) (map b L) = wdot (map a L') (map w L') (map b L').
Proof.
  rewrite !wdot_conditions. apply sum_Permutation, Permutation_map, HP.
Qed.

Lemma lls_Permutation sequence sequence' (y x0 x1 : A -> Dbl.t) :
  TR sequence' = TR sequence ->
  DESPOT1.lls sequence' (DESPOT1.mkLinear (map y L') (map x0 L') (map x1 L'))
  = DESPOT1.lls sequence (DESPOT1.mkLinear (map y L) (map x0 L) (map x1 L)).
Proof.
  intros Htr. unfold DESPOT1.lls, DESPOT1.XtX, DESPOT1.XtY, DESPOT1.derive.
  cbn [DESPOT1.Y DESPOT1.X0 DESPOT1.X1].
  rewrite Htr, !(dot_Permutation x0), !(dot_Permutation x1). reflexivity.
Qed.

Lemma wlls_pass_Permutation sequence sequence' fl fl'
      (y x0 x1 : A -> Dbl.t) (w : Dbl.t -> A -> Dbl.t) cur :
  TR sequence' = TR sequence ->
  (forall T1, DESPOT1.weights sequence fl T1 = map (w T1) L) ->
  (forall T1, DESPOT1.weights sequence' fl' T1 = map (w T1) L') ->
  DESPOT1.wlls_pass sequence' fl'
                    (DESPOT1.mkLinear (map y L') (map x0 L') (map x1 L')) cur
  = DESPOT1.wlls_pass sequence fl
                      (DESPOT1.mkLinear (map y L) (map x0 L) (map x1 L)) cur.
Proof.
  intros Htr Hw Hw'.
  unfold DESPOT1.wlls_pass, DESPOT1.XtWX, DESPOT1.XtWY, DESPOT1.derive.
  cbn [DESPOT1.Y DESPOT1.X0 DESPOT1.X1].
  rewrite Hw, Hw', Htr.
  rewrite !(wdot_Permutation x0), !(wdot_Permutation x1). reflexivity.
Qed.

Lemma wlls_loop_Permutation todo sequence sequence' fl fl'
      (y x0 x1 : A -> Dbl.t) (w : Dbl.t -> A -> Dbl.t) cur :
  TR sequence' = TR sequence ->
  (forall T1, DESPOT1.weights sequence fl T1 = map (w T1) L) ->
  (forall T1, DESPOT1.weights sequence' fl' T1 = map (w T1) L') ->
  DESPOT1.wlls_loop todo sequence' fl'
                    (DESPOT1.mkLinear (map y L') (map x0 L') (map x1 L')) cur
  = DESPOT1.wlls_loop todo sequence fl
                      (DESPOT1.mkLinear (map y L) (map x0 L) (map x1 L)) cur.
Proof.
  intros Htr Hw Hw'.
  revert cur; induction todo as [|k IH]; intros cur; cbn [DESPOT1.wlls_loop].
  - reflexivity.
  - rewrite (@wlls_pass_Permutation sequence sequence' fl fl' y x0 x1 w cur
               Htr Hw Hw').
    apply IH.
Qed.

End Sums.

Section Optimiser.
Variable DiffFunctor : Type.
Variable NumericalDiff : DESPOT1.T1Functor -> DiffFunctor.
Variable minimize :
  DESPOT1.LevenbergMarquardt DiffFunctor -> list Dbl.t -> completion (list Dbl.t).

Variable sequence : SequenceBase.
Variables data data' fl' : list R.
Hypothesis HP : Permutation (combine data (flip sequence)) (combine data' fl').
Hypothesis Hlen : length data = length (flip sequence).
Hypothesis Hlen' : length data' = length fl'.

Lemma apply_LLS_reordered n B1 rest :
  exists outputs resids resids' : list Dbl.t,
    DESPOT1.apply NumericalDiff minimize (DESPOT1.mk DESPOT1.LLS n)
                  sequence data (B1 :: rest)
    = Returns (outputs, resids) /\
    DESPOT1.apply NumericalDiff minimize (DESPOT1.mk DESPOT1.LLS n)
                  (Synth.with_flip sequence fl') data' (B1 :: rest)
    = Returns (outputs, resids') /\
    Permutation resids resids'.
Proof.
  rewrite (@ApplyFacts.apply_LLS DiffFunctor NumericalDiff minimize n sequence
             data B1 rest _ (@linearise_conditions sequence data B1 Hlen)).
  rewrite (@ApplyFacts.apply_LLS
             DiffFunctor NumericalDiff minimize n (Synth.with_flip sequence fl')
             data' B1 rest _
             (@linearise_conditions (Synth.with_flip sequence fl') data' B1 Hlen')).
  cbn [flip Synth.with_flip].
  rewrite (@lls_Permutation _ _ _ HP sequence (Synth.with_flip sequence fl')
             (Synth.hy B1) (Synth.hx B1) (fun _ => Dbl.Finite 1) eq_refl).
  set (lin := DESPOT1.mkLinear _ _ _).
  destruct (LinearFacts.lls_two sequence lin) as (PD & T1 & Hl).
  rewrite Hl.
  rewrite (@residuals_conditions sequence data B1 PD T1 [] Hlen).
  rewrite (@residuals_conditions (Synth.with_flip sequence fl') data' B1 PD T1 []
             Hlen').
  cbn [bind flip TR Synth.with_flip].
  eexists. eexists. eexists.
  split; [reflexivity|]. split; [reflexivity|].
  apply Permutation_map. exact HP.
Qed.

Lemma apply_WLLS_reordered n B1 rest :
  exists outputs resids resids' : list Dbl.t,
    DESPOT1.apply NumericalDiff minimize (DESPOT1.mk DESPOT1.WLLS n)
                  sequence data (B1 :: rest)
    = Returns (outputs, resids) /\
    DESPOT1.apply NumericalDiff minimize (DESPOT1.mk DESPOT1.WLLS n)
                  (Synth.with_flip sequence fl') data' (B1 :: rest)
    = Returns (outputs, resids') /\
    Permutation resids resids'.
Proof.
  rewrite (@ApplyFacts.apply_WLLS DiffFunctor NumericalDiff minimize n sequence
             data B1 rest _ (@linearise_conditions sequence data B1 Hlen)).
  rewrite (@ApplyFacts.apply_WLLS
             DiffFunctor NumericalDiff minimize n (Synth.with_flip sequence fl')
             data' B1 rest _
             (@linearise_conditions (Synth.with_flip sequence fl') data' B1 Hlen')).
  cbn [flip Synth.with_flip].
  rewrite (@lls_Permutation _ _ _ HP sequence (Synth.with_flip sequence fl')
             (Synth.hy B1) (Synth.hx B1) (fun _ => Dbl.Finite 1) eq_refl).
  rewrite (@wlls_loop_Permutation
             _ _ _ HP (Z.to_nat n) sequence (Synth.with_flip sequence fl')
             (DESPOT1.scaled_flip sequence B1)
             (DESPOT1.scaled_flip (Synth.with_flip sequence fl') B1)
             (Synth.hy B1) (Synth.hx B1) (fun _ => Dbl.Finite 1)
             (fun T1 => Synth.hw (TR sequence) T1 B1) _ eq_refl
             (fun T1 => @weights_conditions sequence data B1 T1 Hlen)
             (fun T1 => @weights_conditions (Synth.with_flip sequence fl')
                          data' B1 T1 Hlen')).
  set (lin := DESPOT1.mkLinear _ _ _).
  destruct (LinearFacts.lls_two sequence lin) as (PD0 & T10 & Hl).
  destruct (@LinearFacts.wlls_loop_two
              (Z.to_nat n) sequence (DESPOT1.scaled_flip sequence B1) lin
              (DESPOT1.lls sequence lin))
    as (PD & T1 & Hw); [exists PD0, T10; exact Hl|].
  rewrite Hw.
  rewrite (@residuals_conditions sequence data B1 PD T1 [] Hlen).
  rewrite (@residuals_conditions (Synth.with_flip sequence fl') data' B1 PD T1 []
             Hlen').
  cbn [bind flip TR Synth.with_flip].
  eexists. eexists. eexists.
  split; [reflexivity|]. split; [reflexivity|].
  apply Permutation_map. exact HP.
Qed.

End Optimiser.

End OrderFacts.


(* ================================================================== *)
(** * Facts on the filter, the options and the parser *)

Module FilterFacts.
Import SignalsFilter.

Section Filter.
Variable Image : Type.
Variable nParameters : Model -> nat.

Lemma SetNthInput_model i (img : Image) f :
  m_model (SetNthInput i img f) = m_model f.
Proof. reflexivity. Qed.

(** The loop that loads the parameter images, from any index on. *)
Lemma load_inputs_from (imgs : list Image) :
  forall (i : nat) (f : t Image),
    (i + length imgs <= nParameters (m_model f))%nat ->
    exists f' : t Image,
      load_inputs nParameters i imgs f = Returns f' /\
      m_model f' = m_model f /\
      forall j : nat,
        inputs f' j = if (Nat.leb i j && Nat.ltb j (i + length imgs))%bool
                      then nth_error imgs (j - i)
                      else inputs f j.
Proof.
  induction imgs as [|img rest IH]; intros i f Hle.
  - exists f. split; [reflexivity|]. split; [reflexivity|].
    intros j. cbn [length]. rewrite Nat.add_0_r.
    destruct (Nat.leb_spec i j), (Nat.ltb_spec j i); try reflexivity; lia.
  - cbn [length] in Hle. cbn [load_inputs]. unfold SetInput.
    destruct (Nat.ltb_spec i (nParameters (m_model f))) as [_|Hge]; [|lia].
    cbn [bind].
    destruct (IH (S i) (SetNthInput i img f)) as (f' & Hret & Hm & Hin).
    { rewrite SetNthInput_model. lia. }
    exists f'. split; [exact Hret|]. split; [exact Hm|].
    intros j. rewrite Hin. cbn [length SetNthInput inputs].
    destruct (Nat.eq_dec j i) as [->|Hne].
    + rewrite (proj2 (Nat.leb_gt (S i) i)) by lia. cbn [andb].
      rewrite Nat.eqb_refl, Nat.leb_refl.
      rewrite (proj2 (Nat.ltb_lt i (i + S (length rest)))) by lia. cbn [andb].
      rewrite Nat.sub_diag. reflexivity.
    + rewrite (proj2 (Nat.eqb_neq j i) Hne).
      destruct (Nat.leb_spec (S i) j).
      * rewrite (proj2 (Nat.leb_le i j)) by lia. cbn [andb].
        replace (i + S (length rest))%nat with (S i + length rest)%nat by lia.
        destruct (Nat.ltb_spec j (S i + length rest)); [|reflexivity].
        replace (j - i)%nat with (S (j - S i)) by lia. reflexivity.
      * cbn [andb]. rewrite (proj2 (Nat.leb_gt i j)) by lia. reflexivity.
Qed.

End Filter.

End FilterFacts.

Module OptionFacts.

(** Case analysis on the character of an option. *)
Ltac option_cases c :=
  repeat match goal with
         | |- context [Ascii.eqb c ?x] => destruct (Ascii.eqb_spec c x)
         end.

Lemma qsignal_option_keeps_model atof c optarg g g' :
  Options.is_model_option c = false ->
  QSignal.handle_option atof c optarg g = QSignal.Continue g' ->
  QSignal.model g' = QSignal.model g.
Proof.
  unfold Options.is_model_option, QSignal.handle_option.
  destruct (Ascii.eqb_spec c "1"); [discriminate|].
  destruct (Ascii.eqb_spec c "2"); [discriminate|].
  destruct (Ascii.eqb_spec c "3"); [discriminate|].
  intros _.
  option_cases c; destruct optarg as [s|];
    try (intros H; injection H as <-; reflexivity);
    try discriminate.
  destruct s as [|a rest]; [discriminate|].
  destruct a as [[] [] [] [] [] [] [] []];
    try discriminate; intros H; injection H as <-; reflexivity.
Qed.

Lemma qsignal_option_sets_model atof c optarg g g' :
  Options.is_model_option c = true ->
  QSignal.handle_option atof c optarg g = QSignal.Continue g' ->
  QSignal.model g' = Options.model_of_option c.
Proof.
  unfold Options.is_model_option, Options.model_of_option, QSignal.handle_option.
  destruct (Ascii.eqb_spec c "1") as [->|];
    [intros _ H; injection H as <-; reflexivity|].
  destruct (Ascii.eqb_spec c "2") as [->|];
    [intros _ H; injection H as <-; reflexivity|].
  destruct (Ascii.eqb_spec c "3") as [->|];
    [intros _ H; injection H as <-; reflexivity|].
  discriminate.
Qed.

Lemma qsignal_options_app atof a b g :
  QSignal.handle_options atof (a ++ b) g
  = match QSignal.handle_options atof a g with
    | QSignal.Continue g' => QSignal.handle_options atof b g'
    | QSignal.Exit_failure => QSignal.Exit_failure
    | QSignal.Null_dereference => QSignal.Null_dereference
    end.
Proof.
  revert g; induction a as [|[c optarg] a IH]; intros g; cbn [app QSignal.handle_options].
  - reflexivity.
  - destruct (QSignal.handle_option atof c optarg g);
      [apply IH|reflexivity|reflexivity].
Qed.

Lemma qsignal_options_keep_model atof opts :
  forall g g',
    Forall (fun o => Options.is_model_option (fst o) = false) opts ->
    QSignal.handle_options atof opts g = QSignal.Continue g' ->
    QSignal.model g' = QSignal.model g.
Proof.
  induction opts as [|[c optarg] opts IH]; intros g g' Hall; cbn [QSignal.handle_options].
  - intros H; injection H as <-; reflexivity.
  - inversion Hall as [|? ? Hc Hrest]; subst. cbn [fst] in Hc.
    destruct (QSignal.handle_option atof c optarg g) as [g1| |] eqn:E;
      [|discriminate|discriminate].
    intros H. rewrite (IH g1 g' Hrest H).
    apply (qsignal_option_keeps_model atof c optarg g Hc E).
Qed.

Lemma despot1_option_keeps_algo atoi c optarg s s' :
  Options.is_algo_option c = false ->
  QDespot1.handle_option atoi c optarg s = QDespot1.Continue s' ->
  QDespot1.algo s' = QDespot1.algo s.
Proof.
  unfold Options.is_algo_option, QDespot1.handle_option.
  destruct (Ascii.eqb_spec c "a"); [discriminate|].
  destruct (Ascii.eqb_spec c "i"); [discriminate|].
  intros _.
  option_cases c; try (intros H; injection H as <-; reflexivity);
    discriminate.
Qed.

Lemma despot1_options_keep_algo atoi opts :
  forall s s',
    Forall (fun o => Options.is_algo_option (fst o) = false) opts ->
    QDespot1.handle_options atoi opts s = QDespot1.Continue s' ->
    QDespot1.algo s' = QDespot1.algo s.
Proof.
  induction opts as [|[c optarg] opts IH]; intros s s' Hall; cbn [QDespot1.handle_options].
  - intros H; injection H as <-; reflexivity.
  - inversion Hall as [|? ? Hc Hrest]; subst. cbn [fst] in Hc.
    destruct (QDespot1.handle_option atoi c optarg s) as [s1|] eqn:E; [|discriminate].
    intros H. rewrite (IH s1 s' Hrest H).
    apply (despot1_option_keeps_algo atoi c optarg s Hc E).
Qed.

Lemma despot1_options_app atoi a b s :
  QDespot1.handle_options atoi (a ++ b) s
  = match QDespot1.handle_options atoi a s with
    | QDespot1.Continue s' => QDespot1.handle_options atoi b s'
    | QDespot1.Exit_failure => QDespot1.Exit_failure
    end.
Proof.
  revert s; induction a as [|[c optarg] a IH]; intros s;
    cbn [app QDespot1.handle_options].
  - reflexivity.
  - destruct (QDespot1.handle_option atoi c optarg s); [apply IH|reflexivity].
Qed.

Lemma despot1_bad_algo atoi optarg s :
  Options.algo_letter optarg = None ->
  QDespot1.handle_option atoi "a" optarg s = QDespot1.Exit_failure.
Proof.
  unfold Options.algo_letter, QDespot1.handle_option. cbn [Ascii.eqb Bool.eqb].
  destruct optarg as [|a rest]; [reflexivity|].
  destruct a as [[] [] [] [] [] [] [] []]; try reflexivity; discriminate.
Qed.

Lemma append_assoc (a b c : string) :
  ((a ++ b) ++ c)%string = (a ++ (b ++ c))%string.
Proof.
  induction a as [|x a IH]; cbn [String.append]; [reflexivity|].
  rewrite IH. reflexivity.
Qed.

Lemma size_t_of_int_value v :
  Options.int_range v ->
  QDespot1.size_t_of_int v = (if (0 <=? v)%Z then v else 2 ^ 64 + v)%Z /\
  SizeT.in_range (QDespot1.size_t_of_int v).
Proof.
  unfold Options.int_range, QDespot1.size_t_of_int, SizeT.wrap, SizeT.in_range,
    SizeT.modulus.
  intros Hv. split.
  - destruct (Z.leb_spec 0 v).
    + apply Z.mod_small. lia.
    + symmetry. apply Z.mod_unique with (q := (-1)%Z); lia.
  - apply Z.mod_pos_bound. lia.
Qed.

End OptionFacts.

Module ParseFacts.
Import QSignal.

Section Parser.
Variable istream : Type.
Variable Read : istream -> completion (bool * string * istream).
Variable construct :
  SeqKind -> bool -> istream -> completion (SequenceBase * istream).

(** What a returning run has appended. *)
Lemma parseInput_appends fuel g :
  forall cin cs names cs' names' cin',
    parseInput Read construct fuel g cin cs names
    = Returns (Some (cs', names', cin')) ->
    exists (new_cs : list SequenceBase) (new_names : list string),
      cs' = cs ++ new_cs /\
      names' = names ++ new_names /\
      length new_cs = length new_names /\
      Forall (Options.constructed construct g) new_cs.
Proof.
  induction fuel as [|fuel IH]; intros cin cs names cs' names' cin'.
  - discriminate.
  - cbn [parseInput].
    destruct (Read cin) as [[[ok type] cin1]| |]; cbn [bind]; try discriminate.
    destruct (ok && continues type)%bool.
    + destruct (known_type type) as [k|]; [|discriminate].
      destruct (construct k (prompt g) cin1) as [[s cin2]| |] eqn:EC;
        cbn [bind]; try discriminate.
      destruct (Read cin2) as [[[ok2 filename] cin3]| |]; cbn [bind];
        try discriminate.
      intros H. destruct (IH _ _ _ _ _ _ H) as (nc & nn & Hc & Hn & Hl & Hk).
      exists (s :: nc), (filename :: nn).
      rewrite Hc, Hn, <- !app_assoc. cbn [app length].
      split; [reflexivity|]. split; [reflexivity|]. split; [lia|].
      constructor; [|exact Hk].
      exists k, cin1, cin2. exact EC.
    + intros H; injection H as <- <- <-.
      exists [], []. rewrite !app_nil_r.
      split; [reflexivity|]. split; [reflexivity|]. split; [reflexivity|].
      constructor.
Qed.

End Parser.

End ParseFacts.

Module ToolFacts.

(** A modulus is a real number that is not negative, or special. *)
Lemma Cabs_all_nonneg (px : list Eigen.Cplx) :
  Forall (fun m => m = Dbl.Special \/ exists r : R, m = Dbl.Finite r /\ 0 <= r)
         (map Eigen.Cabs px).
Proof.
  induction px as [|z px IH]; cbn [map]; constructor; [|exact IH].
  destruct (Eigen.Cabs z) as [r|] eqn:E; [right|left; reflexivity].
  exists r. split; [reflexivity|]. exact (EigenFacts.Cabs_nonneg z E).
Qed.

End ToolFacts.

(* ================================================================== *)
(** * Further properties of the estimator *)

(** X1.  Round trip of the closed form: on the noiseless magnitude data of
    a tissue with positive PD and T1, over flip angles whose scaled sine is
    positive and cosine not zero and which make the normal equations
    regular, [apply] with the strategy LLS returns exactly [{PD, T1}] and
    residuals that are all zero, one per flip angle. *)
Theorem X1_lls_recovers_noiseless_tissue
        (DiffFunctor : Type) (NumericalDiff : DESPOT1.T1Functor -> DiffFunctor)
        (minimize : DESPOT1.LevenbergMarquardt DiffFunctor -> list Dbl.t
                    -> completion (list Dbl.t))
        (n : Z) (sequence : SequenceBase) (PD T1 B1 : R) :
  0 < PD -> 0 < T1 -> 0 < TR sequence ->
  Forall (Synth.admissible B1) (flip sequence) ->
  Spec.regular
    (Spec.X (Synth.magnitude (flip sequence) (TR sequence) PD T1 B1) (flip sequence) B1)
    (Spec.Y (Synth.magnitude (flip sequence) (TR sequence) PD T1 B1) (flip sequence) B1) ->
  exists resids : list Dbl.t,
    DESPOT1.apply NumericalDiff minimize (DESPOT1.mk DESPOT1.LLS n) sequence
                  (Synth.magnitude (flip sequence) (TR sequence) PD T1 B1) [B1]
    = Returns ([Dbl.Finite PD; Dbl.Finite T1], resids) /\
    Forall (fun r => r = Dbl.Finite 0) resids /\
    length resids = length (flip sequence).
Proof.
  intros HPD HT1 Htr Hfl Hreg.
  rewrite (@NoiselessFacts.apply_LLS_noiseless
             DiffFunctor NumericalDiff minimize n sequence PD T1 B1 []
             HPD Htr HT1 Hfl Hreg).
  eexists. split; [reflexivity|].
  split; [apply NoiselessFacts.zero_residuals|].
  rewrite NoiselessFacts.zero_residuals_length.
  apply ResidualFacts.magnitude_length.
Qed.

(** X1 on the two-angle sequence, for PD = 1, T1 = 1 s and B1 = 1. *)
Lemma X1_lls_recovers_noiseless_tissue_witness :
  exists resids : list Dbl.t,
    Examples.apply (DESPOT1.mk DESPOT1.LLS 4) Examples.two_angles
                   Synth.two_angles_data [1]
    = Returns ([Dbl.Finite 1; Dbl.Finite 1], resids) /\
    Forall (fun r => r = Dbl.Finite 0) resids /\
    length resids = 2%nat.
Proof.
  apply (@X1_lls_recovers_noiseless_tissue
           Examples.DiffFunctor Examples.NumericalDiff Examples.minimize
           4%Z Examples.two_angles 1 1 1).
  - lra.
  - lra.
  - exact EstimatorFacts.two_angles_TR_pos.
  - exact EstimatorFacts.two_angles_admissible.
  - exact EstimatorFacts.two_angles_noiseless_regular.
Defined.

(** X2.  On the same noiseless data the reweighted strategy returns
    exactly [{PD, T1}] with zero residuals for every number of passes,
    provided the weighted equations at the true T1 are regular as well:
    the true tissue is a fixed point of the reweighting pass. *)
Theorem X2_wlls_recovers_noiseless_tissue
        (DiffFunctor : Type) (NumericalDiff : DESPOT1.T1Functor -> DiffFunctor)
        (minimize : DESPOT1.LevenbergMarquardt DiffFunctor -> list Dbl.t
                    -> completion (list Dbl.t))
        (n : Z) (sequence : SequenceBase) (PD T1 B1 : R) :
  0 < PD -> 0 < T1 -> 0 < TR sequence ->
  Forall (Synth.admissible B1) (flip sequence) ->
  Spec.regular
    (Spec.X (Synth.magnitude (flip sequence) (TR sequence) PD T1 B1) (flip sequence) B1)
    (Spec.Y (Synth.magnitude (flip sequence) (TR sequence) PD T1 B1) (flip sequence) B1) ->
  Spec.weighted_regular
    (Spec.W (flip sequence) (TR sequence) T1 B1)
    (Spec.X (Synth.magnitude (flip sequence) (TR sequence) PD T1 B1) (flip sequence) B1) ->
  exists resids : list Dbl.t,
    DESPOT1.apply NumericalDiff minimize (DESPOT1.mk DESPOT1.WLLS n) sequence
                  (Synth.magnitude (flip sequence) (TR sequence) PD T1 B1) [B1]
    = Returns ([Dbl.Finite PD; Dbl.Finite T1], resids) /\
    Forall (fun r => r = Dbl.Finite 0) resids /\
    length resids = length (flip sequence).
Proof.
  intros HPD HT1 Htr Hfl Hreg Hwreg.
  rewrite (@NoiselessFacts.apply_WLLS_noiseless
             DiffFunctor NumericalDiff minimize n sequence PD T1 B1 []
             HPD Htr HT1 Hfl Hreg Hwreg).
  eexists. split; [reflexivity|].
  split; [apply NoiselessFacts.zero_residuals|].
  rewrite NoiselessFacts.zero_residuals_length.
  apply ResidualFacts.magnitude_length.
Qed.

(** X2 on the two-angle sequence with seven passes. *)
Lemma X2_wlls_recovers_noiseless_tissue_witness :
  exists resids : list Dbl.t,
    Examples.apply (DESPOT1.mk DESPOT1.WLLS 7) Examples.two_angles
                   Synth.two_angles_data [1]
    = Returns ([Dbl.Finite 1; Dbl.Finite 1], resids) /\
    Forall (fun r => r = Dbl.Finite 0) resids /\
    length resids = 2%nat.
Proof.
  apply (@X2_wlls_recovers_noiseless_tissue
           Examples.DiffFunctor Examples.NumericalDiff Examples.minimize
           7%Z Examples.two_angles 1 1 1).
  - lra.
  - lra.
  - exact EstimatorFacts.two_angles_TR_pos.
  - exact EstimatorFacts.two_angles_admissible.
  - exact EstimatorFacts.two_angles_noiseless_regular.
  - exact EstimatorFacts.two_angles_noiseless_weighted_regular.
Defined.

(** X3.  B1 acts on the two linear strategies as a scale of the flip
    angles and as nothing else: with the constant B1 they complete, with the
    same outputs and residuals, as with the constant 1 on the sequence whose
    flip angles are each multiplied by B1. *)
Theorem X3_B1_is_a_flip_angle_scale
        (DiffFunctor : Type) (NumericalDiff : DESPOT1.T1Functor -> DiffFunctor)
        (minimize : DESPOT1.LevenbergMarquardt DiffFunctor -> list Dbl.t
                    -> completion (list Dbl.t))
        (n : Z) (sequence : SequenceBase) (data : list R) (B1 : R) (rest : list R) :
  DESPOT1.apply NumericalDiff minimize (DESPOT1.mk DESPOT1.LLS n)
                sequence data (B1 :: rest)
  = DESPOT1.apply NumericalDiff minimize (DESPOT1.mk DESPOT1.LLS n)
                  (Synth.rescaled sequence B1) data [1]
  /\
  DESPOT1.apply NumericalDiff minimize (DESPOT1.mk DESPOT1.WLLS n)
                sequence data (B1 :: rest)
  = DESPOT1.apply NumericalDiff minimize (DESPOT1.mk DESPOT1.WLLS n)
                  (Synth.rescaled sequence B1) data [1].
Proof.
  split.
  - unfold DESPOT1.apply, DESPOT1.refine. cbn [DESPOT1.m_type].
    rewrite EstimatorFacts.scaled_flip_rescaled.
    destruct (DESPOT1.linearise data (DESPOT1.scaled_flip sequence B1))
      as [lin| |]; cbn [bind]; try reflexivity.
    rewrite EstimatorFacts.residuals_rescaled. reflexivity.
  - unfold DESPOT1.apply, DESPOT1.refine. cbn [DESPOT1.m_type].
    rewrite EstimatorFacts.scaled_flip_rescaled.
    destruct (DESPOT1.linearise data (DESPOT1.scaled_flip sequence B1))
      as [lin| |]; cbn [bind]; try reflexivity.
    rewrite EstimatorFacts.wlls_loop_rescaled.
    rewrite EstimatorFacts.residuals_rescaled. reflexivity.
Qed.

(** X4.  The closed form is covariant in the scale of the data: on data
    with one entry per flip angle, when the normal equations are regular,
    multiplying every datum by [k > 0] multiplies the PD estimate and every
    residual by [k] and leaves the T1 estimate as it is. *)
Theorem X4_lls_data_scale
        (DiffFunctor : Type) (NumericalDiff : DESPOT1.T1Functor -> DiffFunctor)
        (minimize : DESPOT1.LevenbergMarquardt DiffFunctor -> list Dbl.t
                    -> completion (list Dbl.t))
        (n : Z) (sequence : SequenceBase) (data : list R)
        (B1 : R) (rest : list R) (k : R) :
  0 < k ->
  length data = length (flip sequence) ->
  Spec.regular (Spec.X data (flip sequence) B1)
               (Spec.Y data (flip sequence) B1) ->
  exists (PD T1 : Dbl.t) (resids : list Dbl.t),
    DESPOT1.apply NumericalDiff minimize (DESPOT1.mk DESPOT1.LLS n)
                  sequence data (B1 :: rest)
    = Returns ([PD; T1], resids) /\
    DESPOT1.apply NumericalDiff minimize (DESPOT1.mk DESPOT1.LLS n)
                  sequence (map (Rmult k) data) (B1 :: rest)
    = Returns ([Dbl.mul (Dbl.Finite k) PD; T1],
               map (Dbl.mul (Dbl.Finite k)) resids).
Proof.
  intros Hk Hlen Hreg.
  destruct (@EstimatorFacts.lls_scale sequence data B1 k Hk Hlen Hreg)
    as (lin & link & PD & T1 & Hlin & Hlink & Hl & Hlk).
  destruct (@EstimatorFacts.residuals_scale k sequence data B1 PD T1 Hk Hlen)
    as (resids & Hr & Hrk).
  exists PD, T1, resids.
  rewrite (@ApplyFacts.apply_LLS DiffFunctor NumericalDiff minimize n sequence
             data B1 rest lin Hlin).
  rewrite (@ApplyFacts.apply_LLS DiffFunctor NumericalDiff minimize n sequence
             (map (Rmult k) data) B1 rest link Hlink).
  rewrite Hl, Hlk, Hr, Hrk. split; reflexivity.
Qed.

(** X4 on the two-angle sequence with the rising data doubled. *)
Lemma X4_lls_data_scale_witness :
  exists (PD T1 : Dbl.t) (resids : list Dbl.t),
    Examples.apply (DESPOT1.mk DESPOT1.LLS 4) Examples.two_angles
                   Examples.rising [1]
    = Returns ([PD; T1], resids) /\
    Examples.apply (DESPOT1.mk DESPOT1.LLS 4) Examples.two_angles
                   (map (Rmult 2) Examples.rising) [1]
    = Returns ([Dbl.mul (Dbl.Finite 2) PD; T1],
               map (Dbl.mul (Dbl.Finite 2)) resids).
Proof.
  apply (@X4_lls_data_scale
           Examples.DiffFunctor Examples.NumericalDiff Examples.minimize
           4%Z Examples.two_angles Examples.rising 1 [] 2).
  - lra.
  - reflexivity.
  - exact ExampleFacts.two_angles_regular.
Defined.

(** X5.  For a sequence whose forward model is [One_SPGR] on the PD, T1
    and B1 entries of the parameter vector, on data with one row per
    condition and per flip angle, the differences the functor of the
    nonlinear fit computes at a parameter pair are the residuals [apply]
    reports for that pair, with the opposite sign. *)
Theorem X5_functor_is_minus_residuals
        (sequence : SequenceBase) (data : list R) (B1 : R) (PD T1 : Dbl.t) :
  (forall (p0 p1 : Dbl.t) (b : R),
      signal sequence SCD
             [p0; p1; Dbl.Finite 0; Dbl.Finite 0; Dbl.Finite b]
      = QI.One_SPGR (flip sequence) (TR sequence) p0 p1 b) ->
  Z.of_nat (length data) = size sequence ->
  length data = length (flip sequence) ->
  exists resids : list Dbl.t,
    DESPOT1.residuals sequence data B1 [PD; T1] = Returns resids /\
    DESPOT1.T1Functor_call (DESPOT1.mkT1Functor sequence data B1) [PD; T1]
                           (length data)
    = Returns (map Dbl.neg resids).
Proof.
  intros Hsig Hrows Hlen.
  rewrite (FunctorFacts.T1Functor_call_rows sequence data B1 PD T1 Hrows), Hsig.
  rewrite ResidualFacts.residuals_same_size by exact Hlen.
  rewrite EigenFacts.cwise_same_size
    by (rewrite length_map, ResidualFacts.One_SPGR_length,
          DblFacts.of_reals_length; symmetry; exact Hlen).
  eexists. split; [reflexivity|].
  rewrite EstimatorFacts.differences_swap. reflexivity.
Qed.

(** X5 on the two-angle SPGR sequence. *)
Lemma X5_functor_is_minus_residuals_witness :
  exists resids : list Dbl.t,
    DESPOT1.residuals Examples.two_angles Examples.rising 1
                      [Dbl.Finite 1; Dbl.Finite 1]
    = Returns resids /\
    DESPOT1.T1Functor_call
      (DESPOT1.mkT1Functor Examples.two_angles Examples.rising 1)
      [Dbl.Finite 1; Dbl.Finite 1] 2
    = Returns (map Dbl.neg resids).
Proof.
  apply (@X5_functor_is_minus_residuals
           Examples.two_angles Examples.rising 1 (Dbl.Finite 1) (Dbl.Finite 1)).
  - intros p0 p1 b. reflexivity.
  - reflexivity.
  - reflexivity.
Defined.

(** X6.  The sign of the closed-form T1: with a positive TR, on data with
    one entry per flip angle, no zero divisor in the linearisation and
    regular normal equations, the T1 returned is a positive real number
    when the fitted slope [b0] lies strictly between 0 and 1, and a
    negative one when it exceeds 1. *)
Theorem X6_lls_T1_sign
        (DiffFunctor : Type) (NumericalDiff : DESPOT1.T1Functor -> DiffFunctor)
        (minimize : DESPOT1.LevenbergMarquardt DiffFunctor -> list Dbl.t
                    -> completion (list Dbl.t))
        (n : Z) (sequence : SequenceBase) (data : list R)
        (B1 : R) (rest : list R) :
  0 < TR sequence ->
  length data = length (flip sequence) ->
  Forall (Spec.divisible B1) (flip sequence) ->
  Spec.regular (Spec.X data (flip sequence) B1)
               (Spec.Y data (flip sequence) B1) ->
  exists (b0 b1 : R) (resids : list Dbl.t),
    Spec.normal_equations (Spec.X data (flip sequence) B1)
                          (Spec.Y data (flip sequence) B1)
                          b0 b1 /\
    (0 < b0 < 1 ->
     exists PD T1 : R,
       DESPOT1.apply NumericalDiff minimize (DESPOT1.mk DESPOT1.LLS n)
                     sequence data (B1 :: rest)
       = Returns ([Dbl.Finite PD; Dbl.Finite T1], resids) /\
       0 < T1) /\
    (1 < b0 ->
     exists PD T1 : R,
       DESPOT1.apply NumericalDiff minimize (DESPOT1.mk DESPOT1.LLS n)
                     sequence data (B1 :: rest)
       = Returns ([Dbl.Finite PD; Dbl.Finite T1], resids) /\
       T1 < 0).
Proof.
  intros Htr Hlen Hdiv Hreg.
  destruct (@EigenFacts.partialPivLu_solve_regular
              _ _ _ _
              (Spec.S2 (Spec.X data (flip sequence) B1)
                       (Spec.Y data (flip sequence) B1))
              (Spec.S1 (Spec.Y data (flip sequence) B1)) Hreg)
    as (b0 & b1 & _ & E0 & E1).
  assert (Heq : Spec.normal_equations (Spec.X data (flip sequence) B1)
                                      (Spec.Y data (flip sequence) B1) b0 b1)
    by (split; assumption).
  destruct (@ClosedFormFacts.apply_LLS_solution
              DiffFunctor NumericalDiff minimize n sequence data B1 rest b0 b1
              Hlen Hdiv Hreg Heq) as (resids & Hret & _ & _).
  exists b0, b1, resids. split; [exact Heq|]. split.
  - intros Hb.
    destruct (@ClosedFormFacts.recover_unit_interval (TR sequence) b0 b1 Htr Hb)
      as (Hrec & HT1 & _).
    exists (b1 / (1 - b0)), (- TR sequence / ln b0).
    rewrite Hret, Hrec. split; [reflexivity | exact HT1].
  - intros Hb.
    destruct (@ClosedFormFacts.recover_above_one (TR sequence) b0 b1 Htr Hb)
      as (Hrec & HT1).
    exists (b1 / (1 - b0)), (- TR sequence / ln b0).
    rewrite Hret, Hrec. split; [reflexivity | exact HT1].
Qed.

(** X6 on the two-angle sequence with the rising data, where the slope
    exceeds 1. *)
Lemma X6_lls_T1_sign_witness :
  exists (b0 b1 : R) (resids : list Dbl.t),
    Spec.normal_equations (Spec.X Examples.rising (flip Examples.two_angles) 1)
                          (Spec.Y Examples.rising (flip Examples.two_angles) 1)
                          b0 b1 /\
    1 < b0 /\
    exists PD T1 : R,
      Examples.apply (DESPOT1.mk DESPOT1.LLS 4) Examples.two_angles
                     Examples.rising [1]
      = Returns ([Dbl.Finite PD; Dbl.Finite T1], resids) /\
      T1 < 0.
Proof.
  destruct (@X6_lls_T1_sign
              Examples.DiffFunctor Examples.NumericalDiff Examples.minimize
              4%Z Examples.two_angles Examples.rising 1 []
              EstimatorFacts.two_angles_TR_pos eq_refl
              ExampleFacts.two_angles_divisible ExampleFacts.two_angles_regular)
    as (b0 & b1 & resids & Heq & _ & Hneg).
  exists b0, b1, resids. split; [exact Heq|].
  pose proof (ExampleFacts.two_angles_slope Heq) as Hb.
  split; [exact Hb|]. apply Hneg. exact Hb.
Defined.

(** X7.  The two linear strategies do not depend on the order of the
    conditions: when the data paired with their flip angles are a
    permutation of other data paired with theirs, [apply] returns the same
    outputs on both, and residuals that are a permutation of each other. *)
Theorem X7_order_of_conditions
        (DiffFunctor : Type) (NumericalDiff : DESPOT1.T1Functor -> DiffFunctor)
        (minimize : DESPOT1.LevenbergMarquardt DiffFunctor -> list Dbl.t
                    -> completion (list Dbl.t))
        (n : Z) (sequence : SequenceBase) (data data' fl' : list R)
        (B1 : R) (rest : list R) :
  Permutation (combine data (flip sequence)) (combine data' fl') ->
  length data = length (flip sequence) ->
  length data' = length fl' ->
  (exists outputs resids resids' : list Dbl.t,
      DESPOT1.apply NumericalDiff minimize (DESPOT1.mk DESPOT1.LLS n)
                    sequence data (B1 :: rest)
      = Returns (outputs, resids) /\
      DESPOT1.apply NumericalDiff minimize (DESPOT1.mk DESPOT1.LLS n)
                    (Synth.with_flip sequence fl') data' (B1 :: rest)
      = Returns (outputs, resids') /\
      Permutation resids resids') /\
  (exists outputs resids resids' : list Dbl.t,
      DESPOT1.apply NumericalDiff minimize (DESPOT1.mk DESPOT1.WLLS n)
                    sequence data (B1 :: rest)
      = Returns (outputs, resids) /\
      DESPOT1.apply NumericalDiff minimize (DESPOT1.mk DESPOT1.WLLS n)
                    (Synth.with_flip sequence fl') data' (B1 :: rest)
      = Returns (outputs, resids') /\
      Permutation resids resids').
Proof.
  intros HP Hlen Hlen'. split.
  - apply (@OrderFacts.apply_LLS_reordered
             DiffFunctor NumericalDiff minimize sequence data data' fl'
             HP Hlen Hlen' n B1 rest).
  - apply (@OrderFacts.apply_WLLS_reordered
             DiffFunctor NumericalDiff minimize sequence data data' fl'
             HP Hlen Hlen' n B1 rest).
Qed.

(** X7 on the two-angle sequence and the same two conditions swapped. *)
Lemma X7_order_of_conditions_witness :
  (exists outputs resids resids' : list Dbl.t,
      Examples.apply (DESPOT1.mk DESPOT1.LLS 4) Examples.two_angles [1; 6] [1]
      = Returns (outputs, resids) /\
      Examples.apply (DESPOT1.mk DESPOT1.LLS 4)
                     (Synth.with_flip Examples.two_angles [PI / 3; PI / 6])
                     [6; 1] [1]
      = Returns (outputs, resids') /\
      Permutation resids resids') /\
  (exists outputs resids resids' : list Dbl.t,
      Examples.apply (DESPOT1.mk DESPOT1.WLLS 4) Examples.two_angles [1; 6] [1]
      = Returns (outputs, resids) /\
      Examples.apply (DESPOT1.mk DESPOT1.WLLS 4)
                     (Synth.with_flip Examples.two_angles [PI / 3; PI / 6])
                     [6; 1] [1]
      = Returns (outputs, resids') /\
      Permutation resids resids').
Proof.
  apply (@X7_order_of_conditions
           Examples.DiffFunctor Examples.NumericalDiff Examples.minimize
           4%Z Examples.two_angles [1; 6] [6; 1] [PI / 3; PI / 6] 1 []).
  - apply perm_swap.
  - reflexivity.
  - reflexivity.
Defined.

(** X18.  The size check of the linearisation: data whose number of rows
    differs from the number of flip angles fail the assertion of the
    first coefficient-wise quotient, for every strategy and before
    anything is estimated. *)
Theorem X18_size_check_before_the_strategy
        (DiffFunctor : Type) (NumericalDiff : DESPOT1.T1Functor -> DiffFunctor)
        (minimize : DESPOT1.LevenbergMarquardt DiffFunctor -> list Dbl.t
                    -> completion (list Dbl.t))
        (d : DESPOT1.t) (sequence : SequenceBase) (data : list R)
        (B1 : R) (rest : list R) :
  length data <> length (flip sequence) ->
  DESPOT1.linear_Y data (DESPOT1.scaled_flip sequence B1)
  = Aborts "aLhs.rows() == aRhs.rows() && aLhs.cols() == aRhs.cols()" /\
  DESPOT1.apply NumericalDiff minimize d sequence data (B1 :: rest)
  = Aborts "aLhs.rows() == aRhs.rows() && aLhs.cols() == aRhs.cols()".
Proof.
  intros Hlen.
  assert (Hsf : length data <> length (DESPOT1.scaled_flip sequence B1)).
  { rewrite LinearFacts.scaled_flip_length. exact Hlen. }
  split.
  - unfold DESPOT1.linear_Y. apply EigenFacts.cwise_other_size.
    rewrite DblFacts.of_reals_length, LinearFacts.Y_divisors_length. exact Hsf.
  - unfold DESPOT1.apply.
    rewrite (LinearFacts.linearise_other_size _ _ Hsf). reflexivity.
Qed.

(** X18 on the two-angle sequence with three data, for each strategy. *)
Lemma X18_size_check_before_the_strategy_witness :
  Examples.apply (DESPOT1.mk DESPOT1.LLS 4) Examples.two_angles
                 Examples.unequal [1]
  = Aborts "aLhs.rows() == aRhs.rows() && aLhs.cols() == aRhs.cols()" /\
  Examples.apply (DESPOT1.mk DESPOT1.WLLS 4) Examples.two_angles
                 Examples.unequal [1]
  = Aborts "aLhs.rows() == aRhs.rows() && aLhs.cols() == aRhs.cols()" /\
  Examples.apply (DESPOT1.mk DESPOT1.NLLS 4) Examples.two_angles
                 Examples.unequal [1]
  = Aborts "aLhs.rows() == aRhs.rows() && aLhs.cols() == aRhs.cols()".
Proof.
  assert (H : length Examples.unequal <> length (flip Examples.two_angles))
    by (simpl; lia).
  split; [|split].
  - apply (@X18_size_check_before_the_strategy
             Examples.DiffFunctor Examples.NumericalDiff Examples.minimize
             (DESPOT1.mk DESPOT1.LLS 4) Examples.two_angles Examples.unequal
             1 [] H).
  - apply (@X18_size_check_before_the_strategy
             Examples.DiffFunctor Examples.NumericalDiff Examples.minimize
             (DESPOT1.mk DESPOT1.WLLS 4) Examples.two_angles Examples.unequal
             1 [] H).
  - apply (@X18_size_check_before_the_strategy
             Examples.DiffFunctor Examples.NumericalDiff Examples.minimize
             (DESPOT1.mk DESPOT1.NLLS 4) Examples.two_angles Examples.unequal
             1 [] H).
Defined.

(* ================================================================== *)
(** * Properties of the signal filter, the parser and the options *)

(** X8.  [SetInput] then [GetInput]: for an index below the number of
    parameters of the model, [SetInput] returns, [GetInput] at that index
    then gives the image set, every other index gives what it gave before,
    and the mask is untouched. *)
Theorem X8_filter_input_round_trip
        (Image : Type) (nParameters : Model -> nat)
        (f : SignalsFilter.t Image) (i : nat) (img : Image) :
  (i < nParameters (SignalsFilter.m_model f))%nat ->
  exists f' : SignalsFilter.t Image,
    SignalsFilter.SetInput nParameters i img f = Returns f' /\
    SignalsFilter.GetInput nParameters i f' = Returns (Some img) /\
    (forall j : nat,
        j <> i ->
        SignalsFilter.GetInput nParameters j f'
        = SignalsFilter.GetInput nParameters j f) /\
    SignalsFilter.GetMask nParameters f' = SignalsFilter.GetMask nParameters f.
Proof.
  intros Hi. exists (SignalsFilter.SetNthInput i img f).
  unfold SignalsFilter.SetInput, SignalsFilter.GetInput, SignalsFilter.GetMask.
  cbn [SignalsFilter.SetNthInput SignalsFilter.m_model SignalsFilter.inputs].
  destruct (Nat.ltb_spec i (nParameters (SignalsFilter.m_model f))) as [_|]; [|lia].
  split; [reflexivity|]. split; [rewrite Nat.eqb_refl; reflexivity|]. split.
  - intros j Hj. rewrite (proj2 (Nat.eqb_neq j i) Hj). reflexivity.
  - destruct (Nat.eqb_spec (nParameters (SignalsFilter.m_model f)) i); [lia|].
    reflexivity.
Qed.

(** X8 on a filter with five parameters, input 4. *)
Lemma X8_filter_input_round_trip_witness :
  exists f' : SignalsFilter.t string,
    SignalsFilter.SetInput Options.five 4 "B1.nii"%string Options.filter0
    = Returns f' /\
    SignalsFilter.GetInput Options.five 4 f' = Returns (Some "B1.nii"%string) /\
    (forall j : nat,
        j <> 4%nat ->
        SignalsFilter.GetInput Options.five j f'
        = SignalsFilter.GetInput Options.five j Options.filter0) /\
    SignalsFilter.GetMask Options.five f'
    = SignalsFilter.GetMask Options.five Options.filter0.
Proof.
  apply (@X8_filter_input_round_trip
           string Options.five Options.filter0 4%nat "B1.nii"%string).
  unfold Options.five. lia.
Defined.

(** X9.  Bounds and the mask: at an index that is not below the number of
    parameters [SetInput] and [GetInput] throw, each with its own message;
    the mask lives at that number, so [SetMask] then [GetMask] gives the
    mask back and changes no parameter input. *)
Theorem X9_filter_bounds_and_mask
        (Image : Type) (nParameters : Model -> nat)
        (f : SignalsFilter.t Image) (i : nat) (img mask : Image) :
  (nParameters (SignalsFilter.m_model f) <= i)%nat ->
  SignalsFilter.SetInput nParameters i img f = Throws "Const input out of range" /\
  SignalsFilter.GetInput nParameters i f = Throws "Get Data Input out of range." /\
  SignalsFilter.GetMask nParameters (SignalsFilter.SetMask nParameters mask f)
  = Some mask /\
  forall j : nat,
    SignalsFilter.GetInput nParameters j (SignalsFilter.SetMask nParameters mask f)
    = SignalsFilter.GetInput nParameters j f.
Proof.
  intros Hi.
  unfold SignalsFilter.SetInput, SignalsFilter.GetInput, SignalsFilter.GetMask,
    SignalsFilter.SetMask.
  cbn [SignalsFilter.SetNthInput SignalsFilter.m_model SignalsFilter.inputs].
  destruct (Nat.ltb_spec i (nParameters (SignalsFilter.m_model f))); [lia|].
  split; [reflexivity|]. split; [reflexivity|]. split.
  - rewrite Nat.eqb_refl. reflexivity.
  - intros j.
    destruct (Nat.ltb_spec j (nParameters (SignalsFilter.m_model f))); [|reflexivity].
    destruct (Nat.eqb_spec j (nParameters (SignalsFilter.m_model f))); [lia|].
    reflexivity.
Qed.

(** X9 on a filter with five parameters, index 5. *)
Lemma X9_filter_bounds_and_mask_witness :
  SignalsFilter.SetInput Options.five 5 "x.nii"%string Options.filter0
  = Throws "Const input out of range" /\
  SignalsFilter.GetInput Options.five 5 Options.filter0
  = Throws "Get Data Input out of range." /\
  SignalsFilter.GetMask Options.five
    (SignalsFilter.SetMask Options.five "mask.nii"%string Options.filter0)
  = Some "mask.nii"%string /\
  forall j : nat,
    SignalsFilter.GetInput Options.five j
      (SignalsFilter.SetMask Options.five "mask.nii"%string Options.filter0)
    = SignalsFilter.GetInput Options.five j Options.filter0.
Proof.
  apply (@X9_filter_bounds_and_mask
           string Options.five Options.filter0 5%nat
           "x.nii"%string "mask.nii"%string).
  unfold Options.five. lia.
Defined.

(** X10.  The loading loop of [main]: handed one image per parameter of
    the model, it never throws, and afterwards [GetInput] at each index
    below the number of parameters gives the image of that position, the
    mask being as before. *)
Theorem X10_load_inputs
        (Image : Type) (nParameters : Model -> nat)
        (f : SignalsFilter.t Image) (imgs : list Image) :
  length imgs = nParameters (SignalsFilter.m_model f) ->
  exists f' : SignalsFilter.t Image,
    SignalsFilter.load_inputs nParameters 0 imgs f = Returns f' /\
    (forall i : nat,
        (i < nParameters (SignalsFilter.m_model f))%nat ->
        SignalsFilter.GetInput nParameters i f' = Returns (nth_error imgs i)) /\
    SignalsFilter.GetMask nParameters f' = SignalsFilter.GetMask nParameters f.
Proof.
  intros Hlen.
  destruct (@FilterFacts.load_inputs_from Image nParameters imgs 0%nat f)
    as (f' & Hret & Hm & Hin); [lia|].
  exists f'. split; [exact Hret|]. split.
  - intros i Hi. unfold SignalsFilter.GetInput. rewrite Hm.
    destruct (Nat.ltb_spec i (nParameters (SignalsFilter.m_model f))); [|lia].
    rewrite Hin. cbn [Nat.leb Nat.add andb].
    destruct (Nat.ltb_spec i (length imgs)); [|lia].
    rewrite Nat.sub_0_r. reflexivity.
  - unfold SignalsFilter.GetMask. rewrite Hm, Hin. cbn [Nat.leb Nat.add andb].
    destruct (Nat.ltb_spec (nParameters (SignalsFilter.m_model f)) (length imgs));
      [lia|reflexivity].
Qed.

(** X10 with the five parameter images of a single-component model. *)
Lemma X10_load_inputs_witness :
  exists f' : SignalsFilter.t string,
    SignalsFilter.load_inputs
      Options.five 0 ["PD.nii"; "T1.nii"; "T2.nii"; "f0.nii"; "B1.nii"]%string
      Options.filter0
    = Returns f' /\
    (forall i : nat,
        (i < 5)%nat ->
        SignalsFilter.GetInput Options.five i f'
        = Returns (nth_error ["PD.nii"; "T1.nii"; "T2.nii"; "f0.nii"; "B1.nii"]%string i)) /\
    SignalsFilter.GetMask Options.five f'
    = SignalsFilter.GetMask Options.five Options.filter0.
Proof.
  apply (@X10_load_inputs
           string Options.five Options.filter0
           ["PD.nii"; "T1.nii"; "T2.nii"; "f0.nii"; "B1.nii"]%string).
  reflexivity.
Defined.

(** X11.  What [parseInput] leaves when it returns: the sequences and the
    file names it was given, each followed by what the run appended, as
    many sequences as names, and every appended sequence one that a
    sequence constructor returned. *)
Theorem X11_parseInput_appends_pairs
        (istream : Type)
        (Read : istream -> completion (bool * string * istream))
        (construct : QSignal.SeqKind -> bool -> istream
                     -> completion (SequenceBase * istream))
        (fuel : nat) (g : QSignal.globals) (cin cin' : istream)
        (cs cs' : list SequenceBase) (names names' : list string) :
  QSignal.parseInput Read construct fuel g cin cs names
  = Returns (Some (cs', names', cin')) ->
  exists (new_cs : list SequenceBase) (new_names : list string),
    cs' = cs ++ new_cs /\
    names' = names ++ new_names /\
    length new_cs = length new_names /\
    Forall (Options.constructed construct g) new_cs.
Proof. apply ParseFacts.parseInput_appends. Qed.

(** X11 on an input with one SPGR entry, then END. *)
Lemma X11_parseInput_appends_pairs_witness :
  exists (new_cs : list SequenceBase) (new_names : list string),
    [Examples.spgr [] 0] = [] ++ new_cs /\
    ["spgr.nii"%string] = [] ++ new_names /\
    length new_cs = length new_names /\
    Forall (Options.constructed Examples.construct QSignal.initial) new_cs.
Proof.
  apply (@X11_parseInput_appends_pairs
           (list string) Examples.Read Examples.construct 3%nat QSignal.initial
           ["SPGR"; "3 4 5 6"; "0.005"; "spgr.nii"; "END"]%string []
           [] [Examples.spgr [] 0] [] ["spgr.nii"%string]).
  reflexivity.
Defined.

(** X12.  Options of the signal tool other than 1, 2 and 3 do not change
    the tissue model: after any such options the model is the one before
    them, the single-component model when they are all the options. *)
Theorem X12_qsignal_model_kept
        (atof : string -> R) (opts : list (ascii * option string))
        (g g' : QSignal.globals) :
  Forall (fun o => Options.is_model_option (fst o) = false) opts ->
  QSignal.handle_options atof opts g = QSignal.Continue g' ->
  QSignal.model g' = QSignal.model g.
Proof. apply OptionFacts.qsignal_options_keep_model. Qed.

(** X12 from the initial values, with the options v, N and x. *)
Lemma X12_qsignal_model_kept_witness :
  QSignal.model
    (QSignal.mkGlobals SCD true true false true "" (Options.atof_zero "0.1") None)
  = QSignal.model QSignal.initial.
Proof.
  apply (@X12_qsignal_model_kept
           Options.atof_zero
           [("v"%char, None); ("N"%char, Some "0.1"%string); ("x"%char, None)]
           QSignal.initial
           (QSignal.mkGlobals SCD true true false true ""
                              (Options.atof_zero "0.1") None)).
  - repeat constructor.
  - reflexivity.
Defined.

(** X13.  The last of the options 1, 2 and 3 decides the tissue model,
    whatever options come before it and whatever other options follow. *)
Theorem X13_qsignal_last_model_option
        (atof : string -> R) (pre post : list (ascii * option string))
        (c : ascii) (optarg : option string) (g g' : QSignal.globals) :
  Options.is_model_option c = true ->
  Forall (fun o => Options.is_model_option (fst o) = false) post ->
  QSignal.handle_options atof (pre ++ (c, optarg) :: post) g
  = QSignal.Continue g' ->
  QSignal.model g' = Options.model_of_option c.
Proof.
  intros Hc Hpost. rewrite OptionFacts.qsignal_options_app.
  destruct (QSignal.handle_options atof pre g) as [g1| |];
    [|discriminate|discriminate].
  cbn [QSignal.handle_options].
  destruct (QSignal.handle_option atof c optarg g1) as [g2| |] eqn:E;
    [|discriminate|discriminate].
  intros H.
  rewrite (@OptionFacts.qsignal_options_keep_model atof post g2 g' Hpost H).
  apply (@OptionFacts.qsignal_option_sets_model atof c optarg g1 g2 Hc E).
Qed.

(** X13 with the options 3, v, 2 and N. *)
Lemma X13_qsignal_last_model_option_witness :
  QSignal.model
    (QSignal.mkGlobals MCD2 true true false false "" (Options.atof_zero "0.1") None)
  = Options.model_of_option "2".
Proof.
  apply (@X13_qsignal_last_model_option
           Options.atof_zero
           [("3"%char, None); ("v"%char, None)]
           [("N"%char, Some "0.1"%string)]
           "2"%char None QSignal.initial
           (QSignal.mkGlobals MCD2 true true false false ""
                              (Options.atof_zero "0.1") None)).
  - reflexivity.
  - repeat constructor.
  - reflexivity.
Defined.

(** X14.  The option i of the estimation tool: the [int] that [atoi]
    gives becomes a [size_t]; a value that is not negative is the
    iteration count, a negative value [v] gives the count [2^64 + v], and
    the strategy is as before. *)
Theorem X14_iterations_option
        (atoi : string -> Z) (optarg : string) (s : QDespot1.state) :
  Options.int_range (atoi optarg) ->
  exists s' : QDespot1.state,
    QDespot1.handle_option atoi "i" optarg s = QDespot1.Continue s' /\
    DESPOT1.m_iterations (QDespot1.algo s')
    = (if (0 <=? atoi optarg)%Z then atoi optarg else 2 ^ 64 + atoi optarg)%Z /\
    SizeT.in_range (DESPOT1.m_iterations (QDespot1.algo s')) /\
    DESPOT1.m_type (QDespot1.algo s') = DESPOT1.m_type (QDespot1.algo s).
Proof.
  intros Hv.
  destruct (OptionFacts.size_t_of_int_value Hv) as [Hval Hrange].
  eexists. split; [reflexivity|].
  cbn [QDespot1.algo QDespot1.set_algo DESPOT1.setIterations
       DESPOT1.m_iterations DESPOT1.m_type].
  split; [exact Hval|]. split; [exact Hrange|reflexivity].
Qed.

(** X14 with an [atoi] that gives -1: the count is [2^64 - 1]. *)
Lemma X14_iterations_option_witness :
  exists s' : QDespot1.state,
    QDespot1.handle_option Options.atoi_minus_one "i" "-1" QDespot1.initial
    = QDespot1.Continue s' /\
    DESPOT1.m_iterations (QDespot1.algo s') = 18446744073709551615%Z /\
    SizeT.in_range (DESPOT1.m_iterations (QDespot1.algo s')) /\
    DESPOT1.m_type (QDespot1.algo s') = DESPOT1.LLS.
Proof.
  apply (@X14_iterations_option
           Options.atoi_minus_one "-1"%string QDespot1.initial).
  unfold Options.int_range, Options.atoi_minus_one. lia.
Defined.

(** X15.  Without the options a and i the estimation tool runs the
    default estimator, LLS with four iterations, whatever its other options
    are; it starts only with exactly one argument, the input file, and
    names the two maps it writes by the prefix followed by D1_PD.nii and
    D1_T1.nii. *)
Theorem X15_despot1_setup_default
        (atoi : string -> Z) (opts : list (ascii * string)) (args : list string)
        (a : DESPOT1.t) (input pd t1 : string) :
  Forall (fun o => Options.is_algo_option (fst o) = false) opts ->
  QDespot1.setup atoi opts args = Some (a, input, pd, t1) ->
  a = DESPOT1.default /\
  args = [input] /\
  exists prefix : string,
    pd = (prefix ++ "D1_PD.nii")%string /\ t1 = (prefix ++ "D1_T1.nii")%string.
Proof.
  intros Hopts. unfold QDespot1.setup.
  destruct (QDespot1.handle_options atoi opts QDespot1.initial) as [s|] eqn:E;
    [|discriminate].
  destruct args as [|input0 [|? ?]]; try discriminate.
  intros H; injection H as <- <- <- <-.
  split; [|split; [reflexivity|]].
  - apply (@OptionFacts.despot1_options_keep_algo atoi opts QDespot1.initial s Hopts E).
  - exists (QDespot1.outPrefix s).
    split; apply OptionFacts.append_assoc.
Qed.

(** X15 with the options v and o. *)
Lemma X15_despot1_setup_default_witness :
  DESPOT1.default = DESPOT1.default /\
  ["spgr.nii"%string] = ["spgr.nii"%string] /\
  exists prefix : string,
    "out_D1_PD.nii"%string = (prefix ++ "D1_PD.nii")%string /\
    "out_D1_T1.nii"%string = (prefix ++ "D1_T1.nii")%string.
Proof.
  apply (@X15_despot1_setup_default
           Options.atoi_minus_one
           [("v"%char, ""%string); ("o"%char, "out_"%string)]
           ["spgr.nii"%string]
           DESPOT1.default "spgr.nii"%string
           "out_D1_PD.nii"%string "out_D1_T1.nii"%string).
  - repeat constructor.
  - reflexivity.
Defined.

(** X16.  What the signal tool writes without the option for complex
    output: for every voxel the moduli of at most [size()] values of the
    signal, each a real number that is not negative, or special.  The
    option m changes nothing of it: [main] keeps the name of the mask and
    never hands a mask to the filter, so no voxel is left out. *)
Theorem X16_written_magnitudes
        (atof : string -> R) (cast_float : Eigen.Cplx -> Eigen.Cplx)
        (g : QSignal.globals) (file : string)
        (m_sequence : SequenceBase) (inputs : list Dbl.t) :
  QSignal.outputComplex g = false ->
  exists (g' : QSignal.globals) (mags : list Dbl.t),
    QSignal.handle_option atof "m" (Some file) g = QSignal.Continue g' /\
    QSignal.mask g' = Some file /\
    QSignal.written cast_float g' m_sequence inputs = Some (inr mags) /\
    QSignal.written cast_float g m_sequence inputs = Some (inr mags) /\
    (length mags <= Z.to_nat (size m_sequence))%nat /\
    Forall (fun m => m = Dbl.Special \/ exists r : R, m = Dbl.Finite r /\ 0 <= r)
           mags.
Proof.
  intros Hout. eexists. eexists.
  split; [reflexivity|]. split; [reflexivity|].
  unfold QSignal.written, QSignal.voxel.
  cbn [QSignal.model QSignal.outputComplex]. rewrite Hout.
  split; [reflexivity|]. split; [reflexivity|].
  split; [rewrite length_map; apply firstn_le_length|].
  apply ToolFacts.Cabs_all_nonneg.
Qed.

(** X16 on the two-angle SPGR sequence with a mask named, for the voxel
    PD = 1, T1 = 1 s and B1 = 1. *)
Lemma X16_written_magnitudes_witness :
  exists (g' : QSignal.globals) (mags : list Dbl.t),
    QSignal.handle_option Options.atof_zero "m" (Some "mask.nii"%string)
                          QSignal.initial
    = QSignal.Continue g' /\
    QSignal.mask g' = Some "mask.nii"%string /\
    QSignal.written Options.keep_complex g' Examples.two_angles
                    [Dbl.Finite 1; Dbl.Finite 1; Dbl.Finite 0; Dbl.Finite 0;
                     Dbl.Finite 1]
    = Some (inr mags) /\
    QSignal.written Options.keep_complex QSignal.initial Examples.two_angles
                    [Dbl.Finite 1; Dbl.Finite 1; Dbl.Finite 0; Dbl.Finite 0;
                     Dbl.Finite 1]
    = Some (inr mags) /\
    (length mags <= Z.to_nat (size Examples.two_angles))%nat /\
    Forall (fun m => m = Dbl.Special \/ exists r : R, m = Dbl.Finite r /\ 0 <= r)
           mags.
Proof.
  apply (@X16_written_magnitudes
           Options.atof_zero Options.keep_complex QSignal.initial
           "mask.nii"%string Examples.two_angles
           [Dbl.Finite 1; Dbl.Finite 1; Dbl.Finite 0; Dbl.Finite 0;
            Dbl.Finite 1]).
  reflexivity.
Defined.

(** X19.  An argument of the option a that starts with none of l, w and
    n ends the estimation tool with a failure, wherever the option stands
    among the others and whatever the arguments are. *)
Theorem X19_unknown_algorithm_fails
        (atoi : string -> Z) (pre post : list (ascii * string))
        (optarg : string) (args : list string) :
  Options.algo_letter optarg = None ->
  QDespot1.setup atoi (pre ++ ("a"%char, optarg) :: post) args = None.
Proof.
  intros Hbad. unfold QDespot1.setup.
  rewrite OptionFacts.despot1_options_app.
  destruct (QDespot1.handle_options atoi pre QDespot1.initial) as [s|];
    [|reflexivity].
  cbn [QDespot1.handle_options].
  rewrite (@OptionFacts.despot1_bad_algo atoi optarg s Hbad). reflexivity.
Qed.

(** X19 with the argument x between the options v and r. *)
Lemma X19_unknown_algorithm_fails_witness :
  QDespot1.setup Options.atoi_minus_one
                 ([("v"%char, ""%string)] ++ ("a"%char, "x"%string)
                    :: [("r"%char, ""%string)])
                 ["spgr.nii"%string]
  = None.
Proof.
  apply (@X19_unknown_algorithm_fails
           Options.atoi_minus_one [("v"%char, ""%string)] [("r"%char, ""%string)]
           "x"%string ["spgr.nii"%string]).
  reflexivity.
Defined.
